(** * PyOP2 loop fusion: the inspector of [pyop2/fusion/transformer.py]
      and the execution plan of [pyop2/openmp.py]

    The development embeds the dependency analyser, the soft- and
    hard-fusion passes, the inspection heuristic, the set registration of
    the tiling pass and the partition/colouring plan, and states the
    properties of the design document about them. *)

From Stdlib Require Import ZArith.
From stdpp Require Import gmap strings list sets pretty.

Set Warnings "-register-all".

(** ** Errors

    Python exceptions are values: a computation that may raise returns a
    [result]. *)

Inductive exn : Type :=
| IndexError
| NameError (name : string)
| UnboundLocalError (name : string)
| AttributeError (name : string)
| RuntimeError (msg : string).

Inductive result (A : Type) : Type :=
| Ok (a : A)
| Raise (e : exn).
Arguments Ok {A} a.
Arguments Raise {A} e.

#[global] Instance result_ret : MRet result := fun A a => Ok a.

#[global] Instance result_bind : MBind result := fun A B k r =>
  match r with
  | Ok a => k a
  | Raise e => Raise e
  end.

(** ** Data model (the objects of [pyop2/base.py] the inspector reads) *)

(** Access descriptors. *)
Inductive Access : Type := READ | WRITE | RW | INC | MIN | MAX.

#[global] Instance Access_eq_dec : EqDecision Access.
Proof. solve_decision. Defined.

(** [Access._mode], the token handed to SLOPE. *)
Definition access_mode (a : Access) : string :=
  match a with
  | READ => "READ" | WRITE => "WRITE" | RW => "RW"
  | INC => "INC" | MIN => "MIN" | MAX => "MAX"
  end.

(** A datum (Dat, Mat or Global) is identified by its name. *)
Definition Data : Type := string.

(** The attributes of a set that the inspector looks at.  [_partitioning]
    and [_deep_size] are optional attributes, tested with [hasattr]. *)
Record SetInfo : Type := mkSetInfo {
  set_name : string;
  core_size : Z;
  exec_size : Z;
  total_size : Z;
  _partitioning : option (list Z);
  _deep_size : option (list (Z * Z * Z * Z))
}.

#[global] Instance SetInfo_eq_dec : EqDecision SetInfo.
Proof. solve_decision. Defined.

(** Sets: a plain set, a [Subset] of a superset with its index list, and a
    set object that carries a [subset] attribute. *)
Inductive OpSet : Type :=
| PlainSet (info : SetInfo)
| Subset (superset : OpSet) (indices : list Z) (info : SetInfo)
| SubsetView (subset : OpSet) (info : SetInfo).

#[global] Instance OpSet_eq_dec : EqDecision OpSet.
Proof. solve_decision. Defined.

Definition set_info (s : OpSet) : SetInfo :=
  match s with
  | PlainSet i => i
  | Subset _ _ i => i
  | SubsetView _ i => i
  end.

(** A map and its optional [factors].  The code looks one level deep into
    [factors] only, so a factor is kept without factors of its own. *)
Record MapCore : Type := mkMapCore {
  map_name : string;
  map_iterset : OpSet;
  map_toset : OpSet;
  arity : nat;
  values_with_halo : list Z
}.

#[global] Instance MapCore_eq_dec : EqDecision MapCore.
Proof. solve_decision. Defined.

Record Map : Type := mkMap {
  map_core : MapCore;
  factors : option (list MapCore)
}.

#[global] Instance Map_eq_dec : EqDecision Map.
Proof. solve_decision. Defined.

(** The [map] attribute of an argument: [None], one map, or the pair of a
    matrix argument. *)
Inductive ArgMap : Type :=
| NoMap
| OneMap (m : Map)
| TwoMaps (rmap cmap : Map).

#[global] Instance ArgMap_eq_dec : EqDecision ArgMap.
Proof. solve_decision. Defined.

Record Arg : Type := mkArg {
  data : Data;
  access : Access;
  amap : ArgMap
}.

#[global] Instance Arg_eq_dec : EqDecision Arg.
Proof. solve_decision. Defined.

(** Modelled from the spec: the classification of arguments ([base.Arg] is
    not among the sources): direct (no map), indirect (single map), matrix
    (two maps). *)
Definition _is_direct (a : Arg) : bool :=
  match amap a with NoMap => true | _ => false end.

Definition _is_indirect (a : Arg) : bool :=
  match amap a with OneMap _ => true | _ => false end.

Definition _is_mat (a : Arg) : bool :=
  match amap a with TwoMaps _ _ => true | _ => false end.

(** ** Kernel ASTs (the part of COFFEE's tree the fusion passes touch)

    The AST of a kernel is taken to be its function declaration, the first
    [FunDecl] that [FindInstances] finds in it.  Symbols are the nodes that
    [SymbolReferences] collects; the symbol of a parameter declaration is one
    of them. *)

Inductive Node : Type :=
| Symbol (symbol : string)
| FlatBlock (code : string)
| Stmt (kind : string) (children : list Node).

Record Decl : Type := mkDecl {
  typ : string;
  sym : string;
  qual : list string
}.

#[global] Instance Decl_eq_dec : EqDecision Decl.
Proof. solve_decision. Defined.

Record FunDecl : Type := mkFunDecl {
  fun_name : string;
  fun_args : list Decl;
  fun_body : list Node
}.

Record Kernel : Type := mkKernel {
  kernel_name : string;
  _code : option string;
  _ast : FunDecl;
  _original_ast : FunDecl
}.

Record ItSpace : Type := mkItSpace {
  iterset : OpSet;
  extents : list nat
}.

#[global] Instance ItSpace_eq_dec : EqDecision ItSpace.
Proof. solve_decision. Defined.

Record Loop : Type := mkLoop {
  kernel : Kernel;
  it_space : ItSpace;
  args : list Arg
}.

(** ** Dependency analyser: [loops_analyzer] *)

(** A Python [set] of arguments is a duplicate-free list; the order of
    iteration over a Python set is unspecified, the model takes the order of
    first occurrence. *)
Definition reads (l : Loop) : list Arg :=
  remove_dups (filter (fun a => access a ∈ [READ; RW]) (args l)).

Definition writes (l : Loop) : list Arg :=
  remove_dups (filter (fun a => access a ∈ [RW; WRITE; MIN; MAX]) (args l)).

Definition incs (l : Loop) : list Arg :=
  remove_dups (filter (fun a => access a ∈ [INC]) (args l)).

(** [incs(l) | writes(l)] *)
Definition set_union_list {A : Type} `{EqDecision A} (x y : list A) : list A :=
  remove_dups (x ++ y).

Definition data_set (l : list Arg) : gset Data := list_to_set (data <$> l).

Definition all_reads (l : Loop) : gset Data := data_set (reads l).
Definition all_writes (l : Loop) : gset Data := data_set (writes l).
Definition all_incs (l : Loop) : gset Data := data_set (incs l).
Definition all_inc_writes (l : Loop) : gset Data :=
  data_set (set_union_list (incs l) (writes l)).

Definition dir_reads (l : Loop) : gset Data :=
  data_set (filter (fun a => _is_direct a = true) (reads l)).
Definition dir_writes (l : Loop) : gset Data :=
  data_set (filter (fun a => _is_direct a = true) (writes l)).
Definition dir_incs (l : Loop) : gset Data :=
  data_set (filter (fun a => _is_direct a = true) (incs l)).
Definition dir_inc_writes (l : Loop) : gset Data :=
  data_set (filter (fun a => _is_direct a = true)
                   (set_union_list (incs l) (writes l))).

Definition ind_reads (l : Loop) : gset Data :=
  data_set (filter (fun a => _is_indirect a = true) (reads l)).
Definition ind_writes (l : Loop) : gset Data :=
  data_set (filter (fun a => _is_indirect a = true) (writes l)).
Definition ind_incs (l : Loop) : gset Data :=
  data_set (filter (fun a => _is_indirect a = true) (incs l)).
Definition ind_inc_writes (l : Loop) : gset Data :=
  data_set (filter (fun a => _is_indirect a = true)
                   (set_union_list (incs l) (writes l))).

(** [x & y != set()] and [x & y == set()] *)
Definition meet (x y : gset Data) : bool := bool_decide (x ∩ y ≠ ∅).
Definition apart (x y : gset Data) : bool := bool_decide (x ∩ y = ∅).

Record Info : Type := mkInfo {
  homogeneous : bool;
  heterogeneous : bool;
  direct_raw : bool;
  direct_war : bool;
  direct_waw : bool;
  direct_w : bool;
  indirect_raw : bool;
  indirect_war : bool;
  indirect_waw : bool;
  indirect_w : bool;
  pure_iai : bool
}.

Definition loops_analyzer (loop1 loop2 : Loop) : Info :=
  let homogeneous := bool_decide (it_space loop1 = it_space loop2) in
  let heterogeneous := negb homogeneous in
  let direct_raw := homogeneous && meet (dir_inc_writes loop1) (dir_reads loop2) in
  let direct_war := homogeneous && meet (dir_reads loop1) (dir_inc_writes loop2) in
  let direct_waw :=
    homogeneous && meet (dir_inc_writes loop1) (dir_inc_writes loop2) in
  let direct_w := direct_raw || direct_war || direct_waw in
  let indirect_raw :=
    (homogeneous && meet (ind_inc_writes loop1) (ind_reads loop2))
    || (heterogeneous && meet (all_writes loop1) (all_reads loop2)) in
  let indirect_war :=
    (homogeneous && meet (ind_reads loop1) (ind_inc_writes loop2))
    || (heterogeneous && meet (all_reads loop1) (all_writes loop2)) in
  let indirect_waw :=
    (homogeneous && meet (ind_inc_writes loop1) (ind_inc_writes loop2))
    || (heterogeneous && meet (all_writes loop1) (all_writes loop2)) in
  let indirect_w := indirect_raw || indirect_war || indirect_waw in
  let pure_iai :=
    meet (all_incs loop1) (all_incs loop2)
    && apart (all_writes loop1) (all_reads loop2)
    && apart (all_reads loop1) (all_writes loop2)
    && apart (all_writes loop1) (all_reads loop2) in
  {| homogeneous := homogeneous; heterogeneous := heterogeneous;
     direct_raw := direct_raw; direct_war := direct_war;
     direct_waw := direct_waw; direct_w := direct_w;
     indirect_raw := indirect_raw; indirect_war := indirect_war;
     indirect_waw := indirect_waw; indirect_w := indirect_w;
     pure_iai := pure_iai |}.

(** ** Soft fusion: [build_soft_fusion_kernel] and [Inspector._soft_fuse] *)

(** The fused kernel built by [Kernel(kernels, base_ast, loop_chain_index)]. *)
Record FusedKernel : Type := mkFusedKernel {
  fused_kernels : list Kernel;
  fused_ast : FunDecl;
  loop_chain_index : nat
}.

(** [k._original_ast if k._code else k._ast]; a string is true when it is
    not empty. *)
Definition kernel_ast (k : Kernel) : FunDecl :=
  match _code k with
  | Some c => if decide (c = "") then _ast k else _original_ast k
  | None => _ast k
  end.

(** [SymbolReferences().visit(fuse_ast)] is computed once, before any
    renaming: it lists the symbol nodes under the name they have then.  The
    renaming loop mutates the nodes in place, so the tree as it was visited
    ([orig]) tells which nodes a key selects and the current tree ([cur])
    holds the names that are extended. *)
Fixpoint rename_refs (key suffix : string) (orig cur : Node) {struct orig} : Node :=
  match orig, cur with
  | Symbol o, Symbol c => if decide (o = key) then Symbol (c +:+ suffix) else cur
  | Stmt _ os, Stmt k cs =>
      Stmt k ((fix go (os cs : list Node) {struct os} : list Node :=
                 match os, cs with
                 | o :: os', c :: cs' => rename_refs key suffix o c :: go os' cs'
                 | _, _ => cs
                 end) os cs)
  | _, _ => cur
  end.

Definition rename_decl (key suffix : string) (orig cur : Decl) : Decl :=
  if decide (sym orig = key)
  then {| typ := typ cur; sym := sym cur +:+ suffix; qual := qual cur |}
  else cur.

(** One turn of [for decl in fuse_fundecl.args]: the key is the name the
    [j]-th declaration has now; every symbol listed under that key gets the
    suffix. *)
Definition rename_pass (orig : FunDecl) (suffix : string) (cur : FunDecl) (j : nat)
  : FunDecl :=
  match fun_args cur !! j with
  | Some decl =>
      let key := sym decl in
      {| fun_name := fun_name cur;
         fun_args := zip_with (rename_decl key suffix) (fun_args orig) (fun_args cur);
         fun_body := zip_with (rename_refs key suffix) (fun_body orig) (fun_body cur) |}
  | None => cur
  end.

(** Step 3, "Uniquify symbols identifiers", for the kernel with number
    [unique_id]. *)
Definition uniquify (fuse_fundecl : FunDecl) (unique_id : nat) : FunDecl :=
  foldl (rename_pass fuse_fundecl ("_" +:+ pretty unique_id)) fuse_fundecl
        (seq 0 (length (fun_args fuse_fundecl))).

Definition fused_marker : Node := FlatBlock "

// Fused kernel: 

".

(** One turn of the loop over [enumerate(fuse_asts, 1)].  The declarations
    appended in step 2 are the objects renamed in step 3, so the base
    signature receives them renamed. *)
Definition fuse_into (base_fundecl : FunDecl) (unique_id : nat) (fuse_ast : FunDecl)
  : FunDecl :=
  let fuse_fundecl := uniquify fuse_ast unique_id in
  {| fun_name := fun_name base_fundecl +:+ "_" +:+ fun_name fuse_ast;
     fun_args := fun_args base_fundecl ++ fun_args fuse_fundecl;
     fun_body := fun_body base_fundecl ++ fused_marker :: fun_body fuse_fundecl |}.

Fixpoint fuse_all (base_fundecl : FunDecl) (unique_id : nat) (fuse_asts : list FunDecl)
  : FunDecl :=
  match fuse_asts with
  | [] => base_fundecl
  | fuse_ast :: rest =>
      fuse_all (fuse_into base_fundecl unique_id fuse_ast) (S unique_id) rest
  end.

(** Modelled from the spec: [Filter().kernel_args] ([pyop2/fusion/filters.py]
    is not among the sources).  "Eliminate duplicate parameters that refer to
    the same underlying data reference across the merged signature": the
    parameters are bound, in order, to the arguments of the loops; a
    parameter is dropped when an earlier one is bound to the same datum.
    Parameters left without an argument are kept. *)
Fixpoint drop_duplicates (seen : list Data) (loop_args : list Arg)
    (kernel_args : list Decl) : list Decl :=
  match loop_args, kernel_args with
  | a :: loop_args', d :: kernel_args' =>
      if decide (data a ∈ seen)
      then drop_duplicates seen loop_args' kernel_args'
      else d :: drop_duplicates (data a :: seen) loop_args' kernel_args'
  | _, _ => kernel_args
  end.

Definition Filter_kernel_args (loops : list Loop) (fundecl : FunDecl) : FunDecl :=
  {| fun_name := fun_name fundecl;
     fun_args := drop_duplicates [] (concat (args <$> loops)) (fun_args fundecl);
     fun_body := fun_body fundecl |}.

(** [build_soft_fusion_kernel(loops, loop_chain_index)].  The base and each
    fused AST are deep copies ([dcopy]): the kernels of the loops are read
    and never changed, so the synthesis is a function of their values. *)
Definition build_soft_fusion_kernel (loops : list Loop) (loop_chain_index : nat)
  : result FusedKernel :=
  let kernels := kernel <$> loops in
  let asts := kernel_ast <$> kernels in
  match asts with
  | [] => Raise IndexError
  | base_ast :: fuse_asts =>
      let base_fundecl := fuse_all base_ast 1 fuse_asts in
      Ok {| fused_kernels := kernels;
            fused_ast := Filter_kernel_args loops base_fundecl;
            loop_chain_index := loop_chain_index |}
  end.

(** The test of [_soft_fuse] on the analysis of [(base_loop, loop)]. *)
Definition unfusible (base_loop loop : Loop) : bool :=
  let info := loops_analyzer base_loop loop in
  heterogeneous info || indirect_w info.

(** The loop [for i, loop in enumerate(loop_chain[1:])], on the state
    [(handled, fusing)]. *)
Fixpoint soft_fuse_scan (handled : list (FusedKernel * nat)) (fusing : list Loop)
    (i : nat) (rest : list Loop) : result (list (FusedKernel * nat) * list Loop) :=
  match rest with
  | [] => Ok (handled, fusing)
  | loop :: rest' =>
      match last fusing with
      | None => Raise IndexError
      | Some base_loop =>
          if unfusible base_loop loop
          then
            fused_kernel ← build_soft_fusion_kernel fusing (length handled);
            soft_fuse_scan (handled ++ [(fused_kernel, i + 1)]) [loop] (S i) rest'
          else soft_fuse_scan handled (fusing ++ [loop]) (S i) rest'
      end
  end.

(** The remainder: [if fusing: ...] after the loop; [n] is [len(loop_chain)]. *)
Definition soft_fuse_flush (n : nat) (st : list (FusedKernel * nat) * list Loop)
  : result (list (FusedKernel * nat)) :=
  match st.2 with
  | [] => Ok st.1
  | _ :: _ =>
      fused_kernel ← build_soft_fusion_kernel st.2 (length st.1);
      Ok (st.1 ++ [(fused_kernel, n)])
  end.

(** [_soft_fuse] up to the list [handled] of (fused kernel, offset) it hands
    to [FusionSchedule]. *)
Definition _soft_fuse (loop_chain : list Loop) : result (list (FusedKernel * nat)) :=
  match loop_chain with
  | [] => Raise IndexError
  | first :: rest =>
      st ← soft_fuse_scan [] [first] 0 rest;
      soft_fuse_flush (length loop_chain) st
  end.

(** ** Hard fusion: the search of [Inspector._hard_fuse] *)

(** What the body of the inner [for] does with a candidate: [continue],
    [break], or append a tuple to [fusible] and [break]. *)
Inductive Verdict : Type :=
| Skip
| Stop
| Accept (base_loop fuse_loop : Loop) (fusion_map : Map) (common_inc : Arg).

Definition indirect_map (a : Arg) : option Map :=
  match amap a with OneMap m => Some m | _ => None end.

(** [set(flatten(m.factors for m in maps if hasattr(m, 'factors')))] *)
Definition factor_maps (maps : list Map) : list Map :=
  remove_dups
    (concat ((fun m => match factors m with
                       | Some fs => (fun c => mkMap c None) <$> fs
                       | None => []
                       end) <$> maps)).

Definition common_incs_of (base_loop loop : Loop) : list Arg :=
  let base_inc_dats := data_set (incs base_loop) in
  let loop_inc_dats := data_set (incs loop) in
  let common_inc_dats := base_inc_dats ∪ loop_inc_dats in
  filter (fun a => data a ∈ common_inc_dats)
         (set_union_list (incs base_loop) (incs loop)).

Definition candidate_maps (common_incs : list Arg) : list Map :=
  let maps := remove_dups (omap indirect_map common_incs) in
  set_union_list maps (factor_maps maps).

Definition connects (s1 s2 : OpSet) (m : Map) : Prop :=
  s1 = map_iterset (map_core m) ∧ s2 = map_toset (map_core m).

#[global] Instance connects_dec s1 s2 m : Decision (connects s1 s2 m).
Proof. unfold connects. apply _. Defined.

(** The tail of the body, once the roles are settled. *)
Definition settle (common_incs : list Arg) (base_loop fuse_loop : Loop)
    (fusion_map : Map) : result Verdict :=
  if existsb _is_direct (args fuse_loop)
  then Ok Stop
  else
    match filter (fun a => a ∈ args base_loop) common_incs with
    | [] => Raise IndexError
    | common_inc :: _ => Ok (Accept base_loop fuse_loop fusion_map common_inc)
    end.

Definition hard_fuse_pair (base_loop loop : Loop) : result Verdict :=
  let info := loops_analyzer base_loop loop in
  if homogeneous info then Ok Skip
  else if negb (pure_iai info) then Ok Stop
  else
    let common_incs := common_incs_of base_loop loop in
    match common_incs with
    | [] => Ok Stop
    | _ :: _ =>
        let maps := candidate_maps common_incs in
        let set1 := iterset (it_space base_loop) in
        let set2 := iterset (it_space loop) in
        let fusion_map_1 := filter (connects set1 set2) maps in
        let fusion_map_2 := filter (connects set2 set1) maps in
        match fusion_map_1, fusion_map_2 with
        | fusion_map :: _, _ => settle common_incs base_loop loop fusion_map
        | [], fusion_map :: _ => settle common_incs loop base_loop fusion_map
        | [], [] => Ok Skip
        end
    end.

Definition Fusible : Type := Loop * Loop * Map * Arg.

(** The inner loop [for i, loop in enumerate(loop_chain[base_loop_index+1:], 1)].
    It returns the value [i] is left with ([last_i] when the loop body never
    ran) and the tuple appended to [fusible], if any. *)
Fixpoint forward_scan (base_loop : Loop) (i : nat) (candidates : list Loop)
    (last_i : option nat) : result (option nat * option Fusible) :=
  match candidates with
  | [] => Ok (last_i, None)
  | loop :: candidates' =>
      v ← hard_fuse_pair base_loop loop;
      match v with
      | Skip => forward_scan base_loop (S i) candidates' (Some i)
      | Stop => Ok (Some i, None)
      | Accept b f m c => Ok (Some i, Some (b, f, m, c))
      end
  end.

(** The [while] loop.  [i] is a local of [_hard_fuse] that only the inner
    [for] assigns: it is unbound until a first candidate is looked at and
    keeps its value afterwards.  [None] as a result means the fuel ran out. *)
Fixpoint base_scan (fuel : nat) (loop_chain : list Loop) (base_loop_index : nat)
    (i : option nat) (fusible : list Fusible) : result (option (list Fusible)) :=
  match fuel with
  | O => Ok None
  | S fuel' =>
      match loop_chain !! base_loop_index with
      | None => Ok (Some fusible)
      | Some base_loop =>
          '(i', found) ← forward_scan base_loop 1
                            (drop (S base_loop_index) loop_chain) i;
          match i' with
          | None => Raise (UnboundLocalError "i")
          | Some n =>
              base_scan fuel' loop_chain (base_loop_index + n) (Some n)
                        (fusible ++ option_list found)
          end
      end
  end.

Definition hard_fuse_search (loop_chain : list Loop) : result (option (list Fusible)) :=
  base_scan (S (length loop_chain)) loop_chain 0 None [].

(** ** Tiling: [create_slope_set] and [Inspector._tile] *)

(** [namedtuple('SlopeSet', 'name core boundary nonexec superset')] *)
Record SlopeSet : Type := mkSlopeSet {
  slope_name : string;
  slope_core : Z;
  slope_boundary : Z;
  slope_nonexec : Z;
  slope_superset : option string
}.

#[global] Instance SlopeSet_eq_dec : EqDecision SlopeSet.
Proof. solve_decision. Defined.

(** An [OrderedDict]: assignment to a present key keeps its position. *)
Fixpoint odict_set {K V : Type} `{EqDecision K} (d : list (K * V)) (k : K) (v : V)
  : list (K * V) :=
  match d with
  | [] => [(k, v)]
  | (k', v') :: d' =>
      if decide (k' = k) then (k, v) :: d' else (k', v') :: odict_set d' k v
  end.

Definition InspSets : Type := list (SlopeSet * option (list Z)).
Definition SlopeMap : Type := (string * string * string * list Z)%type.
Definition InspMaps : Type := list (string * SlopeMap).
Definition SlopeDesc : Type := (string * string)%type.
Definition SlopeLoop : Type := (string * string * list SlopeDesc)%type.

Definition mpi_modes : list string := ["OMP_MPI"; "ONLY_MPI"].

(** [lst[-1]] and [lst[-2]] *)
Definition from_end {A : Type} (l : list A) (k : nat) : result A :=
  match rev l !! k with
  | Some x => Ok x
  | None => Raise IndexError
  end.

(** [create_slope_set(op2set, extra_halo, insp_sets)].  [exec_mode] is
    [slope.get_exec_mode()] and [set_str] is [str] on sets.  In the branch of
    a [Subset] the right-hand side [s.superset.name] names [s], which is
    neither a parameter nor a local of the function nor a name bound at the
    top of the module: evaluating it raises [NameError]. *)
Definition create_slope_set (exec_mode : string) (set_str : OpSet -> string)
    (op2set : OpSet) (extra_halo : bool) (insp_sets : InspSets)
  : result (SlopeSet * InspSets) :=
  let partitioning := _partitioning (set_info op2set) in
  '(name, superset) ←
    match op2set with
    | Subset _ _ _ =>
        let name := set_str op2set +:+ "_ss" in
        superset ← Raise (A := option string) (NameError "s");
        Ok (name, superset)
    | _ => Ok (set_name (set_info op2set), None)
    end;
  '(core_size, boundary_size, nonexec_size) ←
    (if decide (exec_mode ∉ mpi_modes)
     then Ok (core_size (set_info op2set),
              exec_size (set_info op2set) - core_size (set_info op2set),
              total_size (set_info op2set) - exec_size (set_info op2set))%Z
     else
       match _deep_size (set_info op2set) with
       | None => Raise (AttributeError "_deep_size")
       | Some deep =>
           '(n0, _, n2, n3) ← from_end deep 0;
           let core_size := n0 in
           let boundary_size := (n2 - core_size)%Z in
           let nonexec_size := (n3 - n2)%Z in
           if extra_halo && bool_decide (nonexec_size = 0%Z)
           then
             '(_, _, e2, e3) ← from_end deep 1;
             Ok (core_size, (e2 - core_size)%Z, (e3 - e2)%Z)
           else Ok (core_size, boundary_size, nonexec_size)
       end);
  let slope_set := mkSlopeSet name core_size boundary_size nonexec_size superset in
  Ok (slope_set, odict_set insp_sets slope_set partitioning).

(** A string is true when it is not empty; [None] is false. *)
Definition truthy (s : option string) : bool :=
  match s with
  | Some n => negb (bool_decide (n = ""))
  | None => false
  end.

(** [as_tuple(a.map, Map)] *)
Definition as_tuple (m : ArgMap) : list Map :=
  match m with
  | NoMap => []
  | OneMap m => [m]
  | TwoMaps r c => [r; c]
  end.

(** A Python [set] of descriptors, kept in order of first insertion. *)
Definition desc_add (s : list SlopeDesc) (d : SlopeDesc) : list SlopeDesc :=
  if decide (d ∈ s) then s else s ++ [d].

Record TileState : Type := mkTileState {
  insp_sets : InspSets;
  insp_maps : InspMaps;
  insp_loops : list SlopeLoop
}.

(** The two innermost loops over the maps of one argument; a map iterates
    to itself ([j] is [0]). *)
Fixpoint register_maps (exec_mode : string) (set_str : OpSet -> string)
    (extra_halo : bool) (acc : Access) (i : nat) (maps : list Map)
    (sets : InspSets) (imaps : InspMaps) (desc : list SlopeDesc)
  : result (InspSets * InspMaps * list SlopeDesc) :=
  match maps with
  | [] => Ok (sets, imaps, desc)
  | m :: maps' =>
      let c := map_core m in
      let map_name' := map_name c +:+ pretty i +:+ "_" +:+ pretty 0 in
      let imaps := odict_set imaps (map_name c)
                     (map_name', set_name (set_info (map_iterset c)),
                      set_name (set_info (map_toset c)), values_with_halo c) in
      let desc := desc_add desc (map_name', access_mode acc) in
      '(_, sets) ← create_slope_set exec_mode set_str (map_iterset c) extra_halo sets;
      '(_, sets) ← create_slope_set exec_mode set_str (map_toset c) extra_halo sets;
      register_maps exec_mode set_str extra_halo acc (S i) maps' sets imaps desc
  end.

(** The loop [for a in loop.args]. *)
Fixpoint register_args (exec_mode : string) (set_str : OpSet -> string)
    (extra_halo : bool) (loop_args : list Arg)
    (sets : InspSets) (imaps : InspMaps) (desc : list SlopeDesc)
  : result (InspSets * InspMaps * list SlopeDesc) :=
  match loop_args with
  | [] => Ok (sets, imaps, desc)
  | a :: loop_args' =>
      '(sets, imaps, desc) ←
        match as_tuple (amap a) with
        | [] => Ok (sets, imaps, desc_add desc ("DIRECT", access_mode (access a)))
        | maps => register_maps exec_mode set_str extra_halo (access a) 0 maps
                                sets imaps desc
        end;
      register_args exec_mode set_str extra_halo loop_args' sets imaps desc
  end.

(** One turn of [for loop in loop_chain] in [_tile]. *)
Definition register_loop (exec_mode : string) (set_str : OpSet -> string)
    (extra_halo : bool) (st : TileState) (loop : Loop) : result TileState :=
  let iterset0 := iterset (it_space loop) in
  let iterset1 := match iterset0 with SubsetView s _ => s | _ => iterset0 end in
  '(slope_set, sets) ← create_slope_set exec_mode set_str iterset1 extra_halo
                         (insp_sets st);
  '(sets, imaps, desc) ←
    (if truthy (slope_superset slope_set)
     then
       match iterset1 with
       | Subset sup idx _ =>
           '(_, sets) ← create_slope_set exec_mode set_str sup extra_halo sets;
           let map_name' := slope_name slope_set +:+ "_tosuperset" in
           Ok (sets,
               odict_set (insp_maps st) (slope_name slope_set)
                 (map_name', slope_name slope_set, set_name (set_info sup), idx),
               [(map_name', access_mode INC)])
       | _ => Raise (AttributeError "superset")
       end
     else Ok (sets, insp_maps st, []));
  '(sets, imaps, desc) ← register_args exec_mode set_str extra_halo (args loop)
                           sets imaps desc;
  Ok {| insp_sets := sets; insp_maps := imaps;
        insp_loops := insp_loops st
                        ++ [(kernel_name (kernel loop), slope_name slope_set, desc)] |}.

Fixpoint register_chain (exec_mode : string) (set_str : OpSet -> string)
    (extra_halo : bool) (st : TileState) (loop_chain : list Loop) : result TileState :=
  match loop_chain with
  | [] => Ok st
  | loop :: rest =>
      st' ← register_loop exec_mode set_str extra_halo st loop;
      register_chain exec_mode set_str extra_halo st' rest
  end.

(** ** The Inspector *)

(** The keyword options other than [mode]; a missing key is [None]. *)
Record Options : Type := mkOptions {
  tile_size : option Z;
  extra_halo : option bool;
  coloring : option string;
  use_prefetch : option Z;
  log : option bool
}.

(** A hard-fused kernel with its map and the positions of the arguments
    whose gather is postponed. *)
Record HardFused : Type := mkHardFused {
  hard_kernel : FusedKernel;
  hard_map : Map;
  hard_fargs : list (nat * (string * bool))
}.

(** The handles SLOPE returns are opaque. *)
Definition Handle : Type := Z.

Inductive Schedule : Type :=
| PlainSchedule (name : string) (kernels : list Kernel)
| FusionSchedule (name : string) (schedule : Schedule)
                 (kernels : list FusedKernel) (offsets : list nat)
| HardFusionSchedule (name : string) (schedule : Schedule) (fused : list HardFused)
| TilingSchedule (name : string) (schedule : Schedule) (kernel : list Kernel)
                 (inspection executor : Handle) (options : Options).

(** What [_tile] hands to SLOPE. *)
Record SlopeInput : Type := mkSlopeInput {
  in_name : string;
  in_sets : list SlopeSet;
  in_maps : list SlopeMap;
  in_loops : list SlopeLoop;
  in_tile_size : Z;
  in_rank : Z;
  in_partitionings : list (string * list Z);
  in_coloring : string;
  in_prefetch : Z
}.

(** The collaborators of the inspector that are outside this file: the
    schedules of [scheduler.py], the orchestrator synthesis that follows the
    search in [_hard_fuse], SLOPE and MPI. *)
Record Env : Type := mkEnv {
  (** [schedule(loop_chain)] and [schedule(loop_chain, only_hard=True)] *)
  schedule_call : Schedule -> list Loop -> bool -> list Loop;
  (** [build_hard_fusion_kernel] on each tuple found by the search *)
  hard_kernels : list Loop -> list Fusible -> result (list HardFused);
  (** [slope.get_exec_mode()] *)
  get_exec_mode : string;
  (** [MPI.COMM_WORLD.rank] *)
  comm_rank : Z;
  (** [str] on a set *)
  str_of_set : OpSet -> string;
  (** code generation, compilation and run of the SLOPE inspector, and the
      executor made from it *)
  slope_inspect : SlopeInput -> result (Handle * Handle)
}.

(** The attributes of an [Inspector] object; [None] is an attribute that is
    not set (never assigned, or removed by [del]). *)
Record Inspector : Type := mkInspector {
  _initialized : bool;
  _ninsps : option nat;
  _name : option string;
  _loop_chain : option (list Loop);
  _mode : option string;
  _options : option Options;
  _schedule : option Schedule
}.

Definition attr {A : Type} (name : string) (a : option A) : result A :=
  match a with
  | Some x => Ok x
  | None => Raise (AttributeError name)
  end.

Definition _modes : list string := ["soft"; "hard"; "tile"; "only_tile"; "only_omp"].

(** Modelled from the spec: the object that [Cached.__new__] makes on a cache
    miss ([pyop2/caching.py] is not among the sources); it is stored in the
    cache under the fingerprint and is not yet initialised. *)
Definition new_inspector : Inspector :=
  {| _initialized := false; _ninsps := None; _name := None; _loop_chain := None;
     _mode := None; _options := None; _schedule := None |}.

(** [Inspector.__init__(name, loop_chain, mode=..., **options)] *)
Definition __init__ (self : Inspector) (name : string) (loop_chain : list Loop)
    (mode : string) (options : Options) : Inspector :=
  if _initialized self then self
  else
    {| _initialized := _initialized self;
       _ninsps := _ninsps self;
       _name := Some name;
       _loop_chain := Some loop_chain;
       _mode := Some mode;
       _options := Some options;
       _schedule := Some (PlainSchedule name (kernel <$> loop_chain)) |}.

(** The four [del] statements of [inspect]. *)
Definition del_build_state (self : Inspector) : Inspector :=
  {| _initialized := _initialized self;
     _ninsps := _ninsps self;
     _name := None; _loop_chain := None; _mode := None; _options := None;
     _schedule := _schedule self |}.

Definition set_schedule (self : Inspector) (s : Schedule) (chain : option (list Loop))
  : Inspector :=
  {| _initialized := _initialized self;
     _ninsps := _ninsps self;
     _name := _name self;
     _loop_chain := match chain with Some c => Some c | None => _loop_chain self end;
     _mode := _mode self;
     _options := _options self;
     _schedule := Some s |}.

Definition _heuristic_skip_inspection (self : Inspector) : result (bool * Inspector) :=
  let n := match _ninsps self with Some n => n + 1 | None => 1 end in
  let self := {| _initialized := _initialized self;
                 _ninsps := Some n;
                 _name := _name self; _loop_chain := _loop_chain self;
                 _mode := _mode self; _options := _options self;
                 _schedule := _schedule self |} in
  mode ← attr "_mode" (_mode self);
  if bool_decide (mode ∈ ["tile"; "only_tile"]) && bool_decide (n < 3)
  then Ok (true, self)
  else Ok (false, self).

(** The pass [_soft_fuse] on the inspector. *)
Definition soft_fuse_pass (env : Env) (self : Inspector) : result Inspector :=
  loop_chain ← attr "_loop_chain" (_loop_chain self);
  handled ← _soft_fuse loop_chain;
  name ← attr "_name" (_name self);
  prev ← attr "_schedule" (_schedule self);
  let schedule := FusionSchedule name prev (handled.*1) (handled.*2) in
  Ok (set_schedule self schedule (Some (schedule_call env schedule loop_chain false))).

(** The pass [_hard_fuse] on the inspector. *)
Definition hard_fuse_pass (env : Env) (self : Inspector) : result Inspector :=
  loop_chain ← attr "_loop_chain" (_loop_chain self);
  found ← hard_fuse_search loop_chain;
  match found with
  | None => Ok self
  | Some fusible =>
      fused ← hard_kernels env loop_chain fusible;
      name ← attr "_name" (_name self);
      prev ← attr "_schedule" (_schedule self);
      let schedule := HardFusionSchedule name prev fused in
      Ok (set_schedule self schedule (Some (schedule_call env schedule loop_chain true)))
  end.

Definition halo_warning : string :=
  "Tiling through SLOPE requires deep halos in all PyOP2 sets.".

Definition has_deep_size (l : Loop) : bool :=
  bool_decide (is_Some (_deep_size (set_info (iterset (it_space l))))).

(** The test that opens [_tile]: SLOPE runs in an MPI mode and not all
    iteration sets of the chain have [_deep_size]. *)
Definition lacks_deep_halos (env : Env) (loop_chain : list Loop) : bool :=
  bool_decide (get_exec_mode env ∈ mpi_modes) && negb (forallb has_deep_size loop_chain).

(** The pass [_tile]; it returns the inspector and the warnings logged.  The
    optional report written when [log] is set does not touch the schedule
    and is left out. *)
Definition _tile (env : Env) (self : Inspector) : result (Inspector * list string) :=
  loop_chain ← attr "_loop_chain" (_loop_chain self);
  options ← attr "_options" (_options self);
  let tile_size := default 1%Z (tile_size options) in
  let extra_halo := default false (extra_halo options) in
  let coloring := default "default" (coloring options) in
  let use_prefetch := default 0%Z (use_prefetch options) in
  let rank := comm_rank env in
  if lacks_deep_halos env loop_chain
  then Ok (self, [halo_warning])
  else
    name ← attr "_name" (_name self);
    st ← register_chain (get_exec_mode env) (str_of_set env) extra_halo
           (mkTileState [] [] []) loop_chain;
    let partitionings :=
      omap (fun sv => match sv.2 with
                      | Some v => Some (slope_name sv.1, v)
                      | None => None
                      end) (insp_sets st) in
    '(inspection, executor) ←
      slope_inspect env
        {| in_name := name; in_sets := (insp_sets st).*1;
           in_maps := (insp_maps st).*2; in_loops := insp_loops st;
           in_tile_size := tile_size; in_rank := rank;
           in_partitionings := partitionings;
           in_coloring := coloring; in_prefetch := use_prefetch |};
    prev ← attr "_schedule" (_schedule self);
    let schedule := TilingSchedule name prev (kernel <$> loop_chain)
                                   inspection executor options in
    Ok (set_schedule self schedule None, []).

(** The passes of [inspect] once the heuristic lets the inspection run. *)
Definition run_passes (env : Env) (self : Inspector) : result (Inspector * list string) :=
  mode ← attr "_mode" (_mode self);
  if bool_decide (mode ∉ _modes)
  then Raise (RuntimeError "Inspection accepts only %s fusion modes")
  else
    self ← (if bool_decide (mode ∈ ["soft"; "hard"; "tile"])
            then soft_fuse_pass env self else Ok self);
    self ← (if bool_decide (mode ∈ ["hard"; "tile"])
            then hard_fuse_pass env self else Ok self);
    if bool_decide (mode ∈ ["tile"; "only_tile"; "only_omp"])
    then _tile env self
    else Ok (self, []).

(** What an inspection did: answered from the built schedule, skipped by the
    heuristic, or ran the passes. *)
Inductive Outcome : Type := FromCache | Skipped | Built.

(** [Inspector.inspect]: the schedule returned, the inspector afterwards,
    the warnings logged and what was done. *)
Definition inspect (env : Env) (self : Inspector)
  : result (Schedule * Inspector * list string * Outcome) :=
  if _initialized self
  then
    s ← attr "_schedule" (_schedule self);
    Ok (s, self, [], FromCache)
  else
    '(skip, self) ← _heuristic_skip_inspection self;
    if skip : bool
    then
      let self := del_build_state self in
      s ← attr "_schedule" (_schedule self);
      Ok (s, self, [], Skipped)
    else
      '(self, warnings) ← run_passes env self;
      let self := del_build_state
                    {| _initialized := true;
                       _ninsps := _ninsps self;
                       _name := _name self; _loop_chain := _loop_chain self;
                       _mode := _mode self; _options := _options self;
                       _schedule := _schedule self |} in
      s ← attr "_schedule" (_schedule self);
      Ok (s, self, warnings, Built).

(** Modelled from the spec: one inspection request for a fingerprint
    ([Cached.__new__] of [pyop2/caching.py] is not among the sources).  The
    object cached under the fingerprint is looked up, or made and stored on
    a miss; Python then calls [__init__] on it, and the caller calls
    [inspect]. *)
Definition request (env : Env) (slot : option Inspector) (name : string)
    (loop_chain : list Loop) (mode : string) (options : Options)
  : result (Schedule * Inspector * list string * Outcome) :=
  let obj := default new_inspector slot in
  inspect env (__init__ obj name loop_chain mode options).

(** ** Execution plan: [ParLoop._get_plan] and [ParLoop._compute] of [openmp.py] *)

(** The part of an iteration set a loop runs over. *)
Record Part : Type := mkPart {
  part_offset : nat;
  part_size : nat
}.

Record Plan : Type := mkPlan {
  nblocks : nat;
  ncolors : nat;
  ncolblk : list nat;
  blkmap : list nat;
  nelems : list nat;
  offset : list nat
}.

(** [int(math.ceil(part.size / float(partition_size)))] *)
Definition ceil_div (n d : nat) : nat := (n + d - 1) / d.

(** [FakePlan(part, partition_size)], the plan of a direct loop. *)
Definition FakePlan (part : Part) (partition_size : nat) : Plan :=
  let nblocks := ceil_div (part_size part) partition_size in
  {| nblocks := nblocks;
     ncolors := 1;
     ncolblk := [nblocks];
     blkmap := seq 0 nblocks;
     nelems := (fun i => partition_size `min` (part_size part - i * partition_size))
                 <$> seq 0 nblocks;
     offset := (fun i => part_offset part + i * partition_size) <$> seq 0 nblocks |}.

(** A location written through a map: the datum and the target index (row
    and column for a matrix). *)
Definition Loc : Type := (Data * list Z)%type.

Definition map_targets (m : Map) (e : nat) : list Z :=
  omap (fun k => values_with_halo (map_core m) !! (e * arity (map_core m) + k))
       (seq 0 (arity (map_core m))).

(** The locations element [e] writes through argument [a]: none unless the
    argument is indirect or a matrix and its access is INC or WRITE. *)
Definition elem_targets (a : Arg) (e : nat) : list Loc :=
  if bool_decide (access a ∈ [INC; WRITE])
  then
    match amap a with
    | NoMap => []
    | OneMap m => (fun t => (data a, [t])) <$> map_targets m e
    | TwoMaps r c =>
        r' ← map_targets r e; c' ← map_targets c e; [(data a, [r'; c'])]
    end
  else [].

(** The locations written by the block of [nelem] elements from [efirst]. *)
Definition block_targets (loop_args : list Arg) (efirst nelem : nat) : gset Loc :=
  list_to_set (e ← seq efirst nelem; a ← loop_args; elem_targets a e).

(** Modelled from the spec: the colouring of [_plan.Plan] ([pyop2/plan.pyx]
    is not among the sources).  "Assigns each block a color such that, for
    any two blocks sharing a color, no indirectly-addressed INC/WRITE target
    overlaps between them": blocks are taken in order and a block joins the
    first colour whose blocks so far write none of its targets, or opens a
    new colour.  A colour is kept as its blocks and the union of their
    targets. *)
Fixpoint place (b : nat) (T : gset Loc) (classes : list (list nat * gset Loc))
  : list (list nat * gset Loc) :=
  match classes with
  | [] => [([b], T)]
  | (bs, U) :: rest =>
      if decide (U ∩ T = ∅)
      then (bs ++ [b], U ∪ T) :: rest
      else (bs, U) :: place b T rest
  end.

Definition colour_classes (targets : list (gset Loc)) : list (list nat * gset Loc) :=
  foldl (fun classes bT => place bT.1 bT.2 classes) [] (imap pair targets).

(** Modelled from the spec: [_plan.Plan(part, *args, partition_size=...,
    matrix_coloring=True, ...)] ([pyop2/plan.pyx] is not among the sources).
    "Partition its iteration set into fixed-size contiguous blocks", as
    [FakePlan] does, and colour the blocks; [blkmap] lists the blocks colour
    by colour and [ncolblk] counts them. *)
Definition ColouredPlan (part : Part) (loop_args : list Arg) (partition_size : nat)
  : Plan :=
  let blocks := FakePlan part partition_size in
  let targets := (fun en => block_targets loop_args en.1 en.2)
                   <$> zip (offset blocks) (nelems blocks) in
  let classes := colour_classes targets in
  {| nblocks := nblocks blocks;
     ncolors := length classes;
     ncolblk := (fun c => length c.1) <$> classes;
     blkmap := concat (classes.*1);
     nelems := nelems blocks;
     offset := offset blocks |}.

(** Modelled from the spec: [ParLoop._is_indirect] ([pyop2/base.py] is not
    among the sources): the loop has an indirect or a matrix argument. *)
Definition loop_is_indirect (loop_args : list Arg) : bool :=
  existsb (fun a => _is_indirect a || _is_mat a) loop_args.

Definition _get_plan (loop_args : list Arg) (part : Part) (part_size : nat) : Plan :=
  if loop_is_indirect loop_args
  then ColouredPlan part loop_args part_size
  else FakePlan part part_size.

Definition index {A : Type} (l : list A) (i : nat) : result A :=
  match l !! i with
  | Some x => Ok x
  | None => Raise IndexError
  end.

(** The blocks one call of the wrapper runs concurrently:
    [bid = blkmap[__b]] for [__b] from [boffset] to [boffset + nblocks]. *)
Definition launch (plan : Plan) (boffset nblocks : nat) : result (list nat) :=
  mapM (index (blkmap plan)) (seq boffset nblocks).

(** The loop [for c in range(plan.ncolors)] of [_compute]: one call of the
    wrapper per colour. *)
Fixpoint launches (plan : Plan) (boffset : nat) (colours : list nat)
  : result (list (list nat)) :=
  match colours with
  | [] => Ok []
  | c :: colours' =>
      nblocks ← index (ncolblk plan) c;
      blocks ← launch plan boffset nblocks;
      rest ← launches plan (boffset + nblocks) colours';
      Ok (blocks :: rest)
  end.

(** [_compute]: the groups of blocks run concurrently, in order. *)
Definition _compute (loop_args : list Arg) (part : Part) : result (list (list nat)) :=
  if bool_decide (0 < part_size part)
  then
    let plan := _get_plan loop_args part 1024 in
    launches plan 0 (seq 0 (ncolors plan))
  else Ok [].

(** The locations block [bid] writes, from the ranges the wrapper reads in
    the plan: [efirst = offset[bid]], [nelem = nelems[bid]]. *)
Definition written (loop_args : list Arg) (plan : Plan) (bid : nat) : gset Loc :=
  match offset plan !! bid, nelems plan !! bid with
  | Some efirst, Some nelem => block_targets loop_args efirst nelem
  | _, _ => ∅
  end.

(** ** Vocabulary of the properties *)

(** A loop increments, writes or reads a datum through one of its
    arguments. *)
Definition increments (l : Loop) (d : Data) : Prop :=
  ∃ a, a ∈ args l ∧ access a = INC ∧ data a = d.

Definition writes_datum (l : Loop) (d : Data) : Prop :=
  ∃ a, a ∈ args l ∧ access a ∈ [WRITE; RW; MIN; MAX] ∧ data a = d.

Definition reads_datum (l : Loop) (d : Data) : Prop :=
  ∃ a, a ∈ args l ∧ access a ∈ [READ; RW] ∧ data a = d.

(** A run: every loop of the group passes the test of soft fusion against
    the loop before it. *)
Definition is_run (g : list Loop) : Prop :=
  ∀ i a b, g !! i = Some a → g !! S i = Some b → unfusible a b = false.

(** Between two consecutive groups the test fails: the first loop of a group
    cannot join the group before it. *)
Definition breaks_between (groups : list (list Loop)) : Prop :=
  ∀ k g1 g2, groups !! k = Some g1 → groups !! S k = Some g2 →
    ∃ a b, last g1 = Some a ∧ head g2 = Some b ∧ unfusible a b = true.

(** The fused kernels of a list of groups: the [k]-th group gives the kernel
    numbered [k], paired with the position in the chain where the group
    ends. *)
Fixpoint emit (k off : nat) (groups : list (list Loop))
  : result (list (FusedKernel * nat)) :=
  match groups with
  | [] => Ok []
  | g :: gs =>
      fused_kernel ← build_soft_fusion_kernel g k;
      rest ← emit (S k) (off + length g) gs;
      Ok ((fused_kernel, off + length g) :: rest)
  end.

(** The two loops increment no common datum. *)
Definition no_common_inc (base_loop loop : Loop) : Prop :=
  ∀ d, ¬ (increments base_loop d ∧ increments loop d).

(** The maps hard fusion may use for a pair: a map through which one of the
    two loops increments, or one of its factors. *)
Definition inc_map (base_loop loop : Loop) (m : Map) : Prop :=
  ∃ a m0, (a ∈ args base_loop ∨ a ∈ args loop) ∧ access a = INC
          ∧ amap a = OneMap m0
          ∧ (m = m0 ∨ ∃ fs c, factors m0 = Some fs ∧ c ∈ fs ∧ m = mkMap c None).

(** None of them goes from the iteration set of one loop to that of the
    other. *)
Definition no_connecting_map (base_loop loop : Loop) : Prop :=
  ∀ m, inc_map base_loop loop m →
    ¬ connects (iterset (it_space base_loop)) (iterset (it_space loop)) m
    ∧ ¬ connects (iterset (it_space loop)) (iterset (it_space base_loop)) m.

(** The fuse loop of an accepted tuple has no direct argument. *)
Definition no_direct (t : Fusible) : Prop :=
  existsb _is_direct (args t.1.1.2) = false.

(** Renaming as the design states it: every reference to a parameter of the
    kernel gets the suffix of the kernel. *)
Definition rename_sym (params : list string) (suffix : string) (s : string) : string :=
  if decide (s ∈ params) then s +:+ suffix else s.

Fixpoint rename_node (params : list string) (suffix : string) (n : Node) : Node :=
  match n with
  | Symbol s => Symbol (rename_sym params suffix s)
  | FlatBlock c => FlatBlock c
  | Stmt k cs => Stmt k (List.map (rename_node params suffix) cs)
  end.

Definition rename_param (params : list string) (suffix : string) (d : Decl) : Decl :=
  {| typ := typ d; sym := rename_sym params suffix (sym d); qual := qual d |}.

Definition rename_with (params : list string) (suffix : string) (f : FunDecl) : FunDecl :=
  {| fun_name := fun_name f;
     fun_args := rename_param params suffix <$> fun_args f;
     fun_body := rename_node params suffix <$> fun_body f |}.

Definition renamed (f : FunDecl) (unique_id : nat) : FunDecl :=
  rename_with (sym <$> fun_args f) ("_" +:+ pretty unique_id) f.

(** The name, signature and body of the kernel merged from [base] and the
    kernels [fuse], numbered from [unique_id], before duplicate parameters
    are eliminated. *)
Fixpoint merged_name (name : string) (fuse : list FunDecl) : string :=
  match fuse with
  | [] => name
  | f :: fuse' => merged_name (name +:+ "_" +:+ fun_name f) fuse'
  end.

Fixpoint merged_args (unique_id : nat) (fuse : list FunDecl) : list Decl :=
  match fuse with
  | [] => []
  | f :: fuse' => fun_args (renamed f unique_id) ++ merged_args (S unique_id) fuse'
  end.

Fixpoint merged_body (unique_id : nat) (fuse : list FunDecl) : list Node :=
  match fuse with
  | [] => []
  | f :: fuse' =>
      fused_marker :: fun_body (renamed f unique_id) ++ merged_body (S unique_id) fuse'
  end.

(** The parameters of a declaration have distinct names. *)
Definition distinct_params (f : FunDecl) : Prop := NoDup (sym <$> fun_args f).

(** [bound loop_args kernel_args d p]: parameter [p] stands for datum [d],
    the two being at the same position of the signature and of the arguments
    of the loops. *)
Definition bound (loop_args : list Arg) (kernel_args : list Decl) (d : Data) (p : Decl)
  : Prop :=
  (d, p) ∈ zip (data <$> loop_args) kernel_args.

(** A colour is sound for the targets [tg] of the blocks: it covers the
    targets of each of its blocks and no two of its blocks share a target. *)
Definition colour_ok (tg : nat → gset Loc) (c : list nat * gset Loc) : Prop :=
  (∀ b, b ∈ c.1 → tg b ⊆ c.2)
  ∧ ∀ i j b1 b2, i ≠ j → c.1 !! i = Some b1 → c.1 !! j = Some b2 → tg b1 ∩ tg b2 = ∅.

(** ** Sample loops *)

Definition sizes (name : string) (n : Z) : SetInfo := mkSetInfo name n n n None None.

Definition cells : OpSet := PlainSet (sizes "cells" 4).
Definition nodes : OpSet := PlainSet (sizes "nodes" 5).

Definition cell2node : Map :=
  mkMap (mkMapCore "cell2node" cells nodes 2 [0; 1; 1; 2; 2; 3; 3; 4]%Z) None.

Definition over (s : OpSet) : ItSpace := mkItSpace s [].

Definition param (name : string) : Decl := mkDecl "double*" name [].

Definition code (name : string) (params : list string) (body : list Node) : Kernel :=
  mkKernel name None (mkFunDecl name (param <$> params) body) (mkFunDecl name [] []).

Definition assign (lhs rhs : string) : Node := Stmt "Assign" [Symbol lhs; Symbol rhs].
Definition incr (lhs rhs : string) : Node := Stmt "Incr" [Symbol lhs; Symbol rhs].

(** A: over cells, direct READ of x, direct WRITE of y. *)
Definition loopA : Loop :=
  mkLoop (code "A" ["a"; "b"] [assign "b" "a"]) (over cells)
         [mkArg "x" READ NoMap; mkArg "y" WRITE NoMap].

(** B: over cells, direct READ of y, direct INC into z. *)
Definition loopB : Loop :=
  mkLoop (code "B" ["a"; "b"] [incr "b" "a"]) (over cells)
         [mkArg "y" READ NoMap; mkArg "z" INC NoMap].

(** C: over nodes, direct READ of y, direct WRITE of x. *)
Definition loopC : Loop :=
  mkLoop (code "C" ["a"; "b"] [assign "b" "a"]) (over nodes)
         [mkArg "y" READ NoMap; mkArg "x" WRITE NoMap].

(** P: over cells, INC into f through cell2node. *)
Definition loopP : Loop :=
  mkLoop (code "P" ["f"] [incr "f" "1"]) (over cells)
         [mkArg "f" INC (OneMap cell2node)].

(** Q: over nodes, WRITE of g through a map of its own (no datum shared
    with P). *)
Definition node2node : Map :=
  mkMap (mkMapCore "node2node" nodes nodes 1 [0; 1; 2; 3; 4]%Z) None.

Definition loopQ : Loop :=
  mkLoop (code "Q" ["g"] [assign "g" "0"]) (over nodes)
         [mkArg "g" WRITE (OneMap node2node)].

(** T: over cells, INC into f through a map from cells to cells. *)
Definition cell2cell : Map :=
  mkMap (mkMapCore "cell2cell" cells cells 1 [1; 2; 3; 0]%Z) None.

Definition loopT : Loop :=
  mkLoop (code "T" ["f"] [incr "f" "3"]) (over cells)
         [mkArg "f" INC (OneMap cell2cell)].

(** R: over nodes, INC into f through node2node. *)
Definition loopR : Loop :=
  mkLoop (code "R" ["f"] [incr "f" "2"]) (over nodes)
         [mkArg "f" INC (OneMap node2node)].


(** The names of the kernels of each emitted group, with its offset. *)
Definition group_names (r : result (list (FusedKernel * nat)))
  : option (list (list string * nat)) :=
  match r with
  | Ok hs => Some ((λ h : FusedKernel * nat,
                      (kernel_name <$> fused_kernels h.1, h.2)) <$> hs)
  | Raise _ => None
  end.

(** The passes a tiling mode runs once the heuristic lets the inspection
    through: fusion first under [tile], then [_tile]. *)
Definition tiling_passes (env : Env) (mode : string) (self : Inspector)
  : result (Inspector * list string) :=
  if bool_decide (mode = "tile")
  then
    self ← soft_fuse_pass env self;
    self ← hard_fuse_pass env self;
    _tile env self
  else _tile env self.

(** The inspector as [__init__] leaves it on an object that was asked [n]
    times before. *)
Definition pending (n : option nat) (name : string) (loop_chain : list Loop)
    (mode : string) (options : Options) : Inspector :=
  {| _initialized := false; _ninsps := n;
     _name := Some name; _loop_chain := Some loop_chain; _mode := Some mode;
     _options := Some options;
     _schedule := Some (PlainSchedule name (kernel <$> loop_chain)) |}.

(** The inspector after a request that the heuristic skipped. *)
Definition skipped (n : nat) (name : string) (loop_chain : list Loop) : Inspector :=
  {| _initialized := false; _ninsps := Some n;
     _name := None; _loop_chain := None; _mode := None; _options := None;
     _schedule := Some (PlainSchedule name (kernel <$> loop_chain)) |}.

(** The value [_heuristic_skip_inspection] gives the counter. *)
Definition next_count (n : option nat) : nat :=
  match n with Some n => n + 1 | None => 1 end.

(** ** Sample collaborators *)

Definition no_options : Options := mkOptions None None None None None.

(** Stand-ins for the schedules and for SLOPE: the chain is replayed as it
    is, no orchestrator is built, SLOPE answers with two handles. *)
Definition sample_env (exec_mode : string) : Env :=
  {| schedule_call := λ _ loop_chain _, loop_chain;
     hard_kernels := λ _ _, Ok [];
     get_exec_mode := exec_mode;
     comm_rank := 0;
     str_of_set := λ s, set_name (set_info s);
     slope_inspect := λ _, Ok (1%Z, 2%Z) |}.

(** A loop over the subset of cells 0 and 2. *)
Definition some_cells : OpSet := Subset cells [0; 2]%Z (sizes "cells" 2).

Definition loopS : Loop :=
  mkLoop (code "S" ["a"] [assign "a" "0"]) (over some_cells) [mkArg "x" WRITE NoMap].

(** A loop over 2048 elements that increments f through a map sending the
    first 1024 elements to 0 and the others to 1: two blocks of 1024
    elements, writing apart. *)
Definition wide : OpSet := PlainSet (sizes "wide" 2048).

Definition halves_map : Map :=
  mkMap (mkMapCore "halves" wide wide 1 (replicate 1024 0%Z ++ replicate 1024 1%Z)) None.

Definition scatter_args : list Arg := [mkArg "f" INC (OneMap halves_map)].

(** The same loop through a map that sends every element to 0: the two
    blocks collide. *)
Definition constant_map : Map :=
  mkMap (mkMapCore "constant" wide wide 1 (replicate 2048 0%Z)) None.

Definition collide_args : list Arg := [mkArg "f" INC (OneMap constant_map)].

Definition all_wide : Part := mkPart 0 2048.

(** * Further properties of the code

    ** Vocabulary *)

(** A loop accesses a datum, in whatever mode. *)
Definition touches (l : Loop) (d : Data) : Prop := ∃ a, a ∈ args l ∧ data a = d.

(** The loop with one more argument. *)
Definition add_arg (l : Loop) (a : Arg) : Loop :=
  mkLoop (kernel l) (it_space l) (args l ++ [a]).

(** No argument of the loop goes through a single map. *)
Definition no_indirect_arg (l : Loop) : Prop := ∀ a, a ∈ args l → _is_indirect a = false.

(** The positions where the groups of sizes [ns] end, counting from [off]. *)
Fixpoint running (off : nat) (ns : list nat) : list nat :=
  match ns with
  | [] => []
  | n :: ns' => (off + n) :: running (off + n) ns'
  end.

(** ** Hard fusion: the offsets computed by [build_hard_fusion_kernel]

    For an indirect argument of the fuse loop the orchestrator computes, for
    the sub-iteration [idx], the positions of the buffer of the base kernel
    that the fuse kernel works on.  [flatten] joins a list of lists. *)

(** [ofs_vals], after [ofs_vals = list(flatten(ofs_vals))]. *)
Definition ofs_vals (fuse_arity fusion_arity cdim : nat) : list nat :=
  let base_arity := fuse_arity * fusion_arity in
  let ofs_vals := (λ j, (λ k, base_arity * j + k) <$> seq 0 fuse_arity) <$> seq 0 cdim in
  let ofs_vals := (λ j, (λ k, fuse_arity * j + k) <$> concat ofs_vals)
                    <$> seq 0 fusion_arity in
  concat ofs_vals.

(** [indices = [ofs_vals[idx*size + j] for j in range(size)]] *)
Definition staging_indices (fuse_arity fusion_arity cdim idx : nat) : result (list nat) :=
  let size := fuse_arity * cdim in
  mapM (λ j, index (ofs_vals fuse_arity fusion_arity cdim) (idx * size + j)) (seq 0 size).

(** ** Elements visited by the wrapper of [openmp.py] *)



(** ** What [_tile] registers for SLOPE *)

(** [isinstance(op2set, Subset)] *)
Definition is_subset (s : OpSet) : bool :=
  match s with Subset _ _ _ => true | _ => false end.

(** The set of a loop that [_tile] converts first: [iterset.subset] when the
    iteration set has one. *)
Definition tiled_iterset (l : Loop) : OpSet :=
  match iterset (it_space l) with SubsetView s _ => s | _ => iterset (it_space l) end.

(** The sets that [_tile] passes to [create_slope_set], in the order of the
    calls: for the maps of one argument, for the arguments of a loop, for a
    loop and for a chain. *)
Definition map_sets (maps : list Map) : list OpSet :=
  m ← maps; [map_iterset (map_core m); map_toset (map_core m)].

Definition args_sets (loop_args : list Arg) : list OpSet :=
  a ← loop_args; map_sets (as_tuple (amap a)).

Definition loop_sets (l : Loop) : list OpSet :=
  tiled_iterset l :: args_sets (args l).

Definition chain_sets (loop_chain : list Loop) : list OpSet :=
  l ← loop_chain; loop_sets l.

(** A set of this name is among the keys of [insp_sets]. *)
Definition declared (sets : InspSets) (n : string) : Prop :=
  ∃ ss, ss ∈ sets.*1 ∧ slope_name ss = n.

(** Every map of [insp_maps] goes from a declared set to a declared set. *)
Definition maps_ok (sets : InspSets) (imaps : InspMaps) : Prop :=
  ∀ key n it to v, (key, (n, it, to, v)) ∈ imaps → declared sets it ∧ declared sets to.

(** Every loop of [insp_loops] iterates over a declared set. *)
Definition loops_ok (sets : InspSets) (loops : list SlopeLoop) : Prop :=
  ∀ k n d, (k, n, d) ∈ loops → declared sets n.

Definition well_formed (st : TileState) : Prop :=
  NoDup (insp_sets st).*1 ∧ NoDup (insp_maps st).*1
  ∧ maps_ok (insp_sets st) (insp_maps st)
  ∧ loops_ok (insp_sets st) (insp_loops st).

(** ** Reduction buffers of [openmp.py] *)

(** The module constant [_padding]. *)
Definition _padding : nat := 8.

(** [Arg.padding]: the length of one thread's row of the buffer
    [name_l[_max_threads][padding]] that [c_reduction_dec] declares and
    [c_reduction_init] fills.  [cdim] is [self.data.cdim] and [itemsize] is
    [self.data.dtype.itemsize].  The module is Python 2 (it imports its
    siblings as [from base import ...] and has no [from __future__ import
    division]), so [/] on integers is floor division; [int] of an integer is
    that integer.  A dtype has a positive item size. *)
Definition padding (cdim itemsize : nat) : nat :=
  (_padding * (cdim / _padding + 1)) * (_padding / itemsize).

(** ** The vector of pointers of an indirect argument in [openmp.py]:
    [c_vec_dec], [c_vec_init] and [c_add_offset] *)

(** What the three functions read of a map: its arity, its array [offset]
    and whether its iteration set is extruded.  A map that has no [offset]
    is given the empty list: reading an entry of it raises (a [TypeError] in
    Python, [IndexError] here). *)
Record VecMap : Type := mkVecMap {
  vm_arity : nat;
  vm_offset : list Z;
  vm_extruded : bool
}.

(** One statement [<vec>[slot] = c_ind_data(idx, i, j, is_top=..., offset=...)]
    of [c_vec_init]. *)
Record VecInit : Type := mkVecInit {
  vi_slot : nat;
  vi_idx : nat;
  vi_i : nat;
  vi_j : nat;
  vi_top : bool;
  vi_offset : option Z
}.

(** One statement [<vec>[slot] += offset * dim;] of [c_add_offset]. *)
Record VecAdd : Type := mkVecAdd {
  va_slot : nat;
  va_offset : Z;
  va_dim : nat
}.

(** A [for] loop whose body updates the state and may raise. *)
Fixpoint for_each {A S : Type} (body : S → A → result S) (l : list A) (s : S)
  : result S :=
  match l with
  | [] => Ok s
  | x :: l' => s' ← body s x; for_each body l' s'
  end.

(** The loop [for idx in range(m.arity)] of [c_vec_init], on the state
    [(val, vec_idx)]; [with_offset] tells whether [m.offset[idx]] is read. *)
Definition init_nodes (m : VecMap) (i j : nat) (is_top with_offset : bool)
  : list VecInit * nat → result (list VecInit * nat) :=
  for_each (λ '(val, vec_idx) idx,
              offset ← (if with_offset : bool
                        then o ← index (vm_offset m) idx; Ok (Some o)
                        else Ok None);
              Ok (val ++ [mkVecInit vec_idx idx i j is_top offset], S vec_idx))
           (seq 0 (vm_arity m)).

(** The loop over the nodes, and the second one under [is_facet]. *)
Definition init_block (m : VecMap) (i j : nat) (is_top is_facet : bool)
    (st : list VecInit * nat) : result (list VecInit * nat) :=
  st ← init_nodes m i j is_top is_top st;
  if is_facet then init_nodes m i j is_top true st else Ok st.

(** [Arg.c_vec_init(is_top, is_facet)]: the statements in order (the code
    joins them with [";\n"]).  [maps_data] is [zip(self.map, self.data)],
    each datum by its [cdim]. *)
Definition c_vec_init (flatten : bool) (maps_data : list (VecMap * nat))
    (is_top is_facet : bool) : result (list VecInit) :=
  let is_top_init := is_top in
  '(val, _) ←
    for_each (λ st '(i, (m, cdim)),
                let is_top := is_top_init && vm_extruded m in
                if flatten
                then for_each (λ st k, init_block m i k is_top is_facet st)
                              (seq 0 cdim) st
                else init_block m i 0 is_top is_facet st)
             (zip (seq 0 (length maps_data)) maps_data) ([], 0);
  Ok val.

(** The loop [for idx in range(m.arity)] of [c_add_offset]. *)
Definition add_nodes (m : VecMap) (cdim : nat)
  : list VecAdd * nat → result (list VecAdd * nat) :=
  for_each (λ '(val, vec_idx) idx,
              o ← index (vm_offset m) idx;
              Ok (val ++ [mkVecAdd vec_idx o cdim], S vec_idx))
           (seq 0 (vm_arity m)).

Definition add_block (m : VecMap) (cdim : nat) (is_facet : bool)
    (st : list VecAdd * nat) : result (list VecAdd * nat) :=
  st ← add_nodes m cdim st;
  if is_facet then add_nodes m cdim st else Ok st.

(** [Arg.c_add_offset(is_facet)]: the statements in order; none when the
    iteration set of the map is not extruded. *)
Definition c_add_offset (flatten iterset_extruded : bool)
    (maps_data : list (VecMap * nat)) (is_facet : bool) : result (list VecAdd) :=
  if negb iterset_extruded
  then Ok []
  else
    '(val, _) ←
      for_each (λ st '(i, (m, cdim)),
                  for_each (λ st k, add_block m cdim is_facet st)
                           (seq 0 (if flatten then cdim else 1)) st)
               (zip (seq 0 (length maps_data)) maps_data) ([], 0);
    Ok val.

(** The length of the vector that [c_vec_dec] declares:
    [self.map.arity * cdim * (2 if is_facet else 1)] with
    [cdim = self.data.dataset.cdim if self._flatten else 1]. *)
Definition c_vec_dec_size (flatten : bool) (map_arity cdim : nat) (is_facet : bool)
  : nat :=
  let cdim := if flatten then cdim else 1 in
  map_arity * cdim * (if is_facet then 2 else 1).

(** A statement of [c_add_offset] advances the slot that a statement of
    [c_vec_init] set, by the offset of the node it was set from, times the
    [cdim] of the datum. *)
Definition agree (maps_data : list (VecMap * nat)) (init : VecInit) (add : VecAdd)
  : Prop :=
  va_slot add = vi_slot init
  ∧ ∃ m, maps_data !! vi_i init = Some (m, va_dim add)
         ∧ vm_offset m !! vi_idx init = Some (va_offset add).

(** Two loop bodies that both append [len] statements, numbered from the
    counter on, and related one to one. *)
Definition emits (R : VecInit → VecAdd → Prop)
    (f : list VecInit * nat → result (list VecInit * nat))
    (g : list VecAdd * nat → result (list VecAdd * nat)) (len : nat) : Prop :=
  ∀ val val' n,
    ∃ new new',
      f (val, n) = Ok (val ++ new, n + len)
      ∧ g (val', n) = Ok (val' ++ new', n + len)
      ∧ length new = len
      ∧ vi_slot <$> new = seq n len
      ∧ Forall2 R new new'.

(** ** Layers of an extruded set: [ParLoop.prepare_arglist] and the
    extrusion loop of the wrapper *)







(** ** The copies of the maps for an extruded set in [openmp.py]:
    [c_map_decl] and [c_map_init] *)

(** The term that [is_top] adds to the right-hand side: nothing,
    [" + start_layer * <offset>"] or [" + start_layer"]. *)
Inductive TopTerm : Type := NoTop | TopScaled (offset : Z) | TopPlain.

(** One statement [xtr_<map i j>[ind] = ...] of [c_map_init]: the entry
    written, the entry of the row of the map that is read, the factor
    [dat_dim] and the component [k] of the flattened form, the term for
    [is_top] and the offset added on a facet. *)
Record MapInit : Type := mkMapInit {
  mi_i : nat;
  mi_j : nat;
  mi_ind : nat;
  mi_node : nat;
  mi_dat_dim : option nat;
  mi_comp : nat;
  mi_top : TopTerm;
  mi_off : option Z
}.

(** [enumerate(l)] *)
Definition enumerate {A : Type} (l : list A) : list (nat * A) :=
  zip (seq 0 (length l)) l.

(** The length [dim] of the array that [c_map_decl] declares for one map. *)
Definition map_dim (is_dat flatten is_facet : bool) (m : VecMap) (cdim : nat) : nat :=
  let dim := vm_arity m in
  let dim := if is_dat && flatten then dim * cdim else dim in
  if is_facet then dim * 2 else dim.

(** [Arg.c_map_decl(is_facet)]: the arrays declared, each by the indices
    [i], [j] of its name and its length.  [maps] lists, for each map of the
    argument paired with its data set, the component maps paired with the
    [cdim] of the component data sets. *)
Definition c_map_decl (is_dat flatten is_facet : bool)
    (maps : list (list (VecMap * nat))) : list (nat * nat * nat) :=
  concat ((λ '(i, row),
             (λ '(j, (m, cdim)), (i, j, map_dim is_dat flatten is_facet m cdim))
               <$> enumerate row)
            <$> enumerate maps).

(** The statements of [c_map_init] for one map: the loop over the nodes and,
    under [is_facet], the second one. *)
Definition map_init_array (is_dat flatten is_top is_facet : bool) (i j : nat)
    (m : VecMap) (cdim : nat) : result (list MapInit) :=
  let flat := is_dat && flatten && bool_decide (1 < cdim) in
  first ←
    mapM (λ idx,
            if flat
            then mapM (λ k,
                         top ← (if is_top
                                then o ← index (vm_offset m) idx; Ok (TopScaled o)
                                else Ok NoTop);
                         Ok (mkMapInit i j
                               ((if is_facet then 2 else 1) * vm_arity m * k + idx)
                               idx (Some cdim) k top None))
                      (seq 0 cdim)
            else top ← (if is_top
                        then o ← index (vm_offset m) idx; Ok (TopScaled o)
                        else Ok NoTop);
                 Ok [mkMapInit i j idx idx None 0 top None])
         (seq 0 (vm_arity m));
  second ←
    (if is_facet
     then mapM (λ idx,
                  if flat
                  then mapM (λ k,
                               o ← index (vm_offset m) idx;
                               Ok (mkMapInit i j (vm_arity m * (k * 2 + 1) + idx)
                                     idx (Some cdim) k NoTop (Some o)))
                            (seq 0 cdim)
                  else o ← index (vm_offset m) idx;
                       Ok [mkMapInit i j (idx + vm_arity m) idx None 0
                             (if is_top then TopPlain else NoTop) (Some o)])
               (seq 0 (vm_arity m))
     else Ok []);
  Ok (concat first ++ concat second).

(** [Arg.c_map_init(is_top, is_facet)]: the statements in order (the code
    joins them with newlines). *)
Definition c_map_init (is_dat flatten is_top is_facet : bool)
    (maps : list (list (VecMap * nat))) : result (list MapInit) :=
  rows ← mapM (λ '(i, row),
                 arrays ← mapM (λ '(j, (m, cdim)),
                                  map_init_array is_dat flatten is_top is_facet i j m cdim)
                               (enumerate row);
                 Ok (concat arrays))
              (enumerate maps);
  Ok (concat rows).
(** ** The dependency analyser *)

Lemma elem_of_data_set (l : list Arg) (d : Data) :
  d ∈ data_set l ↔ ∃ a, a ∈ l ∧ data a = d.
Proof.
  unfold data_set. rewrite elem_of_list_to_set, list_elem_of_fmap.
  split; intros (a & H1 & H2); exists a; split; auto.
Qed.

Lemma elem_of_all_incs (l : Loop) (d : Data) : d ∈ all_incs l ↔ increments l d.
Proof.
  unfold all_incs, incs, increments. rewrite elem_of_data_set.
  split; intros (a & H1 & H2); exists a.
  - rewrite elem_of_remove_dups, list_elem_of_filter in H1.
    destruct H1 as [Hacc Hin]. apply list_elem_of_singleton in Hacc. auto.
  - destruct H2 as [Hacc Hd]. split; [|done].
    rewrite elem_of_remove_dups, list_elem_of_filter. split; [|done].
    rewrite Hacc. apply list_elem_of_singleton. done.
Qed.

Lemma elem_of_all_writes (l : Loop) (d : Data) : d ∈ all_writes l ↔ writes_datum l d.
Proof.
  unfold all_writes, writes, writes_datum. rewrite elem_of_data_set.
  split; intros (a & H1 & H2); exists a.
  - rewrite elem_of_remove_dups, list_elem_of_filter in H1.
    destruct H1 as [Hacc Hin]. split; [done|]. split; [|done].
    revert Hacc. rewrite !elem_of_cons, !elem_of_nil. tauto.
  - destruct H2 as [Hacc Hd]. split; [|done].
    rewrite elem_of_remove_dups, list_elem_of_filter. split; [|done].
    revert Hacc. rewrite !elem_of_cons, !elem_of_nil. tauto.
Qed.

Lemma elem_of_all_reads (l : Loop) (d : Data) : d ∈ all_reads l ↔ reads_datum l d.
Proof.
  unfold all_reads, reads, reads_datum. rewrite elem_of_data_set.
  split; intros (a & H1 & H2); exists a.
  - rewrite elem_of_remove_dups, list_elem_of_filter in H1. tauto.
  - destruct H2 as [Hacc Hd]. split; [|done].
    rewrite elem_of_remove_dups, list_elem_of_filter. done.
Qed.

Lemma meet_true (x y : gset Data) : meet x y = true ↔ ∃ d, d ∈ x ∧ d ∈ y.
Proof.
  unfold meet. rewrite bool_decide_eq_true. split.
  - intros H. apply set_choose_L in H as [d Hd]. exists d. set_solver.
  - intros (d & H1 & H2). set_solver.
Qed.

Lemma apart_true (x y : gset Data) : apart x y = true ↔ ∀ d, ¬ (d ∈ x ∧ d ∈ y).
Proof.
  unfold apart. rewrite bool_decide_eq_true. set_solver.
Qed.

(** C1. For every ordered pair of loops, [loops_analyzer] reports
    [pure_iai] exactly when the two loops increment a common datum and no
    datum written (WRITE, RW, MIN, MAX) by one of them is read (READ, RW) by
    the other, in either direction, over all their arguments. *)
Theorem pure_iai_iff (loop1 loop2 : Loop) :
  pure_iai (loops_analyzer loop1 loop2) = true
  ↔ (∃ d, increments loop1 d ∧ increments loop2 d)
    ∧ (∀ d, ¬ (writes_datum loop1 d ∧ reads_datum loop2 d))
    ∧ (∀ d, ¬ (writes_datum loop2 d ∧ reads_datum loop1 d)).
Proof.
  cbn [loops_analyzer pure_iai].
  rewrite !andb_true_iff, meet_true, !apart_true.
  setoid_rewrite elem_of_all_incs.
  setoid_rewrite elem_of_all_writes.
  setoid_rewrite elem_of_all_reads.
  split.
  - intros [[[Hinc Hraw] Hwar] _]. split; [done|]. split; [done|].
    intros d [Hw Hr]. apply (Hwar d). done.
  - intros (Hinc & Hraw & Hwar). repeat split; try done.
    intros d [Hr Hw]. apply (Hwar d). done.
Qed.

Example pure_iai_P_R : pure_iai (loops_analyzer loopP loopR) = true.
Proof. vm_compute. reflexivity. Qed.

Example pure_iai_A_B : pure_iai (loops_analyzer loopA loopB) = false.
Proof. vm_compute. reflexivity. Qed.

(** C10. When the analyser reports a pair heterogeneous, the four direct
    hazard flags are all false, whatever the directly accessed data. *)
Theorem heterogeneous_no_direct (loop1 loop2 : Loop) :
  heterogeneous (loops_analyzer loop1 loop2) = true →
  direct_raw (loops_analyzer loop1 loop2) = false
  ∧ direct_war (loops_analyzer loop1 loop2) = false
  ∧ direct_waw (loops_analyzer loop1 loop2) = false
  ∧ direct_w (loops_analyzer loop1 loop2) = false.
Proof.
  cbn [loops_analyzer heterogeneous direct_raw direct_war direct_waw direct_w].
  intros Hhet. apply negb_true_iff in Hhet. rewrite Hhet. done.
Qed.

(** A and C run over different sets and overlap on the directly accessed
    data x and y. *)
Lemma heterogeneous_no_direct_witness :
  heterogeneous (loops_analyzer loopA loopC) = true
  ∧ meet (dir_inc_writes loopA) (dir_reads loopC) = true
  ∧ direct_raw (loops_analyzer loopA loopC) = false
  ∧ direct_war (loops_analyzer loopA loopC) = false
  ∧ direct_waw (loops_analyzer loopA loopC) = false
  ∧ direct_w (loops_analyzer loopA loopC) = false.
Proof.
  split; [vm_compute; reflexivity|].
  split; [vm_compute; reflexivity|].
  apply (heterogeneous_no_direct loopA loopC). vm_compute. reflexivity.
Defined.

(** ** Soft fusion: the groups *)

Lemma build_soft_fusion_kernel_cons (l : Loop) (ls : list Loop) (k : nat) :
  ∃ fk, build_soft_fusion_kernel (l :: ls) k = Ok fk.
Proof. unfold build_soft_fusion_kernel. cbn. eauto. Qed.

Lemma emit_cons (k off : nat) (g : list Loop) (gs : list (list Loop)) :
  emit k off (g :: gs)
  = (build_soft_fusion_kernel g k ≫= λ fused_kernel,
     emit (S k) (off + length g) gs ≫= λ rest,
     Ok ((fused_kernel, off + length g) :: rest)).
Proof. reflexivity. Qed.

Lemma is_run_singleton (l : Loop) : is_run [l].
Proof. intros [|i] a b Ha Hb; cbn in *; done. Qed.

Lemma is_run_snoc (g : list Loop) (a b : Loop) :
  is_run g → last g = Some a → unfusible a b = false → is_run (g ++ [b]).
Proof.
  intros Hrun Hlast Hab i x y Hx Hy.
  destruct (decide (S i < length g)) as [Hlt|Hge].
  - rewrite lookup_app_l in Hx by lia. rewrite lookup_app_l in Hy by lia. eauto.
  - assert (S i = length g) as Hi.
    { apply lookup_lt_Some in Hy. rewrite length_app in Hy. cbn in Hy. lia. }
    rewrite lookup_app_l in Hx by lia.
    rewrite lookup_app_r in Hy by lia.
    replace (S i - length g) with 0 in Hy by lia. cbn in Hy.
    rewrite last_lookup in Hlast.
    replace (pred (length g)) with i in Hlast by lia.
    congruence.
Qed.

Lemma breaks_between_cons (g g' : list Loop) (gs : list (list Loop)) (a b : Loop) :
  last g = Some a → head g' = Some b → unfusible a b = true →
  breaks_between (g' :: gs) → breaks_between (g :: g' :: gs).
Proof.
  intros Ha Hb Hab Hrest [|k] g1 g2 H1 H2; cbn in *.
  - exists a, b. naive_solver.
  - eauto.
Qed.

(** The scan, from any state it can be in: [fusing] is a non-empty run and
    [off] loops lie before it. *)
Lemma soft_fuse_scan_groups (rest : list Loop) :
  ∀ handled fusing i off,
    fusing ≠ [] → is_run fusing → i + 1 = off + length fusing →
    ∃ t gs,
      concat ((fusing ++ t) :: gs) = fusing ++ rest
      ∧ Forall (λ g, g ≠ []) gs
      ∧ Forall is_run ((fusing ++ t) :: gs)
      ∧ breaks_between ((fusing ++ t) :: gs)
      ∧ (soft_fuse_scan handled fusing i rest
           ≫= soft_fuse_flush (off + length fusing + length rest))
        = (emit (length handled) off ((fusing ++ t) :: gs)
             ≫= λ hs, Ok (handled ++ hs)).
Proof.
  induction rest as [|loop rest IH]; intros handled fusing i off Hne Hrun Hi.
  - exists [], []. rewrite !app_nil_r. cbn [concat]. rewrite app_nil_r.
    repeat split; [constructor|by repeat constructor| |].
    + intros k g1 g2 H1 H2. destruct k; done.
    + cbn. unfold soft_fuse_flush. cbn.
      destruct fusing as [|f fs]; [done|].
      destruct (build_soft_fusion_kernel_cons f fs (length handled)) as [fk ->].
      cbn. by rewrite Nat.add_0_r.
  - cbn [soft_fuse_scan].
    destruct (last fusing) as [base|] eqn:Hlast;
      [|by apply last_None in Hlast].
    destruct (unfusible base loop) eqn:Hunf.
    + destruct fusing as [|f fs]; [done|].
      destruct (build_soft_fusion_kernel_cons f fs (length handled)) as [fk Hfk].
      rewrite Hfk. cbn [mbind result_bind].
      destruct (IH (handled ++ [(fk, i + 1)]) [loop] (S i) (i + 1))
        as (t & gs & Hcat & Hnes & Hruns & Hbr & Heq);
        [done|apply is_run_singleton|cbn; lia|].
      exists [], ((loop :: t) :: gs). rewrite app_nil_r.
      cbn [app] in Hcat, Hruns, Hbr, Heq.
      split; [cbn [concat]; f_equal; exact Hcat|].
      split; [by constructor|].
      split; [by constructor|].
      split; [by eapply breaks_between_cons|].
      rewrite emit_cons, Hfk. cbn [mbind result_bind].
      cbn [length] in Heq.
      replace (off + length (f :: fs) + length (loop :: rest))
        with (i + 1 + 1 + length rest) by (cbn [length] in *; lia).
      rewrite Heq. rewrite length_app. cbn [length].
      replace (length handled + 1) with (S (length handled)) by lia.
      cbn [length] in Hi. rewrite <- Hi.
      generalize (emit (S (length handled)) (i + 1) ((loop :: t) :: gs)).
      intros [hs|e]; cbn [mbind result_bind]; [|done].
      by rewrite <- app_assoc.
    + destruct (IH handled (fusing ++ [loop]) (S i) off)
        as (t & gs & Hcat & Hnes & Hruns & Hbr & Heq);
        [by destruct fusing|by eapply is_run_snoc
        |rewrite length_app; cbn; lia|].
      exists (loop :: t), gs.
      replace (fusing ++ loop :: t) with ((fusing ++ [loop]) ++ t)
        by by rewrite <- app_assoc.
      split; [by rewrite Hcat, <- app_assoc|].
      repeat split; try done.
      rewrite <- Heq. rewrite length_app. cbn [length].
      f_equal. f_equal. lia.
Qed.

(** C3. Soft fusion cuts the chain into groups: each group is a non-empty
    contiguous run in which every loop passed the test (neither
    heterogeneous nor indirect_w) against the loop before it, the test fails
    between the last loop of a group and the first of the next, and the
    kernels emitted are those of these groups in order, singletons included,
    the last group being flushed at the end of the chain. *)
Theorem soft_fuse_maximal_runs (first : Loop) (rest : list Loop) :
  ∃ groups handled,
    concat groups = first :: rest
    ∧ Forall (λ g, g ≠ []) groups
    ∧ Forall is_run groups
    ∧ breaks_between groups
    ∧ emit 0 0 groups = Ok handled
    ∧ _soft_fuse (first :: rest) = Ok handled
    ∧ length handled = length groups.
Proof.
  destruct (soft_fuse_scan_groups rest [] [first] 0 0)
    as (t & gs & Hcat & Hnes & Hruns & Hbr & Heq);
    [done|apply is_run_singleton|done|].
  change ([first] ++ t) with (first :: t) in *.
  assert (∀ gs k off, Forall (λ g : list Loop, g ≠ []) gs →
            ∃ hs, emit k off gs = Ok hs ∧ length hs = length gs) as Hemit.
  { clear. induction gs as [|g gs IH]; intros k off Hne; [by exists []|].
    inversion Hne as [|? ? Hg Hgs]; subst.
    destruct g as [|l ls]; [done|].
    destruct (build_soft_fusion_kernel_cons l ls k) as [fk Hfk].
    destruct (IH (S k) (off + length (l :: ls)) Hgs) as (hs & Hhs & Hlen).
    exists ((fk, off + length (l :: ls)) :: hs).
    rewrite emit_cons, Hfk. cbn [mbind result_bind]. rewrite Hhs. cbn.
    by rewrite Hlen. }
  destruct (Hemit ((first :: t) :: gs) 0 0) as (hs & Hhs & Hlen);
    [by constructor|].
  exists ((first :: t) :: gs), hs.
  repeat split; try done; [by constructor|].
  transitivity (soft_fuse_scan [] [first] 0 rest
                  ≫= soft_fuse_flush (0 + length [first] + length rest));
    [reflexivity|].
  rewrite Heq. change (length []) with 0. rewrite Hhs. done.
Qed.

(** A, B over cells fuse; C over nodes starts a second group. *)
Example soft_fuse_A_B_C :
  group_names (_soft_fuse [loopA; loopB; loopC]) = Some [(["A"; "B"], 2); (["C"], 3)].
Proof. vm_compute. reflexivity. Qed.

(** ** Hard fusion: the search *)

Lemma incs_elem (l : Loop) (a : Arg) : a ∈ incs l ↔ a ∈ args l ∧ access a = INC.
Proof.
  unfold incs. rewrite elem_of_remove_dups, list_elem_of_filter.
  rewrite list_elem_of_singleton. tauto.
Qed.

Lemma common_incs_elem (base_loop loop : Loop) (a : Arg) :
  a ∈ common_incs_of base_loop loop ↔ a ∈ incs base_loop ∨ a ∈ incs loop.
Proof.
  unfold common_incs_of, set_union_list.
  rewrite list_elem_of_filter, elem_of_remove_dups, elem_of_app.
  rewrite elem_of_union, !elem_of_data_set. split; [tauto|].
  intros H. split; [|done]. destruct H; [left|right]; eauto.
Qed.

Lemma pure_iai_common_inc (base_loop loop : Loop) :
  pure_iai (loops_analyzer base_loop loop) = true →
  ∃ d, increments base_loop d ∧ increments loop d.
Proof.
  cbn [loops_analyzer pure_iai]. rewrite !andb_true_iff, meet_true.
  intros [[[(d & Hb & Hl) _] _] _]. exists d.
  by rewrite <- !elem_of_all_incs.
Qed.

Lemma pure_iai_incs (base_loop loop : Loop) :
  pure_iai (loops_analyzer base_loop loop) = true →
  (∃ a, a ∈ incs base_loop) ∧ (∃ a, a ∈ incs loop).
Proof.
  intros (d & (a & Ha & Hacc & _) & (b & Hb & Hbcc & _))%pure_iai_common_inc.
  split; [exists a|exists b]; by apply incs_elem.
Qed.

Lemma filter_nonempty {A : Type} (P : A → Prop) `{∀ x, Decision (P x)}
    (l : list A) (x : A) :
  x ∈ l → P x → ∃ y ys, filter P l = y :: ys.
Proof.
  intros Hin HP. assert (x ∈ filter P l) as Hx by by apply list_elem_of_filter.
  destruct (filter P l) as [|y ys]; [by apply elem_of_nil in Hx|eauto].
Qed.

(** Once the roles are settled the candidate is accepted or stops the scan;
    the lookup of the shared increment cannot fail. *)
Lemma settle_cases (base_loop loop b f : Loop) (m : Map) :
  (∃ a, a ∈ incs b) → (b = base_loop ∨ b = loop) →
  (settle (common_incs_of base_loop loop) b f m = Ok Stop
   ∧ existsb _is_direct (args f) = true)
  ∨ (∃ c, settle (common_incs_of base_loop loop) b f m = Ok (Accept b f m c)
          ∧ existsb _is_direct (args f) = false).
Proof.
  intros [a Ha] Hb. unfold settle.
  destruct (existsb _is_direct (args f)); [by left|right].
  destruct (filter_nonempty (λ a, a ∈ args b) (common_incs_of base_loop loop) a)
    as (c & cs & ->).
  - apply common_incs_elem. by destruct Hb as [-> | ->]; [left|right].
  - by apply incs_elem in Ha as [? _].
  - eauto.
Qed.

(** The body of the inner loop never raises. *)
Lemma hard_fuse_pair_total (base_loop loop : Loop) :
  ∃ v, hard_fuse_pair base_loop loop = Ok v.
Proof.
  unfold hard_fuse_pair.
  destruct (homogeneous _); [eauto|].
  destruct (pure_iai _) eqn:Hiai; cbn [negb]; [|eauto].
  destruct (pure_iai_incs _ _ Hiai) as [Hb Hl].
  destruct (common_incs_of base_loop loop) eqn:Hci; [eauto|]. rewrite <- Hci.
  destruct (filter (connects _ _) _) as [|m1 ?].
  - destruct (filter (connects _ _) _) as [|m2 ?]; [eauto|].
    destruct (settle_cases base_loop loop loop base_loop m2) as [[-> _]|(c & -> & _)];
      eauto.
  - destruct (settle_cases base_loop loop base_loop loop m1) as [[-> _]|(c & -> & _)];
      eauto.
Qed.

Lemma hard_fuse_pair_accept (base_loop loop b f : Loop) (m : Map) (c : Arg) :
  hard_fuse_pair base_loop loop = Ok (Accept b f m c) →
  existsb _is_direct (args f) = false.
Proof.
  unfold hard_fuse_pair.
  destruct (homogeneous _); [done|].
  destruct (pure_iai _) eqn:Hiai; cbn [negb]; [|done].
  destruct (pure_iai_incs _ _ Hiai) as [Hb Hl].
  destruct (common_incs_of base_loop loop) eqn:Hci; [done|]. rewrite <- Hci.
  destruct (filter (connects _ _) _) as [|m1 ?].
  - destruct (filter (connects _ _) _) as [|m2 ?]; [done|].
    destruct (settle_cases base_loop loop loop base_loop m2)
      as [[-> _]|(c' & -> & Hdir)]; [auto..|done|].
    intros [= <- <- <- <-]. done.
  - destruct (settle_cases base_loop loop base_loop loop m1)
      as [[-> _]|(c' & -> & Hdir)]; [auto..|done|].
    intros [= <- <- <- <-]. done.
Qed.

Lemma forward_scan_found (base_loop : Loop) (candidates : list Loop) :
  ∀ i last_i i' t,
    forward_scan base_loop i candidates last_i = Ok (i', Some t) → no_direct t.
Proof.
  induction candidates as [|loop rest IH]; intros i last_i i' t; cbn; [done|].
  destruct (hard_fuse_pair base_loop loop) as [[| |b f m c]|e] eqn:Hv;
    cbn [mbind result_bind]; try done.
  - apply IH.
  - intros [= <- <-]. unfold no_direct. cbn. by eapply hard_fuse_pair_accept.
Qed.

Lemma base_scan_no_direct (fuel : nat) (loop_chain : list Loop) :
  ∀ base_loop_index i fusible fusible',
    Forall no_direct fusible →
    base_scan fuel loop_chain base_loop_index i fusible = Ok (Some fusible') →
    Forall no_direct fusible'.
Proof.
  induction fuel as [|fuel IH]; intros idx i fusible fusible' Hall; cbn; [done|].
  destruct (loop_chain !! idx) as [base_loop|]; [|by intros [= <-]].
  destruct (forward_scan _ _ _ _) as [[i' found]|e] eqn:Hscan;
    cbn [mbind result_bind]; [|done].
  destruct i' as [n|]; [|done].
  apply IH. apply Forall_app. split; [done|].
  destruct found as [t|]; cbn; [|constructor].
  constructor; [|constructor]. by eapply forward_scan_found.
Qed.

(** C5. In every tuple that the search of hard fusion accepts, with the
    roles as they are after a swap, the fuse loop has no direct argument. *)
Theorem hard_fuse_no_direct_fuse (loop_chain : list Loop) (fusible : list Fusible)
    (base_loop fuse_loop : Loop) (fusion_map : Map) (common_inc : Arg) (a : Arg) :
  hard_fuse_search loop_chain = Ok (Some fusible) →
  (base_loop, fuse_loop, fusion_map, common_inc) ∈ fusible →
  a ∈ args fuse_loop →
  _is_direct a = false.
Proof.
  intros Hsearch Hin Ha.
  apply base_scan_no_direct in Hsearch; [|constructor].
  rewrite Forall_forall in Hsearch. specialize (Hsearch _ Hin).
  unfold no_direct in Hsearch. cbn in Hsearch.
  destruct (_is_direct a) eqn:Hd; [|done].
  assert (existsb _is_direct (args fuse_loop) = true) as Hex; [|congruence].
  apply existsb_exists. exists a. split; [by apply list_elem_of_In|done].
Qed.

(** P increments f through cell2node, R increments f through a map on
    nodes: the pair is accepted with P as base and R as fuse loop. *)
Lemma hard_fuse_no_direct_fuse_witness :
  hard_fuse_search [loopP; loopR]
    = Ok (Some [(loopP, loopR, cell2node, mkArg "f" INC (OneMap cell2node))])
  ∧ _is_direct (mkArg "f" INC (OneMap node2node)) = false.
Proof.
  assert (hard_fuse_search [loopP; loopR]
          = Ok (Some [(loopP, loopR, cell2node, mkArg "f" INC (OneMap cell2node))]))
    as Hs by (vm_compute; reflexivity).
  split; [exact Hs|].
  apply (hard_fuse_no_direct_fuse [loopP; loopR] _ loopP loopR cell2node
           (mkArg "f" INC (OneMap cell2node)) _ Hs).
  - apply list_elem_of_singleton. reflexivity.
  - apply list_elem_of_singleton. reflexivity.
Defined.

(** The search returns: the fuel given to the outer loop is enough, and the
    only error is the unbound [i] of a chain of one loop. *)
Lemma forward_scan_returns (base_loop : Loop) (candidates : list Loop) :
  ∀ i last_i, 1 ≤ i →
    ∃ i' found, forward_scan base_loop i candidates last_i = Ok (i', found)
      ∧ (candidates = [] → i' = last_i)
      ∧ (candidates ≠ [] → ∃ n, i' = Some n ∧ 1 ≤ n).
Proof.
  induction candidates as [|loop rest IH]; intros i last_i Hi; cbn.
  - exists last_i, None. done.
  - destruct (hard_fuse_pair_total base_loop loop) as [v ->]. cbn [mbind result_bind].
    destruct v as [| |b f m c].
    + destruct (IH (S i) (Some i)) as (i' & found & -> & Hnil & Hcons); [lia|].
      exists i', found. split; [done|]. split; [done|]. intros _.
      destruct rest as [|r rest']; [|by apply Hcons].
      exists i. split; [by apply Hnil|done].
    + exists (Some i), None. split; [done|]. split; [done|]. eauto.
    + exists (Some i), (Some (b, f, m, c)). split; [done|]. split; [done|]. eauto.
Qed.

Lemma base_scan_returns (loop_chain : list Loop) (fuel : nat) :
  ∀ base_loop_index i fusible,
    length loop_chain - base_loop_index < fuel →
    (is_Some (loop_chain !! S base_loop_index) ∨ ∃ n, i = Some n ∧ 1 ≤ n) →
    ∃ r, base_scan fuel loop_chain base_loop_index i fusible = Ok (Some r).
Proof.
  induction fuel as [|fuel IH]; intros idx i fusible Hfuel Hinv; [lia|]. cbn.
  destruct (loop_chain !! idx) as [base_loop|] eqn:Hidx; [|eauto].
  apply lookup_lt_Some in Hidx as Hlt.
  destruct (forward_scan_returns base_loop (drop (S idx) loop_chain) 1 i)
    as (i' & found & -> & Hnil & Hcons); [done|].
  cbn [mbind result_bind].
  assert (∃ n, i' = Some n ∧ 1 ≤ n) as (n & -> & Hn).
  { destruct (drop (S idx) loop_chain) as [|x xs] eqn:Hdrop.
    - destruct Hinv as [[y Hy]|Hi]; [|by rewrite Hnil].
      apply lookup_lt_Some in Hy.
      assert (length (drop (S idx) loop_chain) = 0) as Hlen by by rewrite Hdrop.
      rewrite length_drop in Hlen. lia.
    - by apply Hcons. }
  apply IH; [lia|]. right. eauto.
Qed.

Lemma hard_fuse_search_returns (loop_chain : list Loop) :
  length loop_chain ≠ 1 → ∃ fusible, hard_fuse_search loop_chain = Ok (Some fusible).
Proof.
  intros Hlen. unfold hard_fuse_search.
  destruct loop_chain as [|a [|b rest]]; [by cbn; eauto|done|].
  apply base_scan_returns; [cbn; lia|]. left. cbn. eauto.
Qed.

Lemma hard_fuse_search_single (l : Loop) :
  hard_fuse_search [l] = Raise (UnboundLocalError "i").
Proof. reflexivity. Qed.

(** ** Hard fusion: candidates that are turned down *)

Lemma elem_of_concat {A : Type} (x : A) (ls : list (list A)) :
  x ∈ concat ls ↔ ∃ l, l ∈ ls ∧ x ∈ l.
Proof.
  rewrite list_elem_of_In, in_concat.
  split; intros (l & H1 & H2); exists l; by rewrite ?list_elem_of_In in *.
Qed.

Lemma candidate_maps_inc_map (base_loop loop : Loop) (m : Map) :
  m ∈ candidate_maps (common_incs_of base_loop loop) → inc_map base_loop loop m.
Proof.
  unfold candidate_maps, set_union_list, factor_maps.
  assert (∀ m0, m0 ∈ remove_dups (omap indirect_map (common_incs_of base_loop loop)) →
            ∃ a, (a ∈ args base_loop ∨ a ∈ args loop) ∧ access a = INC
                 ∧ amap a = OneMap m0) as Hmaps.
  { intros m0. rewrite elem_of_remove_dups, list_elem_of_omap.
    intros (a & Ha & Hm). exists a.
    apply common_incs_elem in Ha. rewrite !incs_elem in Ha.
    unfold indirect_map in Hm.
    destruct (amap a) as [|m1|r c] eqn:Hmap; try discriminate Hm.
    injection Hm as ->. destruct Ha as [[Hin Hacc]|[Hin Hacc]]; eauto. }
  rewrite elem_of_remove_dups, elem_of_app. intros [Hm|Hm].
  - destruct (Hmaps m Hm) as (a & Ha & Hacc & Hmap). exists a, m. eauto.
  - rewrite elem_of_remove_dups, elem_of_concat in Hm.
    destruct Hm as (l & Hl & Hml). apply list_elem_of_fmap in Hl as (m0 & -> & Hm0).
    destruct (Hmaps m0 Hm0) as (a & Ha & Hacc & Hmap).
    destruct (factors m0) as [fs|] eqn:Hfs; [|by apply elem_of_nil in Hml].
    apply list_elem_of_fmap in Hml as (c & -> & Hc).
    exists a, m0. split; [done|]. split; [done|]. split; [done|]. right. eauto.
Qed.

Lemma filter_none {A : Type} (P : A → Prop) `{∀ x, Decision (P x)} (l : list A) :
  (∀ x, x ∈ l → ¬ P x) → filter P l = [].
Proof.
  intros Hno. destruct (filter P l) as [|y ys] eqn:Hf; [done|].
  assert (y ∈ filter P l) as Hy by (rewrite Hf; left).
  apply list_elem_of_filter in Hy as [HP Hin]. by destruct (Hno y Hin).
Qed.

(** C6, as the code has it.  The body of the inner loop never raises.  A
    pair over one iteration space is skipped.  Over different iteration
    spaces, a pair with no common incremented datum ends the forward scan
    from the current base loop; a pair with no connecting map is skipped,
    the scan going on to the next candidate, when it is pure_iai, and ends
    the scan otherwise.  In no case is the pair accepted. *)
Theorem hard_fuse_pair_rejects (base_loop loop : Loop) :
  (∃ v, hard_fuse_pair base_loop loop = Ok v)
  ∧ (no_common_inc base_loop loop →
     hard_fuse_pair base_loop loop
     = Ok (if homogeneous (loops_analyzer base_loop loop) then Skip else Stop))
  ∧ (no_connecting_map base_loop loop →
     hard_fuse_pair base_loop loop
     = Ok (if homogeneous (loops_analyzer base_loop loop)
              || pure_iai (loops_analyzer base_loop loop)
           then Skip else Stop)).
Proof.
  split; [apply hard_fuse_pair_total|]. split.
  - intros Hno. unfold hard_fuse_pair.
    destruct (homogeneous _); [done|].
    destruct (pure_iai _) eqn:Hiai; [|done].
    apply pure_iai_common_inc in Hiai as (d & Hd). by destruct (Hno d).
  - intros Hno. unfold hard_fuse_pair.
    destruct (homogeneous _); [done|]. cbn [orb].
    destruct (pure_iai _) eqn:Hiai; cbn [negb]; [|done].
    destruct (pure_iai_incs _ _ Hiai) as [[a Ha] _].
    destruct (common_incs_of base_loop loop) eqn:Hci.
    { assert (a ∈ common_incs_of base_loop loop) as Hin
        by (apply common_incs_elem; by left).
      rewrite Hci in Hin. by apply elem_of_nil in Hin. }
    rewrite <- Hci.
    rewrite !filter_none; [done| |];
      intros m Hm; apply candidate_maps_inc_map in Hm; by apply Hno in Hm as [? ?].
Qed.

(** P and Q run over different sets and increment no common datum: the scan
    from P stops at Q.  T and R increment f over different sets through maps
    that stay within cells and within nodes: the pair is pure_iai, has no
    connecting map and is skipped. *)
Lemma hard_fuse_pair_rejects_witness :
  no_common_inc loopP loopQ
  ∧ hard_fuse_pair loopP loopQ = Ok Stop
  ∧ no_connecting_map loopT loopR
  ∧ pure_iai (loops_analyzer loopT loopR) = true
  ∧ hard_fuse_pair loopT loopR = Ok Skip.
Proof.
  assert (no_common_inc loopP loopQ) as Hinc.
  { intros d [_ (a & Ha & Hacc & _)].
    apply list_elem_of_singleton in Ha. subst a. discriminate Hacc. }
  assert (no_connecting_map loopT loopR) as Hmap.
  { intros m (a & m0 & Ha & _ & Hm0 & Hm).
    destruct Ha as [Ha|Ha]; apply list_elem_of_singleton in Ha; subst a;
      injection Hm0 as <-;
      (destruct Hm as [->|(fs & c & Hfs & _)]; [|discriminate Hfs]);
      split; intros [H1 H2]; first [discriminate H1|discriminate H2]. }
  destruct (hard_fuse_pair_rejects loopP loopQ) as (_ & HQ & _).
  destruct (hard_fuse_pair_rejects loopT loopR) as (_ & _ & HR).
  split; [exact Hinc|]. split; [exact (HQ Hinc)|].
  split; [exact Hmap|]. split; [vm_compute; reflexivity|]. exact (HR Hmap).
Defined.

(** C6 as stated fails: with no common incremented datum the candidate is
    not skipped.  Q stops the forward scan from P, so R, which P could be
    fused with, is never looked at from P. *)
Lemma hard_fuse_scan_stops :
  ¬ (∀ base_loop loop,
       no_connecting_map base_loop loop ∨ no_common_inc base_loop loop →
       hard_fuse_pair base_loop loop = Ok Skip).
Proof.
  intros Hclaim.
  assert (no_common_inc loopP loopQ) as Hinc.
  { intros d [_ (a & Ha & Hacc & _)].
    apply list_elem_of_singleton in Ha. subst a. discriminate Hacc. }
  specialize (Hclaim loopP loopQ (or_intror Hinc)).
  vm_compute in Hclaim. discriminate Hclaim.
Qed.

Example hard_fuse_P_Q_R :
  hard_fuse_pair loopP loopQ = Ok Stop
  ∧ hard_fuse_pair loopP loopR
    = Ok (Accept loopP loopR cell2node (mkArg "f" INC (OneMap cell2node)))
  ∧ hard_fuse_search [loopP; loopQ; loopR] = Ok (Some []).
Proof. repeat split; vm_compute; reflexivity. Qed.

(** ** The inspection heuristic *)

Lemma run_passes_tiling (env : Env) (self : Inspector) (mode : string) :
  _mode self = Some mode → mode ∈ ["tile"; "only_tile"] →
  run_passes env self = tiling_passes env mode self.
Proof.
  intros Hmode Hin. unfold run_passes, tiling_passes. rewrite Hmode. cbn [attr mbind result_bind].
  apply elem_of_cons in Hin as [->|Hin]; [reflexivity|].
  apply list_elem_of_singleton in Hin as ->. reflexivity.
Qed.

Lemma inspect_pending_skipped (env : Env) (n : option nat) (name : string)
    (loop_chain : list Loop) (mode : string) (options : Options) :
  mode ∈ ["tile"; "only_tile"] → next_count n < 3 →
  inspect env (pending n name loop_chain mode options)
  = Ok (PlainSchedule name (kernel <$> loop_chain),
        skipped (next_count n) name loop_chain, [], Skipped).
Proof.
  intros Hmode Hn. unfold inspect, _heuristic_skip_inspection, pending, next_count in *.
  cbn -[bool_decide elem_of].
  rewrite (bool_decide_eq_true_2 _ Hmode), (bool_decide_eq_true_2 _ Hn).
  reflexivity.
Qed.

Lemma inspect_pending_built (env : Env) (n : option nat) (name : string)
    (loop_chain : list Loop) (mode : string) (options : Options) :
  mode ∈ ["tile"; "only_tile"] → ¬ next_count n < 3 →
  inspect env (pending n name loop_chain mode options)
  = ('(self, warnings) ← tiling_passes env mode
                            (pending (Some (next_count n)) name loop_chain mode options);
     s ← attr "_schedule" (_schedule self);
     Ok (s, del_build_state
              {| _initialized := true; _ninsps := _ninsps self;
                 _name := _name self; _loop_chain := _loop_chain self;
                 _mode := _mode self; _options := _options self;
                 _schedule := _schedule self |}, warnings, Built)).
Proof.
  intros Hmode Hn. unfold inspect, _heuristic_skip_inspection, next_count in *.
  cbn -[bool_decide elem_of run_passes tiling_passes].
  rewrite (bool_decide_eq_false_2 _ Hn), andb_false_r.
  cbn -[bool_decide elem_of run_passes tiling_passes].
  rewrite (run_passes_tiling env _ mode); [reflexivity|reflexivity|done].
Qed.

(** C7. Under the modes for which the heuristic takes tiling as requested
    ([tile] and [only_tile]) the first two requests for a fingerprint return
    the plain schedule at once, with no pass run and nothing built; the
    third runs the passes, [_tile] last; when they succeed the inspector is
    initialised and every later request returns the schedule built then,
    again with no pass run. *)
Theorem inspection_deferred (env : Env) (name : string) (loop_chain : list Loop)
    (mode : string) (options : Options) :
  mode ∈ ["tile"; "only_tile"] →
  let plain := PlainSchedule name (kernel <$> loop_chain) in
  request env None name loop_chain mode options
    = Ok (plain, skipped 1 name loop_chain, [], Skipped)
  ∧ request env (Some (skipped 1 name loop_chain)) name loop_chain mode options
    = Ok (plain, skipped 2 name loop_chain, [], Skipped)
  ∧ request env (Some (skipped 2 name loop_chain)) name loop_chain mode options
    = ('(self, warnings) ← tiling_passes env mode
                              (pending (Some 3) name loop_chain mode options);
       s ← attr "_schedule" (_schedule self);
       Ok (s, del_build_state
                {| _initialized := true; _ninsps := _ninsps self;
                   _name := _name self; _loop_chain := _loop_chain self;
                   _mode := _mode self; _options := _options self;
                   _schedule := _schedule self |}, warnings, Built))
  ∧ ∀ s built warnings o,
      request env (Some (skipped 2 name loop_chain)) name loop_chain mode options
        = Ok (s, built, warnings, o) →
      o = Built ∧ _initialized built = true
      ∧ request env (Some built) name loop_chain mode options
        = Ok (s, built, [], FromCache).
Proof.
  intros Hmode plain.
  assert (request env (Some (skipped 2 name loop_chain)) name loop_chain mode options
          = inspect env (pending (Some 2) name loop_chain mode options)) as H3
    by reflexivity.
  rewrite inspect_pending_built in H3; [|done|cbn; lia].
  split; [|split; [|split; [exact H3|]]].
  - apply (inspect_pending_skipped env None); [done|cbn; lia].
  - apply (inspect_pending_skipped env (Some 1)); [done|cbn; lia].
  - intros s built warnings o. rewrite H3.
    destruct (tiling_passes _ _ _) as [[self w]|e]; cbn [mbind result_bind]; [|done].
    destruct (_schedule self) as [sched|] eqn:Hs; cbn [attr mbind result_bind]; [|done].
    intros [= <- <- <- <-]. split; [done|]. split; [done|].
    reflexivity.
Qed.

(** Three requests under [only_tile] with the sample collaborators: two
    skipped, the third builds a tiling schedule. *)
Lemma inspection_deferred_witness :
  let plain := PlainSchedule "chain" (kernel <$> [loopA; loopC]) in
  request (sample_env "SEQUENTIAL") None "chain" [loopA; loopC] "only_tile" no_options
    = Ok (plain, skipped 1 "chain" [loopA; loopC], [], Skipped)
  ∧ request (sample_env "SEQUENTIAL") (Some (skipped 1 "chain" [loopA; loopC]))
            "chain" [loopA; loopC] "only_tile" no_options
    = Ok (plain, skipped 2 "chain" [loopA; loopC], [], Skipped)
  ∧ (request (sample_env "SEQUENTIAL") (Some (skipped 2 "chain" [loopA; loopC]))
             "chain" [loopA; loopC] "only_tile" no_options
       ≫= λ r, Ok (r.1.1.1, r.2))
    = Ok (TilingSchedule "chain" plain (kernel <$> [loopA; loopC]) 1%Z 2%Z no_options,
          Built).
Proof.
  intros plain.
  destruct (inspection_deferred (sample_env "SEQUENTIAL") "chain" [loopA; loopC]
              "only_tile" no_options) as (H1 & H2 & H3 & _).
  - apply elem_of_cons. right. apply list_elem_of_singleton. reflexivity.
  - split; [exact H1|]. split; [exact H2|]. rewrite H3. vm_compute. reflexivity.
Defined.

(** Under [only_omp] the tiling pass runs too, but the heuristic does not
    defer it: the first request builds. *)
Example only_omp_not_deferred :
  (request (sample_env "SEQUENTIAL") None "chain" [loopA; loopC] "only_omp" no_options
     ≫= λ r, Ok r.2)
  = Ok Built.
Proof. vm_compute. reflexivity. Qed.

(** ** Tiling without deep halos *)

Lemma lacks_deep_halos_true (env : Env) (loop_chain : list Loop) (l : Loop) :
  get_exec_mode env ∈ mpi_modes →
  l ∈ loop_chain → _deep_size (set_info (iterset (it_space l))) = None →
  lacks_deep_halos env loop_chain = true.
Proof.
  intros Hmode Hin Hnone. unfold lacks_deep_halos.
  rewrite (bool_decide_eq_true_2 _ Hmode). cbn [andb]. apply negb_true_iff.
  apply not_true_is_false. intros Hall.
  rewrite forallb_forall in Hall. specialize (Hall l).
  rewrite <- list_elem_of_In in Hall. specialize (Hall Hin).
  unfold has_deep_size in Hall. rewrite Hnone in Hall.
  apply bool_decide_eq_true in Hall. by destruct Hall.
Qed.

(** C8. When the execution mode of SLOPE needs deep halos and the iteration
    set of some loop of the chain has none, [_tile] logs the warning and
    returns without raising; the inspector, and so its schedule, is the one
    the pass was entered with. *)
Theorem tile_skipped_without_deep_halos (env : Env) (self : Inspector)
    (loop_chain : list Loop) (options : Options) (l : Loop) :
  _loop_chain self = Some loop_chain →
  _options self = Some options →
  get_exec_mode env ∈ mpi_modes →
  l ∈ loop_chain →
  _deep_size (set_info (iterset (it_space l))) = None →
  _tile env self = Ok (self, [halo_warning])
  ∧ ∀ r, _tile env self = Ok r → _schedule r.1 = _schedule self.
Proof.
  intros Hchain Hopts Hmode Hin Hnone.
  assert (_tile env self = Ok (self, [halo_warning])) as Htile.
  { unfold _tile. rewrite Hchain, Hopts. cbn [attr mbind result_bind].
    by rewrite (lacks_deep_halos_true env loop_chain l). }
  split; [exact Htile|].
  intros r Hr. rewrite Htile in Hr. by injection Hr as <-.
Qed.

(** The inspection as a whole: under a mode that only tiles, the schedule
    returned is the plain one the inspector started with. *)
Lemma run_passes_only_tiling (env : Env) (self : Inspector)
    (loop_chain : list Loop) (options : Options) (mode : string) (l : Loop) :
  _mode self = Some mode → mode ∈ ["only_tile"; "only_omp"] →
  _loop_chain self = Some loop_chain →
  _options self = Some options →
  get_exec_mode env ∈ mpi_modes →
  l ∈ loop_chain →
  _deep_size (set_info (iterset (it_space l))) = None →
  run_passes env self = Ok (self, [halo_warning]).
Proof.
  intros Hm Hin Hchain Hopts Hmode Hl Hnone.
  assert (run_passes env self = _tile env self) as ->.
  { unfold run_passes. rewrite Hm. cbn [attr mbind result_bind].
    apply elem_of_cons in Hin as [->|Hin]; [reflexivity|].
    apply list_elem_of_singleton in Hin as ->. reflexivity. }
  unfold _tile. rewrite Hchain, Hopts. cbn [attr mbind result_bind].
  by rewrite (lacks_deep_halos_true env loop_chain l).
Qed.

(** Under [tile] it is the schedule left by the two fusion passes. *)
Lemma run_passes_tile_fused_only (env : Env) (self fused hard : Inspector)
    (loop_chain : list Loop) (options : Options) (l : Loop) :
  _mode self = Some "tile" →
  soft_fuse_pass env self = Ok fused →
  hard_fuse_pass env fused = Ok hard →
  _loop_chain hard = Some loop_chain →
  _options hard = Some options →
  get_exec_mode env ∈ mpi_modes →
  l ∈ loop_chain →
  _deep_size (set_info (iterset (it_space l))) = None →
  run_passes env self = Ok (hard, [halo_warning]).
Proof.
  intros Hm Hsoft Hhard Hchain Hopts Hmode Hl Hnone.
  assert (run_passes env self = _tile env hard) as ->.
  { unfold run_passes. rewrite Hm. cbn [attr mbind result_bind].
    change (bool_decide ("tile" ∉ _modes)) with false.
    change (bool_decide ("tile" ∈ ["soft"; "hard"; "tile"])) with true.
    change (bool_decide ("tile" ∈ ["hard"; "tile"])) with true.
    change (bool_decide ("tile" ∈ ["tile"; "only_tile"; "only_omp"])) with true.
    cbn match. rewrite Hsoft. cbn [mbind result_bind]. by rewrite Hhard. }
  unfold _tile. rewrite Hchain, Hopts. cbn [attr mbind result_bind].
  by rewrite (lacks_deep_halos_true env loop_chain l).
Qed.

(** A and C run over sets without deep halos; SLOPE runs in mode OMP_MPI. *)
Lemma tile_skipped_without_deep_halos_witness :
  _tile (sample_env "OMP_MPI") (pending None "chain" [loopA; loopC] "only_omp" no_options)
    = Ok (pending None "chain" [loopA; loopC] "only_omp" no_options, [halo_warning])
  ∧ (request (sample_env "OMP_MPI") None "chain" [loopA; loopC] "only_omp" no_options
       ≫= λ r, Ok (r.1.1.1, r.1.2, r.2))
    = Ok (PlainSchedule "chain" (kernel <$> [loopA; loopC]), [halo_warning], Built).
Proof.
  split; [|vm_compute; reflexivity].
  apply (tile_skipped_without_deep_halos (sample_env "OMP_MPI") _
           [loopA; loopC] no_options loopA).
  - reflexivity.
  - reflexivity.
  - apply elem_of_cons. left. reflexivity.
  - apply elem_of_cons. left. reflexivity.
  - reflexivity.
Defined.

(** ** Tiling a loop over a subset *)

(** C9, what the code does: [create_slope_set] on a [Subset] raises
    [NameError] at [s.superset.name], whatever the execution mode, and
    registers nothing. *)
Theorem create_slope_set_subset_raises (exec_mode : string) (set_str : OpSet → string)
    (superset : OpSet) (indices : list Z) (info : SetInfo) (extra_halo : bool)
    (insp_sets : InspSets) :
  create_slope_set exec_mode set_str (Subset superset indices info) extra_halo insp_sets
  = Raise (NameError "s").
Proof. reflexivity. Qed.

Lemma register_loop_subset_raises (exec_mode : string) (set_str : OpSet → string)
    (extra_halo : bool) (st : TileState) (loop : Loop)
    (superset : OpSet) (indices : list Z) (info : SetInfo) :
  iterset (it_space loop) = Subset superset indices info →
  register_loop exec_mode set_str extra_halo st loop = Raise (NameError "s").
Proof. intros Hset. unfold register_loop. rewrite Hset. reflexivity. Qed.

(** The inspection of a chain with a loop over a subset of cells, under
    each mode that tiles at the first request. *)
Example inspect_subset_raises :
  request (sample_env "SEQUENTIAL") None "chain" [loopA; loopS] "only_omp" no_options
  = Raise (NameError "s").
Proof. vm_compute. reflexivity. Qed.

(** ** The kernel of a soft-fusion group *)

Lemma Node_induction (P : Node → Prop) :
  (∀ s, P (Symbol s)) → (∀ c, P (FlatBlock c)) →
  (∀ k cs, Forall P cs → P (Stmt k cs)) → ∀ n, P n.
Proof.
  intros HS HF HSt. fix IH 1. intros [s|c|k cs]; [apply HS|apply HF|].
  apply HSt. induction cs as [|c cs IHcs]; constructor; [apply IH|apply IHcs].
Qed.

Lemma rename_sym_snoc (params : list string) (key suffix s : string) :
  key ∉ params →
  (if decide (s = key) then rename_sym params suffix s +:+ suffix
   else rename_sym params suffix s)
  = rename_sym (params ++ [key]) suffix s.
Proof.
  intros Hkey. unfold rename_sym.
  destruct (decide (s = key)) as [->|Hne].
  - rewrite decide_False by done. rewrite decide_True; [done|].
    apply elem_of_app. right. by apply list_elem_of_singleton.
  - destruct (decide (s ∈ params)) as [Hin|Hnin].
    + rewrite decide_True; [done|]. apply elem_of_app. by left.
    + rewrite decide_False; [done|]. rewrite elem_of_app, list_elem_of_singleton. tauto.
Qed.

(** One pass over a tree already renamed for [params], with a key outside
    [params], is the renaming for [params] and the key. *)
Lemma rename_refs_snoc (params : list string) (key suffix : string) :
  key ∉ params →
  ∀ n, rename_refs key suffix n (rename_node params suffix n)
       = rename_node (params ++ [key]) suffix n.
Proof.
  intros Hkey. induction n as [s|c|k cs IH] using Node_induction.
  - cbn. rewrite <- rename_sym_snoc by done.
    destruct (decide (s = key)); done.
  - done.
  - cbn. f_equal. induction IH as [|c cs Hc _ IHcs]; [done|].
    cbn. by rewrite Hc, IHcs.
Qed.

Lemma rename_decl_snoc (params : list string) (key suffix : string) (d : Decl) :
  key ∉ params →
  rename_decl key suffix d (rename_param params suffix d)
  = rename_param (params ++ [key]) suffix d.
Proof.
  intros Hkey. unfold rename_decl, rename_param. cbn.
  rewrite <- rename_sym_snoc by done.
  destruct (decide (sym d = key)); done.
Qed.

Lemma zip_with_fmap_same {A B C : Type} (f : A → B → C) (g : A → B) (l : list A) :
  zip_with f l (g <$> l) = (λ x, f x (g x)) <$> l.
Proof. induction l as [|x l IH]; [done|]. cbn. by rewrite IH. Qed.

Lemma rename_pass_snoc (f : FunDecl) (suffix : string) (j : nat) (key : string) :
  distinct_params f →
  (sym <$> fun_args f) !! j = Some key →
  rename_pass f suffix (rename_with (take j (sym <$> fun_args f)) suffix f) j
  = rename_with (take (S j) (sym <$> fun_args f)) suffix f.
Proof.
  intros Hnd Hj.
  assert (key ∉ take j (sym <$> fun_args f)) as Hkey.
  { intros Hin. apply list_elem_of_lookup in Hin as [i Hi].
    apply lookup_take_Some in Hi as [Hi Hlt].
    assert (i = j) by (eapply NoDup_lookup; eauto). lia. }
  rewrite (take_S_r _ _ _ Hj).
  unfold rename_pass, rename_with. cbn [fun_args fun_body fun_name].
  rewrite list_lookup_fmap in Hj.
  rewrite list_lookup_fmap.
  destruct (fun_args f !! j) as [d|] eqn:Hd; [|done]. cbn in Hj. injection Hj as Hj.
  cbn [fmap option_fmap option_map rename_param sym].
  assert (rename_sym (take j (sym <$> fun_args f)) suffix (sym d) = key) as ->.
  { unfold rename_sym. rewrite Hj. by rewrite decide_False. }
  f_equal.
  - rewrite zip_with_fmap_same. apply list_fmap_ext. intros i x _.
    by apply rename_decl_snoc.
  - rewrite zip_with_fmap_same. apply list_fmap_ext. intros i x _.
    by apply rename_refs_snoc.
Qed.

Lemma rename_node_nil (suffix : string) (n : Node) : rename_node [] suffix n = n.
Proof.
  induction n as [s|c|k cs IH] using Node_induction; [done..|].
  cbn. f_equal. induction IH as [|c cs Hc _ IHcs]; [done|]. cbn. by rewrite Hc, IHcs.
Qed.

Lemma rename_with_nil (suffix : string) (f : FunDecl) : rename_with [] suffix f = f.
Proof.
  destruct f as [n a b]. unfold rename_with. cbn. f_equal.
  - induction a as [|[t s q] a IH]; [done|]. cbn. by rewrite IH.
  - induction b as [|x b IH]; [done|]. cbn. by rewrite rename_node_nil, IH.
Qed.

(** The renaming loop of step 3 renames every reference to a parameter, and
    nothing else, when the parameters have distinct names. *)
Lemma uniquify_renamed (f : FunDecl) (unique_id : nat) :
  distinct_params f → uniquify f unique_id = renamed f unique_id.
Proof.
  intros Hnd. unfold uniquify, renamed.
  set (suffix := "_" +:+ pretty unique_id).
  assert (∀ j, j ≤ length (fun_args f) →
            foldl (rename_pass f suffix) f (seq 0 j)
            = rename_with (take j (sym <$> fun_args f)) suffix f) as Hpass.
  { induction j as [|j IH]; intros Hj.
    - cbn. by rewrite rename_with_nil.
    - rewrite seq_S, foldl_app. cbn [foldl Nat.add]. rewrite IH by lia.
      destruct ((sym <$> fun_args f) !! j) as [key|] eqn:Hkey.
      + by eapply rename_pass_snoc.
      + apply lookup_ge_None in Hkey. rewrite length_fmap in Hkey. lia. }
  rewrite Hpass by done. f_equal. apply take_ge. by rewrite length_fmap.
Qed.

Lemma fuse_all_merged (fuse : list FunDecl) :
  Forall distinct_params fuse →
  ∀ base unique_id,
    fuse_all base unique_id fuse
    = {| fun_name := merged_name (fun_name base) fuse;
         fun_args := fun_args base ++ merged_args unique_id fuse;
         fun_body := fun_body base ++ merged_body unique_id fuse |}.
Proof.
  induction 1 as [|f fuse Hf _ IH]; intros base unique_id.
  - cbn. rewrite !app_nil_r. by destruct base.
  - cbn [fuse_all]. rewrite IH. unfold fuse_into.
    rewrite (uniquify_renamed f unique_id Hf).
    cbn [fun_name fun_args fun_body merged_name merged_args merged_body].
    by rewrite <- !app_assoc.
Qed.

Lemma bound_cons (a : Arg) (k : Decl) (loop_args : list Arg) (kernel_args : list Decl)
    (d : Data) (p : Decl) :
  bound loop_args kernel_args d p → bound (a :: loop_args) (k :: kernel_args) d p.
Proof. unfold bound. cbn. intros H. by right. Qed.

(** The elimination keeps one parameter for each datum not seen before. *)
Lemma drop_duplicates_once (loop_args : list Arg) :
  ∀ kernel_args seen,
    length loop_args = length kernel_args →
    ∃ ds, NoDup ds
      ∧ (∀ d, d ∈ ds → d ∉ seen)
      ∧ Forall2 (bound loop_args kernel_args) ds
                (drop_duplicates seen loop_args kernel_args)
      ∧ (∀ a, a ∈ loop_args → data a ∈ seen ∨ data a ∈ ds).
Proof.
  induction loop_args as [|a las IH]; intros [|k kas] seen Hlen; try done.
  - exists []. repeat split; [constructor|by intros ? ?%elem_of_nil|constructor|].
    by intros ? ?%elem_of_nil.
  - cbn [drop_duplicates]. cbn in Hlen.
    destruct (decide (data a ∈ seen)) as [Hin|Hnin].
    + destruct (IH kas seen) as (ds & Hnd & Hfresh & Hall & Hcov); [lia|].
      exists ds. repeat split; try done.
      * eapply Forall2_impl; [exact Hall|]. intros ? ?. apply bound_cons.
      * intros b [->|Hb]%elem_of_cons; [by left|by apply Hcov].
    + destruct (IH kas (data a :: seen)) as (ds & Hnd & Hfresh & Hall & Hcov); [lia|].
      exists (data a :: ds). repeat split.
      * constructor; [|done]. intros Hin. apply (Hfresh _ Hin). by left.
      * intros d [->|Hd]%elem_of_cons; [done|].
        intros Hseen. apply (Hfresh _ Hd). by right.
      * constructor; [by left|].
        eapply Forall2_impl; [exact Hall|]. intros ? ?. apply bound_cons.
      * intros b [->|Hb]%elem_of_cons; [right; by left|].
        destruct (Hcov b Hb) as [[->|Hs]%elem_of_cons|Hd];
          [right; by left|by left|right; by right].
Qed.

Lemma merged_args_length (rest : list Loop) :
  Forall (λ l, length (args l) = length (fun_args (kernel_ast (kernel l)))) rest →
  ∀ unique_id,
    length (concat (args <$> rest))
    = length (merged_args unique_id (kernel_ast <$> (kernel <$> rest))).
Proof.
  induction 1 as [|l rest Hl _ IH]; intros unique_id; [done|].
  cbn. rewrite !length_app, <- IH, Hl. unfold renamed, rename_with. cbn.
  by rewrite length_fmap.
Qed.

(** C4. The kernel of a soft-fusion group [first :: rest].  Its name is the
    name of the first kernel extended by each later one; its body is the
    body of the first kernel followed, in the order of the group, by the
    marker and the body of each later kernel in which every reference to a
    parameter of that kernel carries the suffix of the kernel's number; its
    signature is that of the first kernel followed by the renamed parameters
    of the later ones, from which the parameters standing for a datum that an
    earlier parameter stands for are dropped: the parameters kept stand for
    distinct data, and every datum of the group has one. *)
Theorem soft_fusion_kernel (first : Loop) (rest : list Loop) (idx : nat) :
  Forall distinct_params (kernel_ast <$> (kernel <$> rest)) →
  Forall (λ l, length (args l) = length (fun_args (kernel_ast (kernel l))))
         (first :: rest) →
  let base := kernel_ast (kernel first) in
  let fuse := kernel_ast <$> (kernel <$> rest) in
  let loop_args := concat (args <$> first :: rest) in
  ∃ fk ds,
    build_soft_fusion_kernel (first :: rest) idx = Ok fk
    ∧ fused_kernels fk = kernel <$> first :: rest
    ∧ loop_chain_index fk = idx
    ∧ fun_name (fused_ast fk) = merged_name (fun_name base) fuse
    ∧ fun_body (fused_ast fk) = fun_body base ++ merged_body 1 fuse
    ∧ fun_args (fused_ast fk)
      = drop_duplicates [] loop_args (fun_args base ++ merged_args 1 fuse)
    ∧ NoDup ds
    ∧ Forall2 (bound loop_args (fun_args base ++ merged_args 1 fuse))
              ds (fun_args (fused_ast fk))
    ∧ ∀ l a, l ∈ first :: rest → a ∈ args l → data a ∈ ds.
Proof.
  intros Hdistinct Hlens base fuse loop_args.
  destruct (drop_duplicates_once loop_args (fun_args base ++ merged_args 1 fuse) [])
    as (ds & Hnd & _ & Hall & Hcov).
  { inversion Hlens as [|? ? Hfirst Hrest]; subst. unfold loop_args. cbn.
    rewrite !length_app, Hfirst. f_equal. by apply merged_args_length. }
  eexists _, ds. split; [reflexivity|].
  cbn [fused_kernels loop_chain_index fused_ast Filter_kernel_args fun_name fun_args
       fun_body].
  change (kernel_ast <$> (kernel <$> rest)) with fuse.
  rewrite (fuse_all_merged fuse Hdistinct).
  cbn [fun_name fun_args fun_body].
  repeat split; try done.
  intros l a Hl Ha.
  destruct (Hcov a) as [Hseen|Hd]; [|by apply elem_of_nil in Hseen|done].
  unfold loop_args. apply elem_of_concat. exists (args l). split; [|done].
  by apply list_elem_of_fmap_2.
Qed.

(** A reads x and writes y, B reads y and increments z: the fused kernel
    A_B has the body of A, the marker and the body of B with B's parameters
    renamed, and one parameter for y. *)
Lemma soft_fusion_kernel_witness :
  ∃ fk ds,
    build_soft_fusion_kernel [loopA; loopB] 0 = Ok fk
    ∧ fun_name (fused_ast fk) = "A_B"
    ∧ fun_body (fused_ast fk) = [assign "b" "a"; fused_marker; incr "b_1" "a_1"]
    ∧ fun_args (fused_ast fk) = [param "a"; param "b"; param "b_1"]
    ∧ NoDup ds ∧ "y" ∈ ds.
Proof.
  destruct (soft_fusion_kernel loopA [loopB] 0)
    as (fk & ds & Hfk & _ & _ & Hname & Hbody & Hargs & Hnd & _ & Hcov).
  - repeat constructor; cbn; rewrite ?elem_of_cons, ?elem_of_nil; intuition discriminate.
  - repeat constructor.
  - exists fk, ds. split; [exact Hfk|].
    split; [rewrite Hname; reflexivity|].
    split; [rewrite Hbody; reflexivity|].
    split; [rewrite Hargs; reflexivity|].
    split; [exact Hnd|].
    apply (Hcov loopB (mkArg "y" READ NoMap)).
    + apply elem_of_cons. right. apply elem_of_cons. left. reflexivity.
    + apply elem_of_cons. left. reflexivity.
Defined.

(** ** The colouring of the execution plan *)

Lemma disjoint_below (U X T : gset Loc) : X ⊆ U → U ∩ T = ∅ → X ∩ T = ∅.
Proof.
  intros Hsub Hfree. apply elem_of_equiv_empty_L. intros x [HX HT]%elem_of_intersection.
  assert (x ∈ U ∩ T) as Hx by (apply elem_of_intersection; auto).
  rewrite Hfree in Hx. by apply not_elem_of_empty in Hx.
Qed.

Lemma place_ok (tg : nat → gset Loc) (b : nat) (classes : list (list nat * gset Loc)) :
  Forall (colour_ok tg) classes → Forall (colour_ok tg) (place b (tg b) classes).
Proof.
  induction 1 as [|[bs U] classes [Hcov Hdis] Hrest IH]; cbn.
  - constructor; [|constructor]. split; cbn.
    + by intros b' ->%list_elem_of_singleton.
    + intros [|i] [|j] b1 b2 Hij H1 H2; cbn in *; done.
  - destruct (decide (U ∩ tg b = ∅)) as [Hfree|Hbusy]; [|by constructor].
    constructor; [|done]. cbn in *. split; cbn.
    + intros b' [Hb'| ->%list_elem_of_singleton]%elem_of_app.
      * specialize (Hcov b' Hb'). intros x Hx. apply elem_of_union. left. by apply Hcov.
      * intros x Hx. apply elem_of_union. by right.
    + intros i j b1 b2 Hij H1 H2.
      assert (∀ k x, (bs ++ [b]) !! k = Some x →
                (k < length bs ∧ bs !! k = Some x) ∨ (k = length bs ∧ x = b)) as Hcase.
      { intros k x Hk. destruct (decide (k < length bs)) as [Hlt|Hge].
        - left. by rewrite lookup_app_l in Hk.
        - right. rewrite lookup_app_r in Hk by lia.
          apply list_lookup_singleton_Some in Hk as [Hk ->]. split; [lia|done]. }
      destruct (Hcase i b1 H1) as [[Hi H1']|[Hi ->]];
        destruct (Hcase j b2 H2) as [[Hj H2']|[Hj ->]].
      * by eapply Hdis.
      * apply (disjoint_below U); [|done].
        apply Hcov. eapply list_elem_of_lookup_2; eauto.
      * rewrite (comm_L (∩)). apply (disjoint_below U); [|done].
        apply Hcov. eapply list_elem_of_lookup_2; eauto.
      * lia.
Qed.

Lemma colour_classes_ok (targets : list (gset Loc)) :
  Forall (colour_ok (λ b, default ∅ (targets !! b))) (colour_classes targets).
Proof.
  unfold colour_classes.
  set (tg := λ b, default ∅ (targets !! b)).
  assert (Forall (λ bT : nat * gset Loc, bT.2 = tg bT.1) (imap pair targets)) as Hpairs.
  { apply Forall_lookup. intros i [b T] Hi.
    rewrite list_lookup_imap in Hi.
    destruct (targets !! i) as [T'|] eqn:HT; [|done].
    cbn in Hi. injection Hi as <- <-. unfold tg. cbn. by rewrite HT. }
  assert (∀ l classes, Forall (λ bT : nat * gset Loc, bT.2 = tg bT.1) l →
            Forall (colour_ok tg) classes →
            Forall (colour_ok tg)
                   (foldl (λ classes bT, place bT.1 bT.2 classes) classes l)) as Hfold.
  { clear. induction l as [|[b T] l IH]; intros classes Hl Hc; [done|].
    inversion Hl as [|? ? HT Hl']; subst. cbn in *. subst T.
    apply IH; [done|]. by apply place_ok. }
  apply Hfold; [done|constructor].
Qed.

Lemma launch_segment (plan : Plan) (pre g suf : list nat) :
  blkmap plan = pre ++ g ++ suf →
  launch plan (length pre) (length g) = Ok g.
Proof.
  unfold launch. intros ->. revert pre.
  induction g as [|x g IH]; intros pre; [done|].
  cbn [length seq mapM].
  replace (index (pre ++ (x :: g) ++ suf) (length pre)) with (Ok (A:=nat) x).
  2:{ unfold index. rewrite lookup_app_r by lia.
      by replace (length pre - length pre) with 0 by lia. }
  cbn [mbind result_bind].
  specialize (IH (pre ++ [x])).
  rewrite length_app in IH. cbn [length] in IH.
  replace (length pre + 1) with (S (length pre)) in IH by lia.
  replace ((pre ++ [x]) ++ g ++ suf) with (pre ++ (x :: g) ++ suf) in IH
    by by rewrite <- app_assoc.
  rewrite IH. done.
Qed.

Lemma launches_colours (plan : Plan) (suf : list (list nat)) :
  ∀ pre,
    blkmap plan = concat (pre ++ suf) →
    ncolblk plan = length <$> (pre ++ suf) →
    launches plan (length (concat pre)) (seq (length pre) (length suf)) = Ok suf.
Proof.
  induction suf as [|g suf IH]; intros pre Hblk Hcol; [done|].
  cbn [length seq launches].
  replace (index (ncolblk plan) (length pre)) with (Ok (A:=nat) (length g)).
  2:{ unfold index. rewrite Hcol, fmap_app, lookup_app_r by by rewrite length_fmap.
      rewrite length_fmap. by replace (length pre - length pre) with 0 by lia. }
  cbn [mbind result_bind].
  rewrite (launch_segment plan (concat pre) g (concat suf));
    [|by rewrite Hblk, concat_app].
  cbn [mbind result_bind].
  assert (length (concat (pre ++ [g])) = length (concat pre) + length g) as Hpre.
  { rewrite concat_app, length_app. cbn. by rewrite app_nil_r. }
  specialize (IH (pre ++ [g])).
  rewrite Hpre, length_app in IH. cbn [length] in IH.
  replace (length pre + 1) with (S (length pre)) in IH by lia.
  rewrite IH; [done|by rewrite <- app_assoc..].
Qed.

(** [_compute] on an indirect loop launches the colours of the plan one
    after the other; it does not raise. *)
Lemma compute_indirect (loop_args : list Arg) (part : Part) :
  loop_is_indirect loop_args = true → 0 < part_size part →
  _compute loop_args part
  = Ok ((colour_classes
           ((λ en, block_targets loop_args en.1 en.2)
              <$> zip (offset (FakePlan part 1024)) (nelems (FakePlan part 1024)))).*1).
Proof.
  intros Hind Hsize. unfold _compute, _get_plan.
  rewrite Hind, (bool_decide_eq_true_2 _ Hsize).
  set (classes := colour_classes _).
  cbn [ColouredPlan ncolors]. fold classes.
  replace (length classes) with (length (classes.*1)) by by rewrite length_fmap.
  apply (launches_colours _ (classes.*1) []).
  - reflexivity.
  - cbn. by rewrite <- list_fmap_compose.
Qed.

Lemma written_coloured (loop_args : list Arg) (part : Part) (bid : nat) :
  written loop_args (ColouredPlan part loop_args 1024) bid
  = default ∅ (((λ en, block_targets loop_args en.1 en.2)
                  <$> zip (offset (FakePlan part 1024)) (nelems (FakePlan part 1024)))
               !! bid).
Proof.
  unfold written. cbn [ColouredPlan offset nelems].
  rewrite list_lookup_fmap, lookup_zip_with.
  destruct (_ !! bid) as [efirst|]; [|done].
  destruct (_ !! bid) as [nelem|]; done.
Qed.

(** C2. For a loop with an indirect or a matrix argument, any two distinct
    blocks that [_compute] runs in one colour of the plan write, through
    INC or WRITE arguments with a map, disjoint sets of locations. *)
Theorem same_colour_blocks_disjoint (loop_args : list Arg) (part : Part)
    (colours : list (list nat)) (colour : list nat) (i j b1 b2 : nat) :
  loop_is_indirect loop_args = true →
  _compute loop_args part = Ok colours →
  colour ∈ colours →
  i ≠ j → colour !! i = Some b1 → colour !! j = Some b2 →
  written loop_args (_get_plan loop_args part 1024) b1
  ∩ written loop_args (_get_plan loop_args part 1024) b2 = ∅.
Proof.
  intros Hind Hcompute Hcolour Hij H1 H2.
  destruct (decide (0 < part_size part)) as [Hsize|Hzero].
  - rewrite compute_indirect in Hcompute by done. injection Hcompute as <-.
    apply list_elem_of_fmap in Hcolour as ([bs U] & -> & Hin).
    pose proof (colour_classes_ok
                  ((λ en, block_targets loop_args en.1 en.2)
                     <$> zip (offset (FakePlan part 1024)) (nelems (FakePlan part 1024))))
      as Hok.
    rewrite Forall_forall in Hok. destruct (Hok _ Hin) as [_ Hdis].
    unfold _get_plan. rewrite Hind, !written_coloured.
    by apply (Hdis i j).
  - unfold _compute in Hcompute. rewrite bool_decide_eq_false_2 in Hcompute by done.
    injection Hcompute as <-. by apply elem_of_nil in Hcolour.
Qed.

(** Blocks of one cell each, for the loop P over four cells: neighbouring
    cells share a node and get different colours. *)
Example colours_of_four_cells :
  (colour_classes ((λ e, block_targets (args loopP) e 1) <$> seq 0 4)).*1
  = [[0; 2]; [1; 3]].
Proof. vm_compute. reflexivity. Qed.

(** Two blocks writing apart share the one colour; the theorem gives their
    disjointness. *)
Lemma same_colour_blocks_disjoint_witness :
  _compute scatter_args all_wide = Ok [[0; 1]]
  ∧ written scatter_args (_get_plan scatter_args all_wide 1024) 0
    ∩ written scatter_args (_get_plan scatter_args all_wide 1024) 1 = ∅.
Proof.
  assert (_compute scatter_args all_wide = Ok [[0; 1]]) as Hc
    by (vm_compute; reflexivity).
  split; [exact Hc|].
  apply (same_colour_blocks_disjoint scatter_args all_wide [[0; 1]] [0; 1] 0 1 0 1).
  - reflexivity.
  - exact Hc.
  - apply elem_of_cons. left. reflexivity.
  - discriminate.
  - reflexivity.
  - reflexivity.
Defined.

(** Two blocks that write the same location are run one after the other. *)
Example colliding_blocks_two_colours :
  _compute collide_args all_wide = Ok [[0]; [1]].
Proof. vm_compute. reflexivity. Qed.

(** * Further properties of the code

    ** The dependency analyser *)

Lemma data_set_from (l : Loop) (L : list Arg) (d : Data) :
  (∀ a, a ∈ L → a ∈ args l) → d ∈ data_set L → touches l d.
Proof.
  intros Hsub (a & Ha & Hd)%elem_of_data_set. exists a. auto.
Qed.

Lemma reads_from (l : Loop) (a : Arg) : a ∈ reads l → a ∈ args l.
Proof. unfold reads. rewrite elem_of_remove_dups, list_elem_of_filter. tauto. Qed.

Lemma writes_from (l : Loop) (a : Arg) : a ∈ writes l → a ∈ args l.
Proof. unfold writes. rewrite elem_of_remove_dups, list_elem_of_filter. tauto. Qed.

Lemma incs_from (l : Loop) (a : Arg) : a ∈ incs l → a ∈ args l.
Proof. unfold incs. rewrite elem_of_remove_dups, list_elem_of_filter. tauto. Qed.

Lemma inc_writes_from (l : Loop) (a : Arg) :
  a ∈ set_union_list (incs l) (writes l) → a ∈ args l.
Proof.
  unfold set_union_list. rewrite elem_of_remove_dups, elem_of_app.
  intros [H|H]; [by apply incs_from|by apply writes_from].
Qed.

Lemma filter_from (l : Loop) (P : Arg → Prop) `{∀ a, Decision (P a)} (L : list Arg) :
  (∀ a, a ∈ L → a ∈ args l) → ∀ a, a ∈ filter P L → a ∈ args l.
Proof. intros Hsub a [_ Ha]%list_elem_of_filter. auto. Qed.

Lemma meet_false_apart (loop1 loop2 : Loop) (X Y : list Arg) :
  (∀ d, ¬ (touches loop1 d ∧ touches loop2 d)) →
  (∀ a, a ∈ X → a ∈ args loop1) → (∀ a, a ∈ Y → a ∈ args loop2) →
  meet (data_set X) (data_set Y) = false.
Proof.
  intros Hapart HX HY. apply not_true_is_false. intros (d & H1 & H2)%meet_true.
  apply (Hapart d). split; eapply data_set_from; eauto.
Qed.

(** X1. Two loops that access no common datum present no hazard of any
    kind, and are not a pure increment pair either. *)
Theorem disjoint_data_no_hazard (loop1 loop2 : Loop) :
  (∀ d, ¬ (touches loop1 d ∧ touches loop2 d)) →
  direct_w (loops_analyzer loop1 loop2) = false
  ∧ indirect_w (loops_analyzer loop1 loop2) = false
  ∧ pure_iai (loops_analyzer loop1 loop2) = false.
Proof.
  intros Hapart.
  assert (∀ X Y, (∀ a, a ∈ X → a ∈ args loop1) → (∀ a, a ∈ Y → a ∈ args loop2) →
            meet (data_set X) (data_set Y) = false) as Hmeet
    by (intros; by apply (meet_false_apart loop1 loop2)).
  pose proof (reads_from loop1) as R1. pose proof (reads_from loop2) as R2.
  pose proof (writes_from loop1) as W1. pose proof (writes_from loop2) as W2.
  pose proof (incs_from loop1) as I1. pose proof (incs_from loop2) as I2.
  pose proof (inc_writes_from loop1) as IW1. pose proof (inc_writes_from loop2) as IW2.
  cbn [loops_analyzer direct_w indirect_w pure_iai].
  unfold dir_inc_writes, dir_reads, ind_inc_writes, ind_reads, all_writes, all_reads,
    all_incs.
  rewrite !Hmeet by (first [assumption | apply filter_from; assumption]).
  rewrite !andb_false_r. done.
Qed.

(** A touches x and y, Q touches g. *)
Lemma disjoint_data_no_hazard_witness :
  direct_w (loops_analyzer loopA loopQ) = false
  ∧ indirect_w (loops_analyzer loopA loopQ) = false
  ∧ pure_iai (loops_analyzer loopA loopQ) = false.
Proof.
  apply (disjoint_data_no_hazard loopA loopQ).
  intros d [(a & Ha & Hda) (b & Hb & Hdb)]. cbn in Ha, Hb.
  apply list_elem_of_singleton in Hb. subst b.
  rewrite !elem_of_cons, elem_of_nil in Ha.
  destruct Ha as [->|[->|[]]]; subst d; discriminate Hdb.
Defined.

Lemma meet_comm (x y : gset Data) : meet x y = meet y x.
Proof. unfold meet. by rewrite (comm_L (∩)). Qed.

Lemma apart_comm (x y : gset Data) : apart x y = apart y x.
Proof. unfold apart. by rewrite (comm_L (∩)). Qed.

(** X2. Swapping the two loops swaps read-after-write with
    write-after-read and leaves the other answers as they are. *)
Theorem loops_analyzer_swap (loop1 loop2 : Loop) :
  let a := loops_analyzer loop1 loop2 in
  let b := loops_analyzer loop2 loop1 in
  homogeneous b = homogeneous a
  ∧ heterogeneous b = heterogeneous a
  ∧ direct_raw b = direct_war a
  ∧ direct_war b = direct_raw a
  ∧ direct_waw b = direct_waw a
  ∧ direct_w b = direct_w a
  ∧ indirect_raw b = indirect_war a
  ∧ indirect_war b = indirect_raw a
  ∧ indirect_waw b = indirect_waw a
  ∧ indirect_w b = indirect_w a
  ∧ pure_iai b = pure_iai a.
Proof.
  cbn [loops_analyzer homogeneous heterogeneous direct_raw direct_war direct_waw
       direct_w indirect_raw indirect_war indirect_waw indirect_w pure_iai].
  assert (bool_decide (it_space loop2 = it_space loop1)
          = bool_decide (it_space loop1 = it_space loop2)) as ->
    by (apply bool_decide_ext; split; congruence).
  set (h := bool_decide (it_space loop1 = it_space loop2)).
  rewrite (meet_comm (dir_inc_writes loop2) (dir_reads loop1)),
          (meet_comm (dir_reads loop2) (dir_inc_writes loop1)),
          (meet_comm (dir_inc_writes loop2) (dir_inc_writes loop1)),
          (meet_comm (ind_inc_writes loop2) (ind_reads loop1)),
          (meet_comm (ind_reads loop2) (ind_inc_writes loop1)),
          (meet_comm (ind_inc_writes loop2) (ind_inc_writes loop1)),
          (meet_comm (all_writes loop2) (all_reads loop1)),
          (meet_comm (all_reads loop2) (all_writes loop1)),
          (meet_comm (all_writes loop2) (all_writes loop1)),
          (meet_comm (all_incs loop2) (all_incs loop1)),
          (apart_comm (all_writes loop2) (all_reads loop1)),
          (apart_comm (all_reads loop2) (all_writes loop1)).
  repeat split; try reflexivity;
    repeat match goal with |- context [meet ?x ?y] => generalize (meet x y); intros ? end;
    repeat match goal with |- context [apart ?x ?y] => generalize (apart x y); intros ? end;
    destruct h; repeat match goal with b : bool |- _ => destruct b end; reflexivity.
Qed.

Lemma args_add_arg (l : Loop) (a : Arg) (P : Access → Prop) (d : Data) :
  (∃ b, b ∈ args (add_arg l a) ∧ P (access b) ∧ data b = d)
  ↔ (∃ b, b ∈ args l ∧ P (access b) ∧ data b = d) ∨ (P (access a) ∧ data a = d).
Proof.
  cbn. split.
  - intros (b & [Hb| ->%list_elem_of_singleton]%elem_of_app & HP & Hd); eauto.
  - intros [(b & Hb & HP & Hd)|[HP Hd]].
    + exists b. rewrite elem_of_app. auto.
    + exists a. rewrite elem_of_app, list_elem_of_singleton. auto.
Qed.

Lemma all_incs_add (l : Loop) (a : Arg) :
  access a ≠ INC → all_incs (add_arg l a) = all_incs l.
Proof.
  intros Hacc. apply set_eq. intros d. rewrite !elem_of_all_incs. unfold increments.
  rewrite (args_add_arg l a (λ x, x = INC)). tauto.
Qed.

Lemma all_reads_add (l : Loop) (a : Arg) :
  access a ∉ [READ; RW] → all_reads (add_arg l a) = all_reads l.
Proof.
  intros Hacc. apply set_eq. intros d. rewrite !elem_of_all_reads. unfold reads_datum.
  rewrite (args_add_arg l a (λ x, x ∈ [READ; RW])). tauto.
Qed.

Lemma all_writes_add (l : Loop) (a : Arg) :
  access a ∈ [WRITE; RW; MIN; MAX] →
  all_writes (add_arg l a) = all_writes l ∪ {[data a]}.
Proof.
  intros Hacc. apply set_eq. intros d.
  rewrite elem_of_union, elem_of_singleton, !elem_of_all_writes. unfold writes_datum.
  rewrite (args_add_arg l a (λ x, x ∈ [WRITE; RW; MIN; MAX])).
  split; (intros [H|H]; [by left|right]); [symmetry; tauto|by split].
Qed.

Lemma apart_add_unread (W R : gset Data) (d : Data) :
  d ∉ R → apart (W ∪ {[d]}) R = apart W R.
Proof.
  intros Hd. unfold apart. apply bool_decide_ext.
  rewrite !elem_of_equiv_empty_L.
  split; intros H x; specialize (H x);
    rewrite elem_of_intersection, ?elem_of_union, ?elem_of_singleton in *.
  - tauto.
  - intros [[HW| ->] HR]; tauto.
Qed.

(** X3. [pure_iai] does not look at write-after-write: giving both loops
    a WRITE, MIN or MAX argument on a datum that neither reads leaves
    [pure_iai] as it was, although the two loops now write the same datum. *)
Theorem pure_iai_ignores_common_writes (loop1 loop2 : Loop) (d : Data)
    (acc1 acc2 : Access) (m1 m2 : ArgMap) :
  acc1 ∈ [WRITE; MIN; MAX] → acc2 ∈ [WRITE; MIN; MAX] →
  ¬ reads_datum loop1 d → ¬ reads_datum loop2 d →
  pure_iai (loops_analyzer (add_arg loop1 (mkArg d acc1 m1))
                           (add_arg loop2 (mkArg d acc2 m2)))
  = pure_iai (loops_analyzer loop1 loop2)
  ∧ meet (all_writes (add_arg loop1 (mkArg d acc1 m1)))
         (all_writes (add_arg loop2 (mkArg d acc2 m2))) = true.
Proof.
  intros H1 H2 Hr1 Hr2.
  assert (∀ acc, acc ∈ [WRITE; MIN; MAX] →
            acc ≠ INC ∧ (acc ∉ [READ; RW]) ∧ acc ∈ [WRITE; RW; MIN; MAX]) as Hacc.
  { intros acc. rewrite !elem_of_cons, !elem_of_nil.
    intros [->|[->|[->|[]]]]; repeat split; try discriminate; try tauto;
      intros [|[|[]]]; discriminate. }
  destruct (Hacc acc1 H1) as (Hi1 & Hrd1 & Hw1).
  destruct (Hacc acc2 H2) as (Hi2 & Hrd2 & Hw2).
  cbn [loops_analyzer pure_iai].
  rewrite !all_incs_add, !all_reads_add, !all_writes_add by done. cbn [data].
  split.
  - rewrite (apart_add_unread (all_writes loop1) (all_reads loop2) d)
      by by rewrite elem_of_all_reads.
    rewrite (apart_comm (all_reads loop1)),
            (apart_add_unread (all_writes loop2) (all_reads loop1) d)
      by by rewrite elem_of_all_reads.
    by rewrite (apart_comm (all_writes loop2)).
  - apply meet_true. exists d. rewrite !elem_of_union, !elem_of_singleton. auto.
Qed.

(** P and R are a pure increment pair; they stay one when both also write
    a datum w. *)
Lemma pure_iai_ignores_common_writes_witness :
  pure_iai (loops_analyzer (add_arg loopP (mkArg "w" WRITE NoMap))
                           (add_arg loopR (mkArg "w" WRITE NoMap))) = true
  ∧ meet (all_writes (add_arg loopP (mkArg "w" WRITE NoMap)))
         (all_writes (add_arg loopR (mkArg "w" WRITE NoMap))) = true.
Proof.
  destruct (pure_iai_ignores_common_writes loopP loopR "w" WRITE WRITE NoMap NoMap)
    as [Hsame Hwaw].
  - apply elem_of_cons. left. reflexivity.
  - apply elem_of_cons. left. reflexivity.
  - intros (a & Ha & Hacc & _). cbn in Ha. apply list_elem_of_singleton in Ha.
    subst a. cbn in Hacc. rewrite !elem_of_cons, elem_of_nil in Hacc.
    destruct Hacc as [|[|[]]]; discriminate.
  - intros (a & Ha & Hacc & _). cbn in Ha. apply list_elem_of_singleton in Ha.
    subst a. cbn in Hacc. rewrite !elem_of_cons, elem_of_nil in Hacc.
    destruct Hacc as [|[|[]]]; discriminate.
  - split; [|exact Hwaw]. rewrite Hsame. vm_compute. reflexivity.
Defined.

(** ** Soft fusion *)

Lemma no_indirect_empty (l : Loop) (L : list Arg) :
  no_indirect_arg l → (∀ a, a ∈ L → a ∈ args l) →
  data_set (filter (λ a, _is_indirect a = true) L) = ∅.
Proof.
  intros Hno Hsub. rewrite filter_none; [done|].
  intros a Ha. rewrite (Hno a (Hsub a Ha)). discriminate.
Qed.

Lemma meet_empty_l (y : gset Data) : meet ∅ y = false.
Proof.
  apply not_true_is_false. intros (d & Hd & _)%meet_true. by apply not_elem_of_empty in Hd.
Qed.

Lemma meet_empty_r (x : gset Data) : meet x ∅ = false.
Proof. by rewrite meet_comm, meet_empty_l. Qed.

Lemma unfusible_direct_first (loop1 loop2 : Loop) :
  it_space loop1 = it_space loop2 → no_indirect_arg loop1 →
  unfusible loop1 loop2 = false.
Proof.
  intros Hsame Hno. unfold unfusible.
  cbn [loops_analyzer heterogeneous indirect_w].
  rewrite (bool_decide_eq_true_2 _ Hsame). cbn [negb andb orb].
  unfold ind_inc_writes, ind_reads.
  rewrite (no_indirect_empty loop1 (reads loop1)),
          (no_indirect_empty loop1 (set_union_list (incs loop1) (writes loop1)))
    by (auto using reads_from, inc_writes_from).
  by rewrite !meet_empty_l.
Qed.

(** X4. Two loops over the same iteration space pass the test of soft
    fusion as soon as one of them has no indirect argument ("they are both
    direct, or one is direct and the other indirect"). *)
Theorem one_direct_loop_fusible (loop1 loop2 : Loop) :
  it_space loop1 = it_space loop2 →
  no_indirect_arg loop1 ∨ no_indirect_arg loop2 →
  unfusible loop1 loop2 = false.
Proof.
  intros Hsame Hdirect. unfold unfusible.
  cbn [loops_analyzer heterogeneous indirect_w].
  rewrite (bool_decide_eq_true_2 _ Hsame). cbn [negb andb orb].
  unfold ind_inc_writes, ind_reads.
  destruct Hdirect as [Hno|Hno].
  - rewrite (no_indirect_empty loop1 (reads loop1)),
            (no_indirect_empty loop1 (set_union_list (incs loop1) (writes loop1)))
      by (auto using reads_from, inc_writes_from).
    by rewrite !meet_empty_l.
  - rewrite (no_indirect_empty loop2 (reads loop2)),
            (no_indirect_empty loop2 (set_union_list (incs loop2) (writes loop2)))
      by (auto using reads_from, inc_writes_from).
    by rewrite !meet_empty_r.
Qed.

(** A is direct; the loop over cells that increments f through cell2cell
    can be fused after it. *)
Lemma one_direct_loop_fusible_witness : unfusible loopA loopT = false.
Proof.
  apply one_direct_loop_fusible; [reflexivity|]. left.
  intros a Ha. cbn in Ha. rewrite !elem_of_cons, elem_of_nil in Ha.
  destruct Ha as [->|[->|[]]]; reflexivity.
Defined.

Lemma build_soft_fusion_kernel_fields (g : list Loop) (k : nat) (fk : FusedKernel) :
  build_soft_fusion_kernel g k = Ok fk →
  fused_kernels fk = kernel <$> g ∧ loop_chain_index fk = k ∧ g ≠ [].
Proof.
  unfold build_soft_fusion_kernel. destruct g as [|l ls]; cbn; [done|].
  intros [= <-]. done.
Qed.

Lemma emit_kernels (groups : list (list Loop)) :
  ∀ k off hs,
    emit k off groups = Ok hs →
    concat (fused_kernels <$> hs.*1) = kernel <$> concat groups
    ∧ loop_chain_index <$> hs.*1 = seq k (length hs)
    ∧ hs.*2 = running off ((λ fk, length (fused_kernels fk)) <$> hs.*1)
    ∧ Forall (λ h, fused_kernels h.1 ≠ []) hs.
Proof.
  induction groups as [|g groups IH]; intros k off hs; cbn [emit].
  - intros [= <-]. done.
  - destruct (build_soft_fusion_kernel g k) as [fk|e] eqn:Hfk;
      cbn [mbind result_bind]; [|done].
    destruct (emit (S k) (off + length g) groups) as [hs'|e] eqn:Hrest;
      cbn [mbind result_bind]; [|done].
    intros [= <-].
    destruct (build_soft_fusion_kernel_fields g k fk Hfk) as (Hks & Hidx & Hne).
    destruct (IH _ _ _ Hrest) as (Hcat & Hseq & Hrun & Hall).
    cbn. rewrite Hks, Hidx, Hcat, Hseq, length_fmap, fmap_app.
    split; [done|]. split; [done|]. split; [by rewrite Hrun|].
    constructor; [|done]. cbn. rewrite Hks. by destruct g.
Qed.

(** X5. Soft fusion raises [IndexError] on the empty chain.  On any other
    chain it returns fused kernels that hold the kernels of the chain, each
    once, in order; the [k]-th fused kernel carries the index [k], is not
    empty, and is paired with the number of kernels up to its end. *)
Theorem soft_fuse_keeps_kernels (loop_chain : list Loop) :
  (loop_chain = [] → _soft_fuse loop_chain = Raise IndexError)
  ∧ (loop_chain ≠ [] →
     ∃ handled,
       _soft_fuse loop_chain = Ok handled
       ∧ concat (fused_kernels <$> handled.*1) = kernel <$> loop_chain
       ∧ loop_chain_index <$> handled.*1 = seq 0 (length handled)
       ∧ handled.*2 = running 0 ((λ fk, length (fused_kernels fk)) <$> handled.*1)
       ∧ Forall (λ h, fused_kernels h.1 ≠ []) handled).
Proof.
  split; [by intros ->|].
  destruct loop_chain as [|first rest]; [done|]. intros _.
  destruct (soft_fuse_scan_groups rest [] [first] 0 0)
    as (t & gs & Hcat & Hnes & Hruns & Hbr & Heq);
    [done|apply is_run_singleton|done|].
  assert (_soft_fuse (first :: rest)
          = emit 0 0 (([first] ++ t) :: gs) ≫= λ hs, Ok ([] ++ hs)) as Hsoft.
  { etransitivity; [|exact Heq]. reflexivity. }
  destruct (emit 0 0 (([first] ++ t) :: gs)) as [hs|e] eqn:Hemit.
  - exists hs. split; [exact Hsoft|].
    destruct (emit_kernels _ _ _ _ Hemit) as (Hk & Hidx & Hrun & Hall).
    rewrite Hk, Hcat. done.
  - exfalso. rewrite emit_cons in Hemit.
    destruct (build_soft_fusion_kernel_cons first t 0) as [fk Hfk].
    change ([first] ++ t) with (first :: t) in Hemit. rewrite Hfk in Hemit.
    cbn [mbind result_bind] in Hemit.
    assert (∀ gs k off, Forall (λ g : list Loop, g ≠ []) gs →
              ∃ hs, emit k off gs = Ok hs) as Htotal.
    { clear. induction gs as [|g gs IH]; intros k off Hne; [by exists []|].
      inversion Hne as [|? ? Hg Hgs]; subst. destruct g as [|l ls]; [done|].
      destruct (build_soft_fusion_kernel_cons l ls k) as [fk Hfk].
      destruct (IH (S k) (off + length (l :: ls)) Hgs) as (hs & Hhs).
      eexists. rewrite emit_cons, Hfk. cbn [mbind result_bind]. rewrite Hhs. done. }
    destruct (Htotal gs 1 (0 + length (first :: t)) Hnes) as [hs Hhs].
    rewrite Hhs in Hemit. done.
Qed.

(** The chain A, B, C: the kernels A and B, then C. *)
Lemma soft_fuse_keeps_kernels_witness :
  ∃ handled,
    _soft_fuse [loopA; loopB; loopC] = Ok handled
    ∧ concat (fused_kernels <$> handled.*1) = kernel <$> [loopA; loopB; loopC]
    ∧ handled.*2 = [2; 3].
Proof.
  destruct (soft_fuse_keeps_kernels [loopA; loopB; loopC]) as [_ H].
  destruct (H ltac:(discriminate)) as (handled & Hs & Hk & _ & _ & _).
  exists handled. split; [exact Hs|]. split; [exact Hk|].
  assert (_soft_fuse [loopA; loopB; loopC] = Ok handled) as Hs' by exact Hs.
  vm_compute in Hs'. injection Hs' as <-. reflexivity.
Defined.

Lemma soft_fuse_scan_all_fusible (rest : list Loop) :
  ∀ handled fusing i,
    fusing ≠ [] →
    (∀ a b, a ∈ fusing ++ rest → b ∈ fusing ++ rest → unfusible a b = false) →
    soft_fuse_scan handled fusing i rest = Ok (handled, fusing ++ rest).
Proof.
  induction rest as [|loop rest IH]; intros handled fusing i Hne Hall; cbn.
  - by rewrite app_nil_r.
  - destruct (last fusing) as [base|] eqn:Hlast; [|by apply last_None in Hlast].
    rewrite Hall.
    + rewrite IH; [by rewrite <- app_assoc|by destruct fusing|].
      rewrite <- app_assoc. exact Hall.
    + apply elem_of_app. left. apply last_Some in Hlast as [pre ->].
      apply elem_of_app. right. by apply list_elem_of_singleton.
    + apply elem_of_app. right. by left.
Qed.

(** X6. A chain of loops over one iteration space, none of which has an
    indirect argument, is fused into a single kernel that ends at the end of
    the chain. *)
Theorem soft_fuse_direct_chain (first : Loop) (rest : list Loop) :
  Forall (λ l, it_space l = it_space first ∧ no_indirect_arg l) (first :: rest) →
  ∃ fk,
    build_soft_fusion_kernel (first :: rest) 0 = Ok fk
    ∧ _soft_fuse (first :: rest) = Ok [(fk, length (first :: rest))].
Proof.
  intros Hall. rewrite Forall_forall in Hall.
  destruct (build_soft_fusion_kernel_cons first rest 0) as [fk Hfk].
  exists fk. split; [exact Hfk|].
  unfold _soft_fuse. rewrite soft_fuse_scan_all_fusible; [| done |].
  - cbn [mbind result_bind]. unfold soft_fuse_flush. cbn [fst snd app length].
    rewrite Hfk. reflexivity.
  - intros a b Ha Hb. destruct (Hall a Ha) as [Hsa Hda]. destruct (Hall b Hb) as [Hsb _].
    apply unfusible_direct_first; [congruence|done].
Qed.

(** A and B are direct loops over cells. *)
Lemma soft_fuse_direct_chain_witness :
  ∃ fk, build_soft_fusion_kernel [loopA; loopB] 0 = Ok fk
        ∧ _soft_fuse [loopA; loopB] = Ok [(fk, 2)].
Proof.
  apply (soft_fuse_direct_chain loopA [loopB]).
  repeat constructor; intros a Ha; cbn in Ha;
    rewrite !elem_of_cons, elem_of_nil in Ha;
    destruct Ha as [->|[->|[]]]; reflexivity.
Defined.




(** ** Hard fusion *)

(** X8. The search of hard fusion returns no pair on the empty chain,
    raises [UnboundLocalError] on a chain of one loop, where the increment
    of the base index reads a variable that only the inner loop assigns, and
    returns on every longer chain. *)
Theorem hard_fuse_search_outcome (loop_chain : list Loop) :
  (loop_chain = [] → hard_fuse_search loop_chain = Ok (Some []))
  ∧ (length loop_chain = 1 → hard_fuse_search loop_chain = Raise (UnboundLocalError "i"))
  ∧ (2 ≤ length loop_chain → ∃ fusible, hard_fuse_search loop_chain = Ok (Some fusible)).
Proof.
  split; [by intros ->|]. split.
  - destruct loop_chain as [|l [|? ?]]; try done.
  - intros Hlen. apply hard_fuse_search_returns. lia.
Qed.

Lemma hard_fuse_search_outcome_witness :
  hard_fuse_search [loopP] = Raise (UnboundLocalError "i")
  ∧ ∃ fusible, hard_fuse_search [loopP; loopR] = Ok (Some fusible).
Proof.
  destruct (hard_fuse_search_outcome [loopP]) as (_ & H1 & _).
  destruct (hard_fuse_search_outcome [loopP; loopR]) as (_ & _ & H2).
  split; [apply H1; reflexivity|apply H2; cbn; lia].
Defined.

Lemma pure_iai_sym (loop1 loop2 : Loop) :
  pure_iai (loops_analyzer loop2 loop1) = pure_iai (loops_analyzer loop1 loop2).
Proof.
  cbn [loops_analyzer pure_iai].
  rewrite (meet_comm (all_incs loop2)), (apart_comm (all_writes loop2)),
          (apart_comm (all_reads loop2)).
  generalize (meet (all_incs loop1) (all_incs loop2)).
  generalize (apart (all_reads loop1) (all_writes loop2)).
  generalize (apart (all_writes loop1) (all_reads loop2)).
  by intros [] [] [].
Qed.

Lemma settle_accept_inv (common_incs : list Arg) (b f b' f' : Loop) (m m' : Map)
    (c : Arg) :
  settle common_incs b f m = Ok (Accept b' f' m' c) →
  b' = b ∧ f' = f ∧ m' = m ∧ c ∈ common_incs ∧ c ∈ args b.
Proof.
  unfold settle. destruct (existsb _ _); [done|].
  destruct (filter _ common_incs) as [|x xs] eqn:Hf; [done|].
  intros [= <- <- <- <-].
  assert (x ∈ filter (λ a, a ∈ args b) common_incs) as Hx by (rewrite Hf; left).
  apply list_elem_of_filter in Hx as [? ?]. done.
Qed.

Lemma hard_fuse_pair_accept_inv (base_loop loop b f : Loop) (m : Map) (c : Arg) :
  hard_fuse_pair base_loop loop = Ok (Accept b f m c) →
  (b = base_loop ∧ f = loop ∨ b = loop ∧ f = base_loop)
  ∧ it_space b ≠ it_space f
  ∧ iterset (it_space b) = map_iterset (map_core m)
  ∧ iterset (it_space f) = map_toset (map_core m)
  ∧ inc_map base_loop loop m
  ∧ c ∈ args b ∧ access c = INC
  ∧ pure_iai (loops_analyzer b f) = true.
Proof.
  unfold hard_fuse_pair. cbn [loops_analyzer homogeneous].
  destruct (bool_decide (it_space base_loop = it_space loop)) eqn:Hhom; [done|].
  apply bool_decide_eq_false in Hhom.
  destruct (pure_iai _) eqn:Hiai; cbn [negb]; [|done].
  destruct (common_incs_of base_loop loop) eqn:Hci; [done|]. rewrite <- Hci.
  assert (∀ x, x ∈ common_incs_of base_loop loop → access x = INC) as Hinc.
  { intros x [Hx|Hx]%common_incs_elem; by apply incs_elem in Hx as [_ ?]. }
  destruct (filter (connects (iterset (it_space base_loop)) (iterset (it_space loop)))
                   (candidate_maps (common_incs_of base_loop loop))) as [|m1 ?] eqn:H1.
  - destruct (filter (connects (iterset (it_space loop)) (iterset (it_space base_loop)))
                     (candidate_maps (common_incs_of base_loop loop)))
      as [|m2 ?] eqn:H2; [done|].
    intros (-> & -> & -> & Hc & Hcb)%settle_accept_inv.
    assert (m2 ∈ filter (connects (iterset (it_space loop)) (iterset (it_space base_loop)))
                        (candidate_maps (common_incs_of base_loop loop))) as Hm
      by (rewrite H2; left).
    apply list_elem_of_filter in Hm as [[Hi Ht] Hm].
    repeat split; auto using candidate_maps_inc_map.
    by rewrite pure_iai_sym.
  - intros (-> & -> & -> & Hc & Hcb)%settle_accept_inv.
    assert (m1 ∈ filter (connects (iterset (it_space base_loop)) (iterset (it_space loop)))
                        (candidate_maps (common_incs_of base_loop loop))) as Hm
      by (rewrite H1; left).
    apply list_elem_of_filter in Hm as [[Hi Ht] Hm].
    repeat split; auto using candidate_maps_inc_map.
Qed.

Lemma forward_scan_found_inv (base_loop : Loop) (candidates : list Loop) :
  ∀ i last_i i' b f m c,
    forward_scan base_loop i candidates last_i = Ok (i', Some (b, f, m, c)) →
    ∃ loop, loop ∈ candidates ∧ hard_fuse_pair base_loop loop = Ok (Accept b f m c).
Proof.
  induction candidates as [|loop rest IH]; intros i last_i i' b f m c; cbn; [done|].
  destruct (hard_fuse_pair base_loop loop) as [[| |b' f' m' c']|e] eqn:Hv;
    cbn [mbind result_bind]; try done.
  - intros (l & Hl & Hp)%IH. exists l. split; [by right|done].
  - intros [= <- <- <- <- <-]. exists loop. split; [by left|done].
Qed.

(** A tuple is sound for a chain: both loops are loops of the chain over
    different iteration spaces, the map goes from the iteration set of the
    base loop to that of the fuse loop, and the shared argument is an INC
    argument of the base loop. *)
Lemma base_scan_sound (P : Fusible → Prop) (loop_chain : list Loop) :
  (∀ base_loop loop b f m c,
     base_loop ∈ loop_chain → loop ∈ loop_chain →
     hard_fuse_pair base_loop loop = Ok (Accept b f m c) → P (b, f, m, c)) →
  ∀ fuel base_loop_index i fusible fusible',
    Forall P fusible →
    base_scan fuel loop_chain base_loop_index i fusible = Ok (Some fusible') →
    Forall P fusible'.
Proof.
  intros HP. induction fuel as [|fuel IH]; intros idx i fusible fusible' Hall; cbn; [done|].
  destruct (loop_chain !! idx) as [base_loop|] eqn:Hidx; [|by intros [= <-]].
  destruct (forward_scan _ _ _ _) as [[i' found]|e] eqn:Hscan;
    cbn [mbind result_bind]; [|done].
  destruct i' as [n|]; [|done].
  apply IH. apply Forall_app. split; [done|].
  destruct found as [[[[b f] m] c]|]; cbn; [|constructor].
  constructor; [|constructor].
  apply forward_scan_found_inv in Hscan as (loop & Hl & Hp).
  eapply HP; [| |exact Hp].
  - eapply list_elem_of_lookup_2; eauto.
  - apply list_elem_of_lookup in Hl as [k Hk]. rewrite lookup_drop in Hk.
    eapply list_elem_of_lookup_2; eauto.
Qed.

(** X9. In every tuple the search accepts, the base and the fuse loop are
    loops of the chain over different iteration spaces, the fusion map goes
    from the iteration set of the base loop to that of the fuse loop, the
    shared argument is an INC argument of the base loop, and the two loops
    are a pure increment pair. *)
Theorem hard_fuse_tuple_sound (loop_chain : list Loop) (fusible : list Fusible)
    (b f : Loop) (m : Map) (c : Arg) :
  hard_fuse_search loop_chain = Ok (Some fusible) →
  (b, f, m, c) ∈ fusible →
  b ∈ loop_chain ∧ f ∈ loop_chain
  ∧ it_space b ≠ it_space f
  ∧ map_iterset (map_core m) = iterset (it_space b)
  ∧ map_toset (map_core m) = iterset (it_space f)
  ∧ c ∈ args b ∧ access c = INC
  ∧ pure_iai (loops_analyzer b f) = true.
Proof.
  intros Hsearch Hin.
  apply (base_scan_sound
           (λ t, t.1.1.1 ∈ loop_chain ∧ t.1.1.2 ∈ loop_chain
                 ∧ it_space t.1.1.1 ≠ it_space t.1.1.2
                 ∧ map_iterset (map_core t.1.2) = iterset (it_space t.1.1.1)
                 ∧ map_toset (map_core t.1.2) = iterset (it_space t.1.1.2)
                 ∧ t.2 ∈ args t.1.1.1 ∧ access t.2 = INC
                 ∧ pure_iai (loops_analyzer t.1.1.1 t.1.1.2) = true)) in Hsearch.
  - rewrite Forall_forall in Hsearch. exact (Hsearch _ Hin).
  - intros base_loop loop b' f' m' c' Hb Hl Hp. cbn.
    apply hard_fuse_pair_accept_inv in Hp
      as (Hroles & Hne & Hi & Ht & _ & Hc & Hacc & Hiai).
    destruct Hroles as [[-> ->]|[-> ->]]; done.
  - constructor.
Qed.

Lemma hard_fuse_tuple_sound_witness :
  map_iterset (map_core cell2node) = iterset (it_space loopP)
  ∧ map_toset (map_core cell2node) = iterset (it_space loopR)
  ∧ pure_iai (loops_analyzer loopP loopR) = true.
Proof.
  assert (hard_fuse_search [loopP; loopR]
          = Ok (Some [(loopP, loopR, cell2node, mkArg "f" INC (OneMap cell2node))]))
    as Hs by (vm_compute; reflexivity).
  destruct (hard_fuse_tuple_sound [loopP; loopR] _ loopP loopR cell2node
              (mkArg "f" INC (OneMap cell2node)) Hs)
    as (_ & _ & _ & Hi & Ht & _ & _ & Hiai).
  - apply list_elem_of_singleton. reflexivity.
  - split; [exact Hi|]. split; [exact Ht|exact Hiai].
Defined.

(** ** The staging offsets of the orchestrator *)

Lemma mapM_index_segment {A : Type} (pre g suf : list A) :
  mapM (λ j, index (pre ++ g ++ suf) (length pre + j)) (seq 0 (length g)) = Ok g.
Proof.
  revert pre. induction g as [|x g IH]; intros pre; [done|].
  cbn [length seq mapM].
  replace (index (pre ++ (x :: g) ++ suf) (length pre + 0)) with (Ok x).
  2:{ unfold index. rewrite lookup_app_r by lia.
      by replace (length pre + 0 - length pre) with 0 by lia. }
  cbn [mbind result_bind].
  specialize (IH (pre ++ [x])).
  replace ((pre ++ [x]) ++ g ++ suf) with (pre ++ (x :: g) ++ suf) in IH
    by by rewrite <- app_assoc.
  rewrite <- fmap_S_seq.
  assert (∀ l : list nat,
            mapM (λ j, index (pre ++ (x :: g) ++ suf) (length pre + j)) (S <$> l)
            = mapM (λ j, index (pre ++ (x :: g) ++ suf) (length (pre ++ [x]) + j)) l)
    as Hshift.
  { induction l as [|j l IHl]; [done|]. cbn [fmap list_fmap mapM].
    rewrite length_app. cbn [length].
    replace (length pre + 1 + j) with (length pre + S j) by lia.
    change (list_fmap nat nat S l) with (S <$> l). rewrite IHl.
    rewrite length_app. cbn [length]. done. }
  rewrite Hshift, IH. done.
Qed.

Lemma concat_chunk {A : Type} (chunks : list (list A)) (size idx : nat) (chunk : list A) :
  Forall (λ c, length c = size) chunks → chunks !! idx = Some chunk →
  ∃ pre suf, concat chunks = pre ++ chunk ++ suf ∧ length pre = idx * size.
Proof.
  intros Hall Hidx. exists (concat (take idx chunks)), (concat (drop (S idx) chunks)).
  split.
  - rewrite <- (take_drop_middle chunks idx chunk Hidx) at 1.
    by rewrite concat_app.
  - apply lookup_lt_Some in Hidx. revert idx Hidx.
    induction Hall as [|c chunks Hc _ IH]; intros idx Hidx; [cbn in Hidx; lia|].
    destruct idx as [|idx]; [done|]. cbn in *.
    rewrite length_app, Hc, IH by lia. done.
Qed.

Lemma mixed_radix_inj (b q q' r r' : nat) :
  r < b → r' < b → b * q + r = b * q' + r' → q = q' ∧ r = r'.
Proof.
  intros Hr Hr' Heq.
  destruct (lt_eq_lt_dec q q') as [[Hlt| ->]|Hgt]; [nia|lia|nia].
Qed.

Lemma NoDup_add_fmap (n : nat) (l : list nat) : NoDup l → NoDup ((λ k, n + k) <$> l).
Proof.
  intros Hl. apply NoDup_fmap_2_strong; [|done]. intros x y _ _. lia.
Qed.

Lemma concat_fmap_mbind {A B : Type} (f : A → list B) (l : list A) :
  concat (f <$> l) = l ≫= f.
Proof. induction l as [|x l IH]; [done|]. cbn. by rewrite IH. Qed.

Lemma elem_of_ofs_vals (fuse_arity fusion_arity cdim x : nat) :
  x ∈ ofs_vals fuse_arity fusion_arity cdim
  ↔ ∃ j c k, j < fusion_arity ∧ c < cdim ∧ k < fuse_arity
             ∧ x = fuse_arity * j + (fuse_arity * fusion_arity * c + k).
Proof.
  unfold ofs_vals. rewrite elem_of_concat. split.
  - intros (l & (j & -> & Hj%elem_of_seq)%list_elem_of_fmap & Hx).
    apply list_elem_of_fmap in Hx as (y & -> & Hy).
    apply elem_of_concat in Hy as (l' & (c & -> & Hc%elem_of_seq)%list_elem_of_fmap & Hy).
    apply list_elem_of_fmap in Hy as (k & -> & Hk%elem_of_seq).
    exists j, c, k. repeat split; lia.
  - intros (j & c & k & Hj & Hc & Hk & ->).
    eexists. split.
    + apply list_elem_of_fmap. exists j. split; [reflexivity|]. apply elem_of_seq. lia.
    + apply list_elem_of_fmap. eexists. split; [reflexivity|].
      apply elem_of_concat. eexists. split.
      * apply list_elem_of_fmap. exists c. split; [reflexivity|]. apply elem_of_seq. lia.
      * apply list_elem_of_fmap. exists k. split; [reflexivity|]. apply elem_of_seq. lia.
Qed.

Lemma NoDup_ofs_vals (fuse_arity fusion_arity cdim : nat) :
  NoDup (ofs_vals fuse_arity fusion_arity cdim).
Proof.
  destruct fusion_arity as [|fu]; [constructor|].
  unfold ofs_vals. rewrite !concat_fmap_mbind.
  set (base := fuse_arity * S fu).
  assert (NoDup (seq 0 cdim ≫= λ j, (λ k, base * j + k) <$> seq 0 fuse_arity)) as HF.
  { apply NoDup_bind; [| |apply NoDup_seq].
    - intros c c' y _ _ (k & -> & Hk%elem_of_seq)%list_elem_of_fmap
        (k' & Heq & Hk'%elem_of_seq)%list_elem_of_fmap.
      apply (mixed_radix_inj base c c' k k'); unfold base; nia.
    - intros c _. apply NoDup_add_fmap, NoDup_seq. }
  apply NoDup_bind; [| |apply NoDup_seq].
  - intros j j' y Hj%elem_of_seq Hj'%elem_of_seq
      (v & -> & Hv)%list_elem_of_fmap (v' & Heq & Hv')%list_elem_of_fmap.
    apply list_elem_of_bind in Hv as (c & Hv & Hc%elem_of_seq).
    apply list_elem_of_fmap in Hv as (k & -> & Hk%elem_of_seq).
    apply list_elem_of_bind in Hv' as (c' & Hv' & Hc'%elem_of_seq).
    apply list_elem_of_fmap in Hv' as (k' & -> & Hk'%elem_of_seq).
    assert (fuse_arity * (j + S fu * c) + k = fuse_arity * (j' + S fu * c') + k') as Heq'
      by (unfold base in Heq; nia).
    apply mixed_radix_inj in Heq' as [Heq' _]; [|lia..].
    assert (S fu * c + j = S fu * c' + j') as Heq'' by lia.
    apply mixed_radix_inj in Heq'' as [_ ?]; lia.
  - intros j _. by apply NoDup_add_fmap.
Qed.

Lemma ofs_vals_range (fuse_arity fusion_arity cdim x : nat) :
  x ∈ ofs_vals fuse_arity fusion_arity cdim ↔ x < cdim * (fuse_arity * fusion_arity).
Proof.
  rewrite elem_of_ofs_vals. split.
  - intros (j & c & k & Hj & Hc & Hk & ->).
    set (base := fuse_arity * fusion_arity).
    assert (fuse_arity * j + k < base) as H1.
    { assert (fuse_arity * S j ≤ fuse_arity * fusion_arity) as H
        by (apply Nat.mul_le_mono_l; lia).
      rewrite Nat.mul_succ_r in H. unfold base. lia. }
    assert (base * S c ≤ base * cdim) as H2 by (apply Nat.mul_le_mono_l; lia).
    rewrite Nat.mul_succ_r in H2. rewrite (Nat.mul_comm cdim). lia.
  - intros Hx.
    assert (0 < fuse_arity ∧ 0 < fusion_arity) as [Hfa Hfu] by nia.
    set (base := fuse_arity * fusion_arity) in *.
    assert (0 < base) as Hbase by (unfold base; nia).
    exists ((x mod base) / fuse_arity), (x / base), ((x mod base) mod fuse_arity).
    pose proof (Nat.div_mod_eq x base) as Hx1.
    pose proof (Nat.mod_upper_bound x base ltac:(lia)) as Hx2.
    pose proof (Nat.div_mod_eq (x mod base) fuse_arity) as Hr1.
    pose proof (Nat.mod_upper_bound (x mod base) fuse_arity ltac:(lia)) as Hr2.
    split; [apply Nat.Div0.div_lt_upper_bound; unfold base in *; lia|].
    split; [apply Nat.Div0.div_lt_upper_bound; nia|].
    split; [done|]. lia.
Qed.

Lemma length_concat_const {A : Type} (ls : list (list A)) (n : nat) :
  Forall (λ l, length l = n) ls → length (concat ls) = length ls * n.
Proof.
  induction 1 as [|l ls Hl _ IH]; [done|]. cbn. rewrite length_app, Hl, IH. lia.
Qed.

(** X10. The positions that the orchestrator computes for the
    sub-iterations [0 .. fusion_arity - 1] of an indirect argument never
    raise, and together they are the positions [0 .. cdim * base_arity - 1]
    of the buffer of the base kernel, each exactly once: no position is
    staged for two sub-iterations and none is left out. *)
Theorem staging_indices_partition (fuse_arity fusion_arity cdim : nat) :
  ∃ chunks,
    Forall2 (λ idx chunk, staging_indices fuse_arity fusion_arity cdim idx = Ok chunk)
            (seq 0 fusion_arity) chunks
    ∧ Forall (λ chunk, length chunk = fuse_arity * cdim) chunks
    ∧ concat chunks ≡ₚ seq 0 (cdim * (fuse_arity * fusion_arity)).
Proof.
  set (F := concat ((λ j, (λ k, fuse_arity * fusion_arity * j + k) <$> seq 0 fuse_arity)
                      <$> seq 0 cdim)).
  set (chunks := (λ j, (λ k, fuse_arity * j + k) <$> F) <$> seq 0 fusion_arity).
  assert (length F = fuse_arity * cdim) as HlenF.
  { unfold F. rewrite (length_concat_const _ fuse_arity).
    - rewrite length_fmap, length_seq. lia.
    - apply Forall_fmap, Forall_forall. intros c _. cbn.
      by rewrite length_fmap, length_seq. }
  assert (Forall (λ chunk, length chunk = fuse_arity * cdim) chunks) as Hlens.
  { apply Forall_fmap, Forall_forall. intros j _. cbn. by rewrite length_fmap. }
  exists chunks. split; [|split; [exact Hlens|]].
  - apply Forall2_same_length_lookup_2.
    + unfold chunks. by rewrite length_fmap.
    + intros i idx chunk [-> _]%lookup_seq Hchunk. cbn [Nat.add].
      destruct (concat_chunk chunks (fuse_arity * cdim) i chunk Hlens Hchunk)
        as (pre & suf & Hcat & Hpre).
      unfold staging_indices. change (ofs_vals fuse_arity fusion_arity cdim)
        with (concat chunks).
      rewrite Hcat, <- Hpre.
      rewrite Forall_forall in Hlens.
      rewrite <- (Hlens chunk) by (eapply list_elem_of_lookup_2; eauto).
      apply mapM_index_segment.
  - change (concat chunks) with (ofs_vals fuse_arity fusion_arity cdim).
    apply NoDup_Permutation; [apply NoDup_ofs_vals|apply NoDup_seq|].
    intros x. rewrite ofs_vals_range, elem_of_seq. lia.
Qed.

(** An argument of dimension 2 through a map of arity 3, fused across a
    map of arity 2: twelve positions, six for each sub-iteration. *)
Example staging_indices_2_3_2 :
  staging_indices 3 2 2 0 = Ok [0; 1; 2; 6; 7; 8]
  ∧ staging_indices 3 2 2 1 = Ok [3; 4; 5; 9; 10; 11].
Proof. split; vm_compute; reflexivity. Qed.

(** ** The inspector as a state machine *)

(** X11. Whatever path [inspect] takes, when it returns the schedule it
    returns is the one the inspector holds.  Answering from the built
    schedule changes nothing.  Otherwise the name, the chain, the mode and
    the options are gone; after a skip the inspector is not initialised, its
    schedule is the one it had and its counter went up by one, and a second
    [inspect] on it (without the constructor in between) raises
    [AttributeError]; after a build the inspector is initialised and every
    later [inspect] answers with the same schedule and runs nothing. *)
Theorem inspect_outcomes (env : Env) (self : Inspector) (s : Schedule)
    (self' : Inspector) (warnings : list string) (o : Outcome) :
  inspect env self = Ok (s, self', warnings, o) →
  _schedule self' = Some s
  ∧ (o = FromCache → self' = self ∧ _initialized self = true ∧ warnings = [])
  ∧ (o ≠ FromCache →
     _initialized self = false
     ∧ _name self' = None ∧ _loop_chain self' = None
     ∧ _mode self' = None ∧ _options self' = None)
  ∧ (o = Skipped →
     _initialized self' = false ∧ _schedule self = Some s ∧ warnings = []
     ∧ _ninsps self' = Some (next_count (_ninsps self))
     ∧ ∀ env', inspect env' self' = Raise (AttributeError "_mode"))
  ∧ (o ≠ Skipped →
     _initialized self' = true
     ∧ ∀ env', inspect env' self' = Ok (s, self', [], FromCache)).
Proof.
  unfold inspect. destruct (_initialized self) eqn:Hinit.
  - destruct (_schedule self) as [sched|] eqn:Hs; cbn [attr mbind result_bind]; [|done].
    intros [= <- <- <- <-]. rewrite Hs, Hinit.
    repeat split; done.
  - unfold _heuristic_skip_inspection. cbn [_mode].
    destruct (_mode self) as [mode|] eqn:Hmode; cbn [attr mbind result_bind]; [|done].
    destruct (bool_decide (mode ∈ ["tile"; "only_tile"]) && _) eqn:Hskip.
    + cbn [mbind result_bind del_build_state _schedule].
      destruct (_schedule self) as [sched|] eqn:Hs; cbn [attr mbind result_bind]; [|done].
      intros [= <- <- <- <-]. cbn.
      repeat split; try done. intros _. by rewrite Hinit.
    + cbn [mbind result_bind].
      destruct (run_passes env _) as [[built w]|e]; cbn [mbind result_bind]; [|done].
      cbn [del_build_state _schedule].
      destruct (_schedule built) as [sched|] eqn:Hs; cbn [attr mbind result_bind]; [|done].
      intros [= <- <- <- <-]. cbn.
      repeat split; try done.
Qed.

(** A skipped request and a built one, with the sample collaborators. *)
Lemma inspect_outcomes_witness :
  inspect (sample_env "SEQUENTIAL") (skipped 1 "chain" [loopA; loopC])
    = Raise (AttributeError "_mode")
  ∧ ∃ s built,
      inspect (sample_env "SEQUENTIAL")
              (pending None "chain" [loopA; loopB; loopC] "soft" no_options)
        = Ok (s, built, [], Built)
      ∧ inspect (sample_env "OMP_MPI") built = Ok (s, built, [], FromCache).
Proof.
  split.
  - assert (inspect (sample_env "SEQUENTIAL")
              (pending None "chain" [loopA; loopC] "tile" no_options)
            = Ok (PlainSchedule "chain" (kernel <$> [loopA; loopC]),
                  skipped 1 "chain" [loopA; loopC], [], Skipped)) as H
      by (vm_compute; reflexivity).
    apply inspect_outcomes in H as (_ & _ & _ & Hskip & _).
    destruct (Hskip eq_refl) as (_ & _ & _ & _ & Hraise). apply Hraise.
  - eassert (inspect (sample_env "SEQUENTIAL")
               (pending None "chain" [loopA; loopB; loopC] "soft" no_options)
             = Ok (_, _, [], Built)) as H
      by (vm_compute; reflexivity).
    eexists _, _. split; [exact H|].
    apply inspect_outcomes in H as (_ & _ & _ & _ & Hbuilt).
    destruct (Hbuilt ltac:(discriminate)) as [_ Hlater]. apply Hlater.
Defined.

(** X12. A mode other than [tile] and [only_tile] is never deferred: the
    first request for a fingerprint runs the inspection, so that it either
    raises or returns a built, initialised inspector; with a mode that
    [Inspector._modes] does not list it raises [RuntimeError]. *)
Theorem other_modes_inspected_at_once (env : Env) (name : string)
    (loop_chain : list Loop) (mode : string) (options : Options) :
  mode ∉ ["tile"; "only_tile"] →
  (∀ s self' warnings o,
     request env None name loop_chain mode options = Ok (s, self', warnings, o) →
     o = Built ∧ _initialized self' = true)
  ∧ (mode ∉ _modes →
     request env None name loop_chain mode options
     = Raise (RuntimeError "Inspection accepts only %s fusion modes")).
Proof.
  intros Hmode.
  assert (request env None name loop_chain mode options
          = ('(self, warnings) ← run_passes env
                                    (pending (Some 1) name loop_chain mode options);
             s ← attr "_schedule" (_schedule self);
             Ok (s, del_build_state
                      {| _initialized := true; _ninsps := _ninsps self;
                         _name := _name self; _loop_chain := _loop_chain self;
                         _mode := _mode self; _options := _options self;
                         _schedule := _schedule self |}, warnings, Built))) as Hreq.
  { unfold request, inspect, _heuristic_skip_inspection.
    cbn -[bool_decide elem_of run_passes].
    rewrite (bool_decide_eq_false_2 _ Hmode). reflexivity. }
  split.
  - intros s self' warnings o. rewrite Hreq.
    destruct (run_passes _ _) as [[built w]|e]; cbn [mbind result_bind]; [|done].
    destruct (_schedule built); cbn [attr mbind result_bind]; [|done].
    by intros [= <- <- <- <-].
  - intros Hbad. rewrite Hreq. unfold run_passes. cbn [pending _mode attr mbind result_bind].
    by rewrite (bool_decide_eq_true_2 _ Hbad).
Qed.

Lemma other_modes_inspected_at_once_witness :
  request (sample_env "SEQUENTIAL") None "chain" [loopA] "tiles" no_options
  = Raise (RuntimeError "Inspection accepts only %s fusion modes").
Proof.
  destruct (other_modes_inspected_at_once (sample_env "SEQUENTIAL") "chain" [loopA]
              "tiles" no_options) as [_ H].
  - rewrite !elem_of_cons, elem_of_nil. intros [H|[H|[]]]; discriminate H.
  - apply H. unfold _modes. rewrite !elem_of_cons, elem_of_nil.
    intros [H'|[H'|[H'|[H'|[H'|[]]]]]]; discriminate H'.
Defined.

Lemma soft_fuse_pass_env (env env' : Env) (self : Inspector) :
  schedule_call env = schedule_call env' →
  soft_fuse_pass env self = soft_fuse_pass env' self.
Proof. intros Hcall. unfold soft_fuse_pass. by rewrite Hcall. Qed.

Lemma hard_fuse_pass_env (env env' : Env) (self : Inspector) :
  schedule_call env = schedule_call env' → hard_kernels env = hard_kernels env' →
  hard_fuse_pass env self = hard_fuse_pass env' self.
Proof. intros Hcall Hk. unfold hard_fuse_pass. by rewrite Hcall, Hk. Qed.

(** X13. Under the modes [soft] and [hard] the inspection never turns to
    SLOPE or MPI: its result is the same whatever the execution mode, the
    rank, and the answer SLOPE would give. *)
Theorem fusion_modes_ignore_slope (env env' : Env) (self : Inspector) (mode : string) :
  _mode self = Some mode → mode ∈ ["soft"; "hard"] →
  schedule_call env = schedule_call env' →
  hard_kernels env = hard_kernels env' →
  inspect env self = inspect env' self.
Proof.
  intros Hmode Hin Hcall Hk. unfold inspect.
  destruct (_initialized self); [done|].
  unfold _heuristic_skip_inspection. rewrite Hmode. cbn [attr mbind result_bind _mode].
  assert (bool_decide (mode ∈ ["tile"; "only_tile"]) = false) as ->.
  { apply bool_decide_eq_false_2. intros Htile.
    apply elem_of_cons in Hin as [->|Hin];
      [|apply list_elem_of_singleton in Hin as ->];
      rewrite !elem_of_cons, elem_of_nil in Htile;
      destruct Htile as [H|[H|[]]]; discriminate H. }
  cbn [andb mbind result_bind].
  assert (∀ s, _mode s = Some mode → run_passes env s = run_passes env' s) as Hrun.
  { intros s Hs. unfold run_passes. rewrite Hs. cbn [attr mbind result_bind].
    apply elem_of_cons in Hin as [->|Hin];
      [|apply list_elem_of_singleton in Hin as ->].
    - change (bool_decide ("soft" ∉ _modes)) with false.
      change (bool_decide ("soft" ∈ ["soft"; "hard"; "tile"])) with true.
      change (bool_decide ("soft" ∈ ["hard"; "tile"])) with false.
      change (bool_decide ("soft" ∈ ["tile"; "only_tile"; "only_omp"])) with false.
      cbn match. by rewrite (soft_fuse_pass_env env env').
    - change (bool_decide ("hard" ∉ _modes)) with false.
      change (bool_decide ("hard" ∈ ["soft"; "hard"; "tile"])) with true.
      change (bool_decide ("hard" ∈ ["hard"; "tile"])) with true.
      change (bool_decide ("hard" ∈ ["tile"; "only_tile"; "only_omp"])) with false.
      cbn match. rewrite (soft_fuse_pass_env env env') by done.
      destruct (soft_fuse_pass env' s); cbn [mbind result_bind]; [|done].
      by rewrite (hard_fuse_pass_env env env'). }
  by rewrite Hrun.
Qed.

Lemma fusion_modes_ignore_slope_witness :
  inspect (sample_env "SEQUENTIAL")
          (pending None "chain" [loopA; loopB; loopC] "hard" no_options)
  = inspect (sample_env "OMP_MPI")
            (pending None "chain" [loopA; loopB; loopC] "hard" no_options).
Proof.
  apply (fusion_modes_ignore_slope _ _ _ "hard"); try reflexivity.
  apply elem_of_cons. right. apply elem_of_cons. left. reflexivity.
Defined.

(** ** The plan of a direct loop and the launches of [_compute] *)










Lemma split_by_counts {A : Type} (counts : list nat) :
  ∀ l : list A, sum_list counts = length l →
    ∃ groups, concat groups = l ∧ length <$> groups = counts.
Proof.
  induction counts as [|c counts IH]; intros l Hsum; cbn in Hsum.
  - destruct l; [|done]. by exists [].
  - destruct (IH (drop c l)) as (groups & Hcat & Hlen).
    { rewrite length_drop. lia. }
    exists (take c l :: groups). split; cbn.
    + by rewrite Hcat, take_drop.
    + rewrite Hlen, length_take. f_equal. lia.
Qed.

(** X15. When the numbers of blocks per colour of a plan add up to the
    length of its block map, and there is one number per colour, the loop
    over the colours in [_compute] never reads out of the plan's arrays: it
    calls the wrapper once per colour, and the calls taken together run the
    entries of the block map in order, each once, [ncolblk[c]] of them in
    call [c]. *)
Theorem launches_run_blkmap (plan : Plan) :
  length (ncolblk plan) = ncolors plan →
  sum_list (ncolblk plan) = length (blkmap plan) →
  ∃ groups,
    launches plan 0 (seq 0 (ncolors plan)) = Ok groups
    ∧ concat groups = blkmap plan
    ∧ length <$> groups = ncolblk plan.
Proof.
  intros Hcol Hsum.
  destruct (split_by_counts (ncolblk plan) (blkmap plan) Hsum) as (groups & Hcat & Hlen).
  exists groups. split; [|done].
  rewrite <- Hcol, <- Hlen, length_fmap.
  apply (launches_colours plan groups []); by cbn.
Qed.

Lemma launches_run_blkmap_witness :
  ∃ groups,
    launches (mkPlan 3 2 [2; 1] [2; 0; 1] [4; 4; 1] [0; 4; 8]) 0 (seq 0 2) = Ok groups
    ∧ concat groups = [2; 0; 1]
    ∧ length <$> groups = [2; 1].
Proof.
  apply (launches_run_blkmap (mkPlan 3 2 [2; 1] [2; 0; 1] [4; 4; 1] [0; 4; 8]));
    reflexivity.
Defined.



(** ** Registration of sets, maps and loops in [_tile] *)

Lemma from_end_last {A : Type} (l : list A) (x : A) : from_end (l ++ [x]) 0 = Ok x.
Proof. unfold from_end. by rewrite rev_app_distr. Qed.

Lemma from_end_last_but_one {A : Type} (l : list A) (y x : A) :
  from_end ((l ++ [y]) ++ [x]) 1 = Ok y.
Proof. unfold from_end. by rewrite !rev_app_distr. Qed.

(** X17. Under an MPI mode of SLOPE, on a set that is not a [Subset]:
    without [_deep_size] the conversion raises [AttributeError], with no
    halo level it raises [IndexError]; otherwise the sizes come from the
    last level, unless [extra_halo] is set and that level has no
    non-exec elements: then the boundary and non-exec sizes come from the
    level before (the core size still from the last), and the conversion
    raises [IndexError] when there is no level before. *)
Theorem create_slope_set_deep_halo (exec_mode : string) (set_str : OpSet → string)
    (op2set : OpSet) (extra_halo : bool) (insp_sets : InspSets) :
  exec_mode ∈ mpi_modes → is_subset op2set = false →
  let info := set_info op2set in
  let call := create_slope_set exec_mode set_str op2set extra_halo insp_sets in
  let made := λ core boundary nonexec,
    Ok (mkSlopeSet (set_name info) core boundary nonexec None,
        odict_set insp_sets (mkSlopeSet (set_name info) core boundary nonexec None)
                  (_partitioning info)) in
  (_deep_size info = None → call = Raise (AttributeError "_deep_size"))
  ∧ (_deep_size info = Some [] → call = Raise IndexError)
  ∧ (∀ levels c o e n,
       _deep_size info = Some (levels ++ [(c, o, e, n)]) →
       (extra_halo = false ∨ n ≠ e → call = made c (e - c)%Z (n - e)%Z)
       ∧ (extra_halo = true → n = e → levels = [] → call = Raise IndexError)
       ∧ (∀ levels' c' o' e' n',
            extra_halo = true → n = e → levels = levels' ++ [(c', o', e', n')] →
            call = made c (e' - c)%Z (n' - e')%Z)).
Proof.
  intros Hmode Hplain info call made.
  assert (call
          = ('(core_size, boundary_size, nonexec_size) ←
               match _deep_size info with
               | None => Raise (AttributeError "_deep_size")
               | Some deep =>
                   '(n0, _, n2, n3) ← from_end deep 0;
                   if extra_halo && bool_decide ((n3 - n2)%Z = 0%Z)
                   then '(_, _, e2, e3) ← from_end deep 1;
                        Ok (n0, (e2 - n0)%Z, (e3 - e2)%Z)
                   else Ok (n0, (n2 - n0)%Z, (n3 - n2)%Z)
               end;
             made core_size boundary_size nonexec_size)) as Hcall.
  { unfold call, create_slope_set, made, info.
    destruct op2set as [i|sup idx i|sub i]; [|done|]; cbn [mbind result_bind set_info];
      (destruct (decide (exec_mode ∉ mpi_modes)) as [Hno|_]; [by destruct Hno|]);
      reflexivity. }
  rewrite Hcall. clear Hcall. split; [|split].
  - by intros ->.
  - by intros ->.
  - intros levels c o e n ->. rewrite from_end_last. cbn [mbind result_bind].
    split; [|split].
    + intros Hlast.
      assert (extra_halo && bool_decide ((n - e)%Z = 0%Z) = false) as ->; [|done].
      destruct Hlast as [->|Hne]; [done|].
      rewrite bool_decide_eq_false_2 by lia. apply andb_false_r.
    + intros -> -> ->. by rewrite bool_decide_eq_true_2 by lia.
    + intros levels' c' o' e' n' -> -> ->.
      rewrite bool_decide_eq_true_2 by lia. cbn [andb].
      by rewrite from_end_last_but_one.
Qed.

(** One halo level without non-exec elements, with [extra_halo]. *)
Lemma create_slope_set_deep_halo_witness :
  create_slope_set "OMP_MPI" (λ s, set_name (set_info s))
    (PlainSet (mkSetInfo "cells" 4 6 6 None (Some [(4, 5, 6, 6)%Z]))) true []
  = Raise IndexError.
Proof.
  destruct (create_slope_set_deep_halo "OMP_MPI" (λ s, set_name (set_info s))
              (PlainSet (mkSetInfo "cells" 4 6 6 None (Some [(4, 5, 6, 6)%Z]))) true [])
    as (_ & _ & H).
  - apply elem_of_cons. by left.
  - reflexivity.
  - destruct (H [] 4%Z 5%Z 6%Z 6%Z eq_refl) as (_ & Hraise & _).
    apply Hraise; reflexivity.
Defined.

Lemma create_slope_set_is_subset (exec_mode : string) (set_str : OpSet → string)
    (s : OpSet) (extra_halo : bool) (sets : InspSets) :
  is_subset s = true →
  create_slope_set exec_mode set_str s extra_halo sets = Raise (NameError "s").
Proof. by destruct s. Qed.

Lemma create_slope_set_plain (exec_mode : string) (set_str : OpSet → string)
    (s : OpSet) (extra_halo : bool) (sets : InspSets) :
  exec_mode ∉ mpi_modes → is_subset s = false →
  ∃ ss, create_slope_set exec_mode set_str s extra_halo sets
        = Ok (ss, odict_set sets ss (_partitioning (set_info s)))
        ∧ slope_superset ss = None.
Proof.
  intros Hmode Hplain. unfold create_slope_set.
  destruct s as [i|sup idx i|sub i]; [|done|]; cbn [mbind result_bind];
    (destruct (decide (exec_mode ∉ mpi_modes)) as [_|Hno]; [|by destruct Hno]);
    cbn [mbind result_bind]; eexists; split; reflexivity.
Qed.

Lemma create_slope_set_inv (exec_mode : string) (set_str : OpSet → string)
    (s : OpSet) (extra_halo : bool) (sets : InspSets) (ss : SlopeSet) (sets' : InspSets) :
  create_slope_set exec_mode set_str s extra_halo sets = Ok (ss, sets') →
  is_subset s = false
  ∧ slope_name ss = set_name (set_info s)
  ∧ slope_superset ss = None
  ∧ sets' = odict_set sets ss (_partitioning (set_info s)).
Proof.
  unfold create_slope_set.
  destruct s as [i|sup idx i|sub i]; [|done|]; cbn [mbind result_bind];
    (destruct (decide (exec_mode ∉ mpi_modes)); cbn [mbind result_bind];
     [by intros [= <- <-]|]);
    (destruct (_deep_size _); cbn [mbind result_bind]; [|done]);
    (destruct (from_end _ 0) as [[[[n0 n1] n2] n3]|]; cbn [mbind result_bind]; [|done]);
    (destruct (_ && _); cbn [mbind result_bind];
     [destruct (from_end _ 1) as [[[[e0 e1] e2] e3]|]; cbn [mbind result_bind]; [|done]|]);
    by intros [= <- <-].
Qed.

Lemma odict_set_keys {K V : Type} `{EqDecision K} (d : list (K * V)) (k : K) (v : V) :
  (odict_set d k v).*1 = if decide (k ∈ d.*1) then d.*1 else d.*1 ++ [k].
Proof.
  induction d as [|[k' v'] d IH]; cbn.
  - destruct (decide (k ∈ [])) as [Hin|_]; [|done]. by apply elem_of_nil in Hin.
  - destruct (decide (k' = k)) as [->|Hne]; cbn.
    + destruct (decide (k ∈ k :: d.*1)) as [_|Hout]; [done|].
      destruct Hout. apply elem_of_cons. by left.
    + rewrite IH. destruct (decide (k ∈ d.*1)) as [Hin|Hout].
      * destruct (decide (k ∈ k' :: d.*1)) as [_|Hout]; [done|].
        destruct Hout. apply elem_of_cons. by right.
      * destruct (decide (k ∈ k' :: d.*1)) as [Hin|_]; [|done].
        apply elem_of_cons in Hin as [->|Hin]; done.
Qed.

Lemma odict_set_NoDup {K V : Type} `{EqDecision K} (d : list (K * V)) (k : K) (v : V) :
  NoDup d.*1 → NoDup (odict_set d k v).*1.
Proof.
  intros Hd. rewrite odict_set_keys. destruct (decide (k ∈ d.*1)); [done|].
  apply NoDup_app. split; [done|]. split; [|apply NoDup_singleton].
  by intros x Hx ->%list_elem_of_singleton.
Qed.

Lemma odict_set_key_elem {K V : Type} `{EqDecision K} (d : list (K * V)) (k k' : K) (v : V) :
  k' ∈ (odict_set d k v).*1 ↔ k' ∈ d.*1 ∨ k' = k.
Proof.
  rewrite odict_set_keys. destruct (decide (k ∈ d.*1)) as [Hin|Hout].
  - split; [by left|]. by intros [?| ->].
  - rewrite elem_of_app, list_elem_of_singleton. done.
Qed.

Lemma odict_set_elem {K V : Type} `{EqDecision K} (d : list (K * V)) (k k' : K) (v v' : V) :
  (k', v') ∈ odict_set d k v → (k', v') ∈ d ∨ (k' = k ∧ v' = v).
Proof.
  induction d as [|[k0 v0] d IH]; cbn.
  - intros [= -> ->]%list_elem_of_singleton. by right.
  - destruct (decide (k0 = k)) as [->|Hne].
    + intros [[= -> ->]|Hin]%elem_of_cons; [by right|].
      left. apply elem_of_cons. by right.
    + intros [[= -> ->]|Hin]%elem_of_cons.
      * left. apply elem_of_cons. by left.
      * destruct (IH Hin) as [Hold|Hnew]; [|by right].
        left. apply elem_of_cons. by right.
Qed.

Lemma declared_odict_set_mono (sets : InspSets) (ss : SlopeSet) (p : option (list Z))
    (n : string) :
  declared sets n → declared (odict_set sets ss p) n.
Proof.
  intros (ss' & Hin & Hname). exists ss'. split; [|done].
  apply odict_set_key_elem. by left.
Qed.

Lemma declared_odict_set_new (sets : InspSets) (ss : SlopeSet) (p : option (list Z)) :
  declared (odict_set sets ss p) (slope_name ss).
Proof. exists ss. split; [|done]. apply odict_set_key_elem. by right. Qed.

Lemma create_slope_set_declares (exec_mode : string) (set_str : OpSet → string)
    (s : OpSet) (extra_halo : bool) (sets : InspSets) (ss : SlopeSet) (sets' : InspSets) :
  create_slope_set exec_mode set_str s extra_halo sets = Ok (ss, sets') →
  (NoDup sets.*1 → NoDup sets'.*1)
  ∧ (∀ n, declared sets n → declared sets' n)
  ∧ declared sets' (set_name (set_info s))
  ∧ slope_name ss = set_name (set_info s)
  ∧ slope_superset ss = None.
Proof.
  intros (_ & Hname & Hsup & ->)%create_slope_set_inv. split_and!; try done.
  - apply odict_set_NoDup.
  - intros n. apply declared_odict_set_mono.
  - rewrite <- Hname. apply declared_odict_set_new.
Qed.

Lemma maps_ok_mono (sets sets' : InspSets) (imaps : InspMaps) :
  (∀ n, declared sets n → declared sets' n) → maps_ok sets imaps → maps_ok sets' imaps.
Proof.
  intros Hmono Hok key n it to v Hin.
  destruct (Hok key n it to v Hin). split; by apply Hmono.
Qed.

Lemma loops_ok_mono (sets sets' : InspSets) (loops : list SlopeLoop) :
  (∀ n, declared sets n → declared sets' n) → loops_ok sets loops → loops_ok sets' loops.
Proof. intros Hmono Hok k n d Hin. apply Hmono. by apply (Hok k n d). Qed.

Lemma register_maps_inv (exec_mode : string) (set_str : OpSet → string)
    (extra_halo : bool) (acc : Access) (maps : list Map) :
  ∀ i sets imaps desc sets' imaps' desc',
    register_maps exec_mode set_str extra_halo acc i maps sets imaps desc
    = Ok (sets', imaps', desc') →
    NoDup sets.*1 → NoDup imaps.*1 → maps_ok sets imaps →
    NoDup sets'.*1 ∧ NoDup imaps'.*1 ∧ maps_ok sets' imaps'
    ∧ (∀ n, declared sets n → declared sets' n)
    ∧ (∀ s, s ∈ map_sets maps → declared sets' (set_name (set_info s))).
Proof.
  induction maps as [|m maps IH]; intros i sets imaps desc sets' imaps' desc' Hreg Hs Hm Hok.
  - injection Hreg as <- <- <-. split_and!; try done.
    intros s Hin. by apply elem_of_nil in Hin.
  - cbn [register_maps] in Hreg.
    destruct (create_slope_set _ _ (map_iterset _) _ sets) as [[ss1 sets1]|] eqn:H1;
      cbn [mbind result_bind] in Hreg; [|done].
    destruct (create_slope_set _ _ (map_toset _) _ sets1) as [[ss2 sets2]|] eqn:H2;
      cbn [mbind result_bind] in Hreg; [|done].
    apply create_slope_set_declares in H1 as (Hd1 & Hmono1 & Hdecl1 & _).
    apply create_slope_set_declares in H2 as (Hd2 & Hmono2 & Hdecl2 & _).
    apply IH in Hreg as (Hs' & Hm' & Hok' & Hmono' & Hall'); first last.
    + intros key n it to v Hin. apply odict_set_elem in Hin as [Hold|[-> [= -> -> -> ->]]].
      * destruct (Hok key n it to v Hold). split; by apply Hmono2, Hmono1.
      * split; [by apply Hmono2|done].
    + by apply odict_set_NoDup.
    + by apply Hd2, Hd1.
    + split_and!; try done.
      * intros n Hn. by apply Hmono', Hmono2, Hmono1.
      * intros s Hin. cbn in Hin.
        apply elem_of_cons in Hin as [->|Hin]; [by apply Hmono', Hmono2|].
        apply elem_of_cons in Hin as [->|Hin]; [by apply Hmono'|].
        by apply Hall'.
Qed.

Lemma register_args_inv (exec_mode : string) (set_str : OpSet → string)
    (extra_halo : bool) (loop_args : list Arg) :
  ∀ sets imaps desc sets' imaps' desc',
    register_args exec_mode set_str extra_halo loop_args sets imaps desc
    = Ok (sets', imaps', desc') →
    NoDup sets.*1 → NoDup imaps.*1 → maps_ok sets imaps →
    NoDup sets'.*1 ∧ NoDup imaps'.*1 ∧ maps_ok sets' imaps'
    ∧ (∀ n, declared sets n → declared sets' n)
    ∧ (∀ s, s ∈ args_sets loop_args → declared sets' (set_name (set_info s))).
Proof.
  induction loop_args as [|a loop_args IH];
    intros sets imaps desc sets' imaps' desc' Hreg Hs Hm Hok.
  - injection Hreg as <- <- <-. split_and!; try done.
    intros s Hin. by apply elem_of_nil in Hin.
  - cbn [register_args] in Hreg.
    assert (∃ sets1 imaps1 desc1,
              register_args exec_mode set_str extra_halo loop_args sets1 imaps1 desc1
              = Ok (sets', imaps', desc')
              ∧ NoDup sets1.*1 ∧ NoDup imaps1.*1 ∧ maps_ok sets1 imaps1
              ∧ (∀ n, declared sets n → declared sets1 n)
              ∧ (∀ s, s ∈ map_sets (as_tuple (amap a)) →
                      declared sets1 (set_name (set_info s))))
      as (sets1 & imaps1 & desc1 & Hrest & Hs1 & Hm1 & Hok1 & Hmono1 & Hall1).
    { destruct (as_tuple (amap a)) as [|m maps] eqn:Hmaps.
      - cbn [mbind result_bind] in Hreg.
        exists sets, imaps, (desc_add desc ("DIRECT", access_mode (access a))).
        split_and!; try done. intros s Hin. by apply elem_of_nil in Hin.
      - destruct (register_maps _ _ _ _ 0 (m :: maps) sets imaps desc)
          as [[[sets1 imaps1] desc1]|] eqn:Hmapsreg;
          cbn [mbind result_bind] in Hreg; [|done].
        exists sets1, imaps1, desc1. split; [done|].
        by apply (register_maps_inv _ _ _ _ _ _ _ _ _ _ _ _ Hmapsreg). }
    apply IH in Hrest as (Hs' & Hm' & Hok' & Hmono' & Hall'); try done.
    split_and!; try done.
    + intros n Hn. by apply Hmono', Hmono1.
    + intros s Hin. unfold args_sets in Hin. cbn in Hin.
      apply elem_of_app in Hin as [Hin|Hin]; [by apply Hmono', Hall1|by apply Hall'].
Qed.

Lemma register_loop_inv (exec_mode : string) (set_str : OpSet → string)
    (extra_halo : bool) (st st' : TileState) (loop : Loop) :
  register_loop exec_mode set_str extra_halo st loop = Ok st' →
  well_formed st →
  well_formed st'
  ∧ (∀ n, declared (insp_sets st) n → declared (insp_sets st') n)
  ∧ (∀ s, s ∈ loop_sets loop → declared (insp_sets st') (set_name (set_info s)))
  ∧ ∃ desc, insp_loops st'
            = insp_loops st ++ [(kernel_name (kernel loop),
                                 set_name (set_info (tiled_iterset loop)), desc)].
Proof.
  intros Hreg (Hs & Hm & Hok & Hloops). unfold register_loop in Hreg.
  fold (tiled_iterset loop) in Hreg.
  destruct (create_slope_set _ _ (tiled_iterset loop) _ _) as [[ss sets1]|] eqn:H1;
    cbn [mbind result_bind] in Hreg; [|done].
  apply create_slope_set_declares in H1 as (Hd1 & Hmono1 & Hdecl1 & Hname & Hsup).
  rewrite Hsup in Hreg. cbn [truthy mbind result_bind] in Hreg.
  destruct (register_args _ _ _ _ sets1 _ _) as [[[sets2 imaps2] desc2]|] eqn:Hargs;
    cbn [mbind result_bind] in Hreg; [|done].
  injection Hreg as <-. cbn [insp_sets insp_maps insp_loops].
  apply register_args_inv in Hargs as (Hs' & Hm' & Hok' & Hmono' & Hall');
    [|by apply Hd1|done|by apply (maps_ok_mono (insp_sets st))].
  assert (∀ n, declared (insp_sets st) n → declared sets2 n) as Hmono
    by (intros n Hn; by apply Hmono', Hmono1).
  split_and!; try done.
  - split_and!; try done.
    intros k n d Hin. cbn [insp_loops] in Hin. apply elem_of_app in Hin as [Hin|Hin].
    + apply Hmono. by apply (Hloops k n d).
    + apply list_elem_of_singleton in Hin. injection Hin as -> -> ->.
      rewrite Hname. by apply Hmono'.
  - intros s Hin. apply elem_of_cons in Hin as [->|Hin]; [by apply Hmono'|by apply Hall'].
  - rewrite Hname. by eexists.
Qed.

Lemma register_chain_inv (exec_mode : string) (set_str : OpSet → string)
    (extra_halo : bool) (loop_chain : list Loop) :
  ∀ st st',
    register_chain exec_mode set_str extra_halo st loop_chain = Ok st' →
    well_formed st →
    well_formed st'
    ∧ (∀ n, declared (insp_sets st) n → declared (insp_sets st') n)
    ∧ (∀ s, s ∈ chain_sets loop_chain → declared (insp_sets st') (set_name (set_info s)))
    ∧ (λ l : SlopeLoop, l.1) <$> insp_loops st'
      = ((λ l : SlopeLoop, l.1) <$> insp_loops st)
          ++ ((λ l, (kernel_name (kernel l), set_name (set_info (tiled_iterset l))))
                <$> loop_chain).
Proof.
  induction loop_chain as [|loop loop_chain IH]; intros st st' Hreg Hwf.
  - injection Hreg as <-. split_and!; try apply Hwf; try done.
    + intros s Hin. by apply elem_of_nil in Hin.
    + cbn. by rewrite app_nil_r.
  - cbn [register_chain] in Hreg.
    destruct (register_loop _ _ _ st loop) as [st1|] eqn:Hloop;
      cbn [mbind result_bind] in Hreg; [|done].
    apply register_loop_inv in Hloop as (Hwf1 & Hmono1 & Hall1 & desc & Hloops1); [|done].
    apply IH in Hreg as (Hwf' & Hmono' & Hall' & Hloops'); [|done].
    split_and!; try apply Hwf'.
    + intros n Hn. by apply Hmono', Hmono1.
    + intros s Hin.
      change (chain_sets (loop :: loop_chain))
        with (loop_sets loop ++ chain_sets loop_chain) in Hin.
      apply elem_of_app in Hin as [Hin|Hin]; [by apply Hmono', Hall1|by apply Hall'].
    + rewrite Hloops', Hloops1, fmap_app, <- app_assoc. done.
Qed.

(** X18. When the registration loop of [_tile] goes through, what it hands
    to SLOPE is consistent: there is one loop entry per loop of the chain,
    in order, with the name of its kernel and of its iteration set; no set
    and no map key is listed twice; the iteration set of every loop entry,
    both sets of every map, and the set of every call of
    [create_slope_set] are among the sets declared. *)
Theorem register_chain_consistent (exec_mode : string) (set_str : OpSet → string)
    (extra_halo : bool) (loop_chain : list Loop) (st : TileState) :
  register_chain exec_mode set_str extra_halo (mkTileState [] [] []) loop_chain = Ok st →
  well_formed st
  ∧ (∀ s, s ∈ chain_sets loop_chain → declared (insp_sets st) (set_name (set_info s)))
  ∧ (λ l : SlopeLoop, l.1) <$> insp_loops st
    = (λ l, (kernel_name (kernel l), set_name (set_info (tiled_iterset l)))) <$> loop_chain.
Proof.
  intros Hreg. apply register_chain_inv in Hreg as (Hwf & _ & Hall & Hloops).
  - done.
  - split_and!; cbn; try apply NoDup_nil_2.
    + intros key n it to v Hin. by apply elem_of_nil in Hin.
    + intros k n d Hin. by apply elem_of_nil in Hin.
Qed.

(** The chain P, Q over cells and nodes: cells, nodes are declared once. *)
Lemma register_chain_consistent_witness :
  ∃ st,
    register_chain "SEQUENTIAL" (λ s, set_name (set_info s)) false
                   (mkTileState [] [] []) [loopP; loopQ] = Ok st
    ∧ well_formed st
    ∧ (∀ s, s ∈ chain_sets [loopP; loopQ] → declared (insp_sets st) (set_name (set_info s)))
    ∧ (λ l : SlopeLoop, l.1) <$> insp_loops st = [("P", "cells"); ("Q", "nodes")].
Proof.
  eexists. split; [vm_compute; reflexivity|].
  apply (register_chain_consistent "SEQUENTIAL" (λ s, set_name (set_info s)) false
           [loopP; loopQ]).
  vm_compute; reflexivity.
Defined.

Lemma register_maps_outcome (exec_mode : string) (set_str : OpSet → string)
    (extra_halo : bool) (acc : Access) (maps : list Map) :
  exec_mode ∉ mpi_modes →
  ∀ i sets imaps desc,
    (Forall (λ s, is_subset s = false) (map_sets maps)
     ∧ ∃ r, register_maps exec_mode set_str extra_halo acc i maps sets imaps desc = Ok r)
    ∨ (Exists (λ s, is_subset s = true) (map_sets maps)
       ∧ register_maps exec_mode set_str extra_halo acc i maps sets imaps desc
         = Raise (NameError "s")).
Proof.
  intros Hmode. induction maps as [|m maps IH]; intros i sets imaps desc.
  - left. split; [constructor|by eexists].
  - cbn [register_maps].
    change (map_sets (m :: maps))
      with (map_iterset (map_core m) :: map_toset (map_core m) :: map_sets maps).
    destruct (is_subset (map_iterset (map_core m))) eqn:Hit.
    { right. split; [by apply Exists_cons_hd|].
      by rewrite create_slope_set_is_subset. }
    destruct (create_slope_set_plain exec_mode set_str _ extra_halo sets Hmode Hit)
      as (ss1 & -> & _).
    cbn [mbind result_bind].
    destruct (is_subset (map_toset (map_core m))) eqn:Hto.
    { right. split; [by apply Exists_cons_tl, Exists_cons_hd|].
      by rewrite create_slope_set_is_subset. }
    destruct (create_slope_set_plain exec_mode set_str _ extra_halo
                (odict_set sets ss1 (_partitioning (set_info (map_iterset (map_core m)))))
                Hmode Hto) as (ss2 & -> & _).
    cbn [mbind result_bind].
    destruct (IH (S i) (odict_set
                          (odict_set sets ss1
                             (_partitioning (set_info (map_iterset (map_core m)))))
                          ss2 (_partitioning (set_info (map_toset (map_core m)))))
                 (odict_set imaps (map_name (map_core m))
                    (map_name (map_core m) +:+ pretty i +:+ "_" +:+ pretty 0,
                     set_name (set_info (map_iterset (map_core m))),
                     set_name (set_info (map_toset (map_core m))),
                     values_with_halo (map_core m)))
                 (desc_add desc (map_name (map_core m) +:+ pretty i +:+ "_" +:+ pretty 0,
                                 access_mode acc)))
      as [[Hall Hok]|[Hex Hraise]].
    + left. split; [by repeat constructor|done].
    + right. split; [by apply Exists_cons_tl, Exists_cons_tl|done].
Qed.

Lemma register_args_outcome (exec_mode : string) (set_str : OpSet → string)
    (extra_halo : bool) (loop_args : list Arg) :
  exec_mode ∉ mpi_modes →
  ∀ sets imaps desc,
    (Forall (λ s, is_subset s = false) (args_sets loop_args)
     ∧ ∃ r, register_args exec_mode set_str extra_halo loop_args sets imaps desc = Ok r)
    ∨ (Exists (λ s, is_subset s = true) (args_sets loop_args)
       ∧ register_args exec_mode set_str extra_halo loop_args sets imaps desc
         = Raise (NameError "s")).
Proof.
  intros Hmode. induction loop_args as [|a loop_args IH]; intros sets imaps desc.
  - left. split; [constructor|by eexists].
  - cbn [register_args].
    change (args_sets (a :: loop_args))
      with (map_sets (as_tuple (amap a)) ++ args_sets loop_args).
    assert ((Forall (λ s, is_subset s = false) (map_sets (as_tuple (amap a)))
             ∧ ∃ r, match as_tuple (amap a) with
                    | [] => Ok (sets, imaps, desc_add desc ("DIRECT", access_mode (access a)))
                    | _ :: _ => register_maps exec_mode set_str extra_halo (access a) 0
                                  (as_tuple (amap a)) sets imaps desc
                    end = Ok r)
            ∨ (Exists (λ s, is_subset s = true) (map_sets (as_tuple (amap a)))
               ∧ match as_tuple (amap a) with
                 | [] => Ok (sets, imaps, desc_add desc ("DIRECT", access_mode (access a)))
                 | _ :: _ => register_maps exec_mode set_str extra_halo (access a) 0
                               (as_tuple (amap a)) sets imaps desc
                 end = Raise (NameError "s"))) as Hfirst.
    { destruct (as_tuple (amap a)) as [|m maps].
      - left. split; [constructor|by eexists].
      - apply register_maps_outcome, Hmode. }
    assert (match as_tuple (amap a) with
            | [] => Ok (sets, imaps, desc_add desc ("DIRECT", access_mode (access a)))
            | m :: maps => register_maps exec_mode set_str extra_halo (access a) 0
                             (m :: maps) sets imaps desc
            end
            = match as_tuple (amap a) with
              | [] => Ok (sets, imaps, desc_add desc ("DIRECT", access_mode (access a)))
              | _ :: _ => register_maps exec_mode set_str extra_halo (access a) 0
                            (as_tuple (amap a)) sets imaps desc
              end) as -> by by destruct (as_tuple (amap a)).
    destruct Hfirst as [[Hall [[[sets1 imaps1] desc1] ->]]|[Hex ->]].
    + cbn [mbind result_bind].
      destruct (IH sets1 imaps1 desc1) as [[Hall' Hok]|[Hex Hraise]].
      * left. split; [by apply Forall_app|done].
      * right. split; [apply Exists_app; by right|done].
    + right. split; [apply Exists_app; by left|done].
Qed.

Lemma register_loop_outcome (exec_mode : string) (set_str : OpSet → string)
    (extra_halo : bool) (st : TileState) (loop : Loop) :
  exec_mode ∉ mpi_modes →
  (Forall (λ s, is_subset s = false) (loop_sets loop)
   ∧ ∃ st', register_loop exec_mode set_str extra_halo st loop = Ok st')
  ∨ (Exists (λ s, is_subset s = true) (loop_sets loop)
     ∧ register_loop exec_mode set_str extra_halo st loop = Raise (NameError "s")).
Proof.
  intros Hmode. unfold register_loop, loop_sets. fold (tiled_iterset loop).
  destruct (is_subset (tiled_iterset loop)) eqn:Hit.
  { right. split; [by apply Exists_cons_hd|].
    by rewrite create_slope_set_is_subset. }
  destruct (create_slope_set_plain exec_mode set_str _ extra_halo (insp_sets st) Hmode Hit)
    as (ss & -> & Hsup).
  cbn [mbind result_bind]. rewrite Hsup. cbn [truthy mbind result_bind].
  destruct (register_args_outcome exec_mode set_str extra_halo (args loop) Hmode
              (odict_set (insp_sets st) ss (_partitioning (set_info (tiled_iterset loop))))
              (insp_maps st) [])
    as [[Hall [[[sets1 imaps1] desc1] ->]]|[Hex ->]].
  - left. split; [by constructor|]. cbn [mbind result_bind]. by eexists.
  - right. split; [by apply Exists_cons_tl|done].
Qed.

(** X19. Outside the MPI modes of SLOPE, the registration loop of [_tile]
    goes through when none of the sets it converts (the iteration sets, and
    the iteration and target sets of the maps) is a [Subset], and raises
    [NameError] as soon as one of them is. *)
Theorem register_chain_subsets (exec_mode : string) (set_str : OpSet → string)
    (extra_halo : bool) (loop_chain : list Loop) (st : TileState) :
  exec_mode ∉ mpi_modes →
  (Forall (λ s, is_subset s = false) (chain_sets loop_chain) →
   ∃ st', register_chain exec_mode set_str extra_halo st loop_chain = Ok st')
  ∧ (Exists (λ s, is_subset s = true) (chain_sets loop_chain) →
     register_chain exec_mode set_str extra_halo st loop_chain = Raise (NameError "s")).
Proof.
  intros Hmode.
  assert ((Forall (λ s, is_subset s = false) (chain_sets loop_chain)
           ∧ ∃ st', register_chain exec_mode set_str extra_halo st loop_chain = Ok st')
          ∨ (Exists (λ s, is_subset s = true) (chain_sets loop_chain)
             ∧ register_chain exec_mode set_str extra_halo st loop_chain
               = Raise (NameError "s"))) as Hcases.
  { revert st. induction loop_chain as [|loop loop_chain IH]; intros st.
    - left. split; [constructor|by eexists].
    - cbn [register_chain].
      change (chain_sets (loop :: loop_chain))
        with (loop_sets loop ++ chain_sets loop_chain).
      destruct (register_loop_outcome exec_mode set_str extra_halo st loop Hmode)
        as [[Hall [st1 ->]]|[Hex ->]].
      + cbn [mbind result_bind].
        destruct (IH st1) as [[Hall' Hok]|[Hex Hraise]].
        * left. split; [by apply Forall_app|done].
        * right. split; [apply Exists_app; by right|done].
      + right. split; [apply Exists_app; by left|done]. }
  split.
  - intros Hall. destruct Hcases as [[_ Hok]|[Hex _]]; [done|].
    apply Exists_exists in Hex as (s & Hin & Hs).
    rewrite Forall_forall in Hall. specialize (Hall s Hin). congruence.
  - intros Hex. destruct Hcases as [[Hall _]|[_ Hraise]]; [|done].
    apply Exists_exists in Hex as (s & Hin & Hs).
    rewrite Forall_forall in Hall. specialize (Hall s Hin). congruence.
Qed.

(** The chain A, S: the second loop runs over a subset of cells. *)
Lemma register_chain_subsets_witness :
  register_chain "SEQUENTIAL" (λ s, set_name (set_info s)) false
                 (mkTileState [] [] []) [loopA; loopS] = Raise (NameError "s").
Proof.
  apply register_chain_subsets.
  - unfold mpi_modes. rewrite !elem_of_cons, elem_of_nil.
    intros [H|[H|[]]]; discriminate H.
  - apply Exists_cons_tl, Exists_cons_hd. reflexivity.
Defined.

Lemma elem_of_desc_add (s : list SlopeDesc) (d x : SlopeDesc) :
  x ∈ desc_add s d ↔ x ∈ s ∨ x = d.
Proof.
  unfold desc_add. destruct (decide (d ∈ s)) as [Hin|Hout].
  - split; [by left|]. by intros [?| ->].
  - by rewrite elem_of_app, list_elem_of_singleton.
Qed.

Lemma string_app_inj_l (s a b : string) : s +:+ a = s +:+ b → a = b.
Proof. induction s as [|c s IH]; cbn; [done|]. intros [= H]. by apply IH. Qed.

Lemma odict_set_twice {K V : Type} `{EqDecision K} (k : K) (v v' : V) :
  odict_set (odict_set [] k v) k v' = [(k, v')].
Proof. cbn. by rewrite decide_True. Qed.

Lemma create_slope_set_plain_named (exec_mode : string) (set_str : OpSet → string)
    (s : OpSet) (extra_halo : bool) (sets : InspSets) :
  exec_mode ∉ mpi_modes → is_subset s = false →
  ∃ ss, create_slope_set exec_mode set_str s extra_halo sets
        = Ok (ss, odict_set sets ss (_partitioning (set_info s)))
        ∧ slope_superset ss = None
        ∧ slope_name ss = set_name (set_info s).
Proof.
  intros Hmode Hplain.
  destruct (create_slope_set_plain exec_mode set_str s extra_halo sets Hmode Hplain)
    as (ss & Hcall & Hsup).
  exists ss. split_and!; try done.
  by apply create_slope_set_inv in Hcall as (_ & Hname & _).
Qed.

(** X20. A matrix argument whose row map and column map are the same map:
    the registration of [_tile] names the map [<name>0_0] and then
    [<name>1_0], and stores both under the key [<name>] of [insp_maps], so
    that the second replaces the first.  The loop entry handed to SLOPE has a
    descriptor for [<name>0_0], but no map of that name is handed over. *)
Theorem matrix_map_registered_once (exec_mode : string) (set_str : OpSet → string)
    (extra_halo : bool) (loop : Loop) (d : Data) (acc : Access) (m : Map) :
  exec_mode ∉ mpi_modes →
  Forall (λ s, is_subset s = false) (loop_sets loop) →
  args loop = [mkArg d acc (TwoMaps m m)] →
  ∃ st desc,
    register_chain exec_mode set_str extra_halo (mkTileState [] [] []) [loop] = Ok st
    ∧ insp_loops st = [(kernel_name (kernel loop),
                        set_name (set_info (tiled_iterset loop)), desc)]
    ∧ (map_name (map_core m) +:+ "0_0", access_mode acc) ∈ desc
    ∧ (map_name (map_core m) +:+ "1_0", access_mode acc) ∈ desc
    ∧ (insp_maps st).*2
      = [(map_name (map_core m) +:+ "1_0",
          set_name (set_info (map_iterset (map_core m))),
          set_name (set_info (map_toset (map_core m))),
          values_with_halo (map_core m))]
    ∧ ∀ mp, mp ∈ (insp_maps st).*2 → mp.1.1.1 ≠ map_name (map_core m) +:+ "0_0".
Proof.
  intros Hmode Hplain Hargs.
  assert (is_subset (tiled_iterset loop) = false
          ∧ is_subset (map_iterset (map_core m)) = false
          ∧ is_subset (map_toset (map_core m)) = false) as (Hit & Hmi & Hmt).
  { unfold loop_sets in Hplain. rewrite Hargs in Hplain. cbn in Hplain.
    apply Forall_cons in Hplain as [? Hplain].
    apply Forall_cons in Hplain as [? Hplain].
    by apply Forall_cons in Hplain as [? Hplain]. }
  cbn [register_chain]. unfold register_loop. fold (tiled_iterset loop). rewrite Hargs.
  cbn [insp_sets insp_maps insp_loops].
  destruct (create_slope_set_plain_named exec_mode set_str (tiled_iterset loop) extra_halo
              [] Hmode Hit) as (ss & -> & Hsup & Hname).
  cbn [mbind result_bind]. rewrite Hsup, Hname.
  cbn [truthy mbind result_bind register_args amap access as_tuple register_maps].
  repeat match goal with
  | |- context [create_slope_set exec_mode set_str (map_iterset (map_core m))
                                 extra_halo ?sets] =>
      destruct (create_slope_set_plain exec_mode set_str (map_iterset (map_core m))
                  extra_halo sets Hmode Hmi) as (? & -> & _);
      cbn [mbind result_bind]
  | |- context [create_slope_set exec_mode set_str (map_toset (map_core m))
                                 extra_halo ?sets] =>
      destruct (create_slope_set_plain exec_mode set_str (map_toset (map_core m))
                  extra_halo sets Hmode Hmt) as (? & -> & _);
      cbn [mbind result_bind]
  end.
  change (pretty 0 +:+ "_" +:+ pretty 0) with "0_0".
  change (pretty 1 +:+ "_" +:+ pretty 0) with "1_0".
  rewrite odict_set_twice. cbn [app].
  eexists _, _. split; [reflexivity|]. cbn [insp_loops insp_maps].
  split; [reflexivity|].
  split; [apply elem_of_desc_add; left; apply elem_of_desc_add; by right|].
  split; [apply elem_of_desc_add; by right|].
  split; [reflexivity|].
  intros mp ->%list_elem_of_singleton. cbn. intros Heq%string_app_inj_l. discriminate Heq.
Qed.

(** A matrix assembled over cells with [cell2node] for rows and columns. *)
Lemma matrix_map_registered_once_witness :
  ∃ st desc,
    register_chain "SEQUENTIAL" (λ s, set_name (set_info s)) false
      (mkTileState [] [] [])
      [mkLoop (code "M" ["a"] [incr "a" "1"]) (over cells)
              [mkArg "A" INC (TwoMaps cell2node cell2node)]] = Ok st
    ∧ insp_loops st = [("M", "cells", desc)]
    ∧ ("cell2node0_0", "INC") ∈ desc
    ∧ ("cell2node1_0", "INC") ∈ desc
    ∧ (insp_maps st).*2
      = [("cell2node1_0", "cells", "nodes", [0; 1; 1; 2; 2; 3; 3; 4]%Z)]
    ∧ ∀ mp, mp ∈ (insp_maps st).*2 → mp.1.1.1 ≠ "cell2node0_0".
Proof.
  apply (matrix_map_registered_once "SEQUENTIAL" (λ s, set_name (set_info s)) false
           (mkLoop (code "M" ["a"] [incr "a" "1"]) (over cells)
                   [mkArg "A" INC (TwoMaps cell2node cell2node)])
           "A" INC cell2node).
  - unfold mpi_modes. rewrite !elem_of_cons, elem_of_nil.
    intros [H|[H|[]]]; discriminate H.
  - repeat constructor.
  - reflexivity.
Defined.

(** ** Reduction buffers *)

(** X21. With an item size from 1 to 8 bytes, a thread's row of a reduction
    buffer is longer than [cdim], so that the [cdim] entries that
    [c_reduction_finalisation] reads of each row are inside it.  With an item
    size of 1, 2, 4 or 8 bytes a row takes a whole number of 64-byte cache
    lines.  With an item size above 8 bytes the length of a row is 0. *)
Theorem padding_rows (cdim itemsize : nat) :
  (1 ≤ itemsize ≤ 8 → cdim < padding cdim itemsize)
  ∧ (itemsize ∈ [1; 2; 4; 8] → (padding cdim itemsize * itemsize) `mod` 64 = 0)
  ∧ (8 < itemsize → padding cdim itemsize = 0).
Proof.
  unfold padding, _padding. split_and!.
  - intros [Hlo Hhi].
    assert (1 ≤ 8 / itemsize) as Hq.
    { apply Nat.div_le_lower_bound; lia. }
    assert (cdim < 8 * (cdim / 8 + 1)) as Hlt.
    { pose proof (Nat.div_mod_eq cdim 8) as Hdm.
      pose proof (Nat.mod_upper_bound cdim 8 ltac:(lia)). lia. }
    nia.
  - intros Hin.
    assert (8 / itemsize * itemsize = 8) as Hq.
    { rewrite !elem_of_cons, elem_of_nil in Hin.
      destruct Hin as [->|[->|[->|[->|[]]]]]; reflexivity. }
    rewrite <- Nat.mul_assoc, Hq.
    replace (8 * (cdim / 8 + 1) * 8) with ((cdim / 8 + 1) * 64) by lia.
    apply Nat.Div0.mod_mul.
  - intros Hbig. rewrite (Nat.div_small 8 itemsize) by lia. lia.
Qed.

(** A datum of three doubles, and one of three items of 16 bytes. *)
Lemma padding_rows_witness : 3 < padding 3 8 ∧ padding 3 16 = 0.
Proof.
  split.
  - apply (padding_rows 3 8). lia.
  - apply (padding_rows 3 16). lia.
Defined.

(** ** The slots of the vector of pointers *)

Lemma emits_skip (R : VecInit → VecAdd → Prop) : emits R Ok Ok 0.
Proof.
  intros val val' n. exists [], []. rewrite !app_nil_r, Nat.add_0_r.
  split_and!; done.
Qed.

Lemma emits_then (R : VecInit → VecAdd → Prop) f1 g1 f2 g2 (a b : nat) :
  emits R f1 g1 a → emits R f2 g2 b →
  emits R (λ st, st ← f1 st; f2 st) (λ st, st ← g1 st; g2 st) (a + b).
Proof.
  intros H1 H2 val val' n.
  destruct (H1 val val' n) as (new1 & new1' & -> & -> & Hlen1 & Hslots1 & HR1).
  cbn [mbind result_bind].
  destruct (H2 (val ++ new1) (val' ++ new1') (n + a))
    as (new2 & new2' & -> & -> & Hlen2 & Hslots2 & HR2).
  exists (new1 ++ new2), (new1' ++ new2').
  rewrite <- !app_assoc, Nat.add_assoc. split_and!; try done.
  - rewrite length_app. lia.
  - by rewrite fmap_app, Hslots1, Hslots2, seq_app.
  - by apply Forall2_app.
Qed.

Lemma emits_ext (R : VecInit → VecAdd → Prop) f g f' g' (len len' : nat) :
  (∀ st, f st = f' st) → (∀ st, g st = g' st) → len = len' →
  emits R f g len → emits R f' g' len'.
Proof.
  intros Hf Hg <- H val val' n.
  destruct (H val val' n) as (new & new' & Hfeq & Hgeq & Hrest).
  exists new, new'. by rewrite <- Hf, <- Hg.
Qed.

Lemma emits_for_each {A : Type} (R : VecInit → VecAdd → Prop)
    (body : list VecInit * nat → A → result (list VecInit * nat))
    (body' : list VecAdd * nat → A → result (list VecAdd * nat))
    (len : A → nat) (l : list A) :
  (∀ x, x ∈ l → emits R (λ st, body st x) (λ st, body' st x) (len x)) →
  emits R (for_each body l) (for_each body' l) (sum_list (len <$> l)).
Proof.
  induction l as [|x l IH]; intros Hall.
  - apply emits_skip.
  - cbn [for_each fmap list_fmap sum_list sum_list_with].
    apply (emits_then R (λ st, body st x) (λ st, body' st x)).
    + apply Hall. apply elem_of_cons. by left.
    + apply IH. intros y Hy. apply Hall. apply elem_of_cons. by right.
Qed.

Lemma sum_list_const {A : Type} (l : list A) (c : nat) :
  sum_list ((λ _, c) <$> l) = length l * c.
Proof. induction l as [|x l IH]; [done|]. cbn. by rewrite IH. Qed.

Lemma result_bind_ret {A : Type} (r : result A) : (x ← r; Ok x) = r.
Proof. by destruct r. Qed.

Lemma emits_weaken (R R' : VecInit → VecAdd → Prop) f g (len : nat) :
  (∀ init add, R init add → R' init add) → emits R f g len → emits R' f g len.
Proof.
  intros HR H val val' n.
  destruct (H val val' n) as (new & new' & Hf & Hg & Hlen & Hslots & Hall).
  exists new, new'. split_and!; try done.
  eapply Forall2_impl; [exact Hall|exact HR].
Qed.

(** The statements of one pass over the nodes of a map. *)
Lemma emits_nodes (m : VecMap) (i j cdim : nat) (is_top with_offset : bool) :
  length (vm_offset m) = vm_arity m →
  emits (λ init add,
           va_slot add = vi_slot init ∧ vi_i init = i ∧ va_dim add = cdim
           ∧ vm_offset m !! vi_idx init = Some (va_offset add))
        (init_nodes m i j is_top with_offset) (add_nodes m cdim) (vm_arity m).
Proof.
  intros Hoff. unfold init_nodes, add_nodes.
  eapply emits_ext; [done|done| |apply emits_for_each with (len := λ _, 1)].
  - by rewrite sum_list_const, length_seq, Nat.mul_1_r.
  - intros idx [_ Hidx]%elem_of_seq val val' n. cbn in Hidx.
    destruct (vm_offset m !! idx) as [o|] eqn:Ho.
    2:{ apply lookup_ge_None in Ho. lia. }
    exists [mkVecInit n idx i j is_top (if with_offset then Some o else None)],
           [mkVecAdd n o cdim].
    rewrite Nat.add_1_r. unfold index. rewrite Ho. cbn [mbind result_bind].
    split_and!; try done.
    + by destruct with_offset.
    + by repeat constructor.
Qed.

Lemma emits_block (m : VecMap) (i j cdim : nat) (is_top is_facet : bool) :
  length (vm_offset m) = vm_arity m →
  emits (λ init add,
           va_slot add = vi_slot init ∧ vi_i init = i ∧ va_dim add = cdim
           ∧ vm_offset m !! vi_idx init = Some (va_offset add))
        (init_block m i j is_top is_facet) (add_block m cdim is_facet)
        (vm_arity m * (if is_facet then 2 else 1)).
Proof.
  intros Hoff. unfold init_block, add_block. destruct is_facet.
  - eapply emits_ext; [done|done| |apply emits_then; by apply emits_nodes]. lia.
  - eapply emits_ext; [done|done| |apply emits_then; [by apply emits_nodes|apply emits_skip]].
    lia.
Qed.

Lemma elem_of_enumerate {A : Type} (l : list A) (i : nat) (x : A) :
  (i, x) ∈ zip (seq 0 (length l)) l → l !! i = Some x.
Proof.
  intros (k & Hk)%list_elem_of_lookup_1.
  apply lookup_zip_with_Some in Hk as (i' & x' & [= -> ->] & Hi & Hx).
  apply lookup_seq in Hi as [-> _]. done.
Qed.

(** X22. When every map has an offset per node, [c_vec_init] and
    [c_add_offset] go through and write one statement each per slot
    [0, 1, ...] of the vector, in this order; the statement of
    [c_add_offset] for a slot adds the offset of the node from which
    [c_vec_init] set that slot, times the [cdim] of the datum of that map.
    For a single map and datum, the number of slots is the length that
    [c_vec_dec] declares. *)
Theorem vec_slots (flatten is_top is_facet : bool) (maps_data : list (VecMap * nat)) :
  Forall (λ md, length (vm_offset md.1) = vm_arity md.1) maps_data →
  ∃ inits adds,
    c_vec_init flatten maps_data is_top is_facet = Ok inits
    ∧ c_add_offset flatten true maps_data is_facet = Ok adds
    ∧ vi_slot <$> inits = seq 0 (length inits)
    ∧ Forall2 (agree maps_data) inits adds
    ∧ (∀ m cdim, maps_data = [(m, cdim)] →
         length inits = c_vec_dec_size flatten (vm_arity m) cdim is_facet).
Proof.
  intros Hoff.
  set (len := λ x : nat * (VecMap * nat),
         (if flatten then x.2.2 else 1) * (vm_arity x.2.1 * (if is_facet then 2 else 1))).
  assert (emits (agree maps_data)
            (for_each (λ st '(i, (m, cdim)),
                         let is_top := is_top && vm_extruded m in
                         if flatten
                         then for_each (λ st k, init_block m i k is_top is_facet st)
                                       (seq 0 cdim) st
                         else init_block m i 0 is_top is_facet st)
                      (zip (seq 0 (length maps_data)) maps_data))
            (for_each (λ st '(i, (m, cdim)),
                         for_each (λ st k, add_block m cdim is_facet st)
                                  (seq 0 (if flatten then cdim else 1)) st)
                      (zip (seq 0 (length maps_data)) maps_data))
            (sum_list (len <$> zip (seq 0 (length maps_data)) maps_data))) as Hloops.
  { apply emits_for_each. intros [i [m cdim]] Hin.
    apply elem_of_enumerate in Hin.
    assert (length (vm_offset m) = vm_arity m) as Hm.
    { rewrite Forall_forall in Hoff.
      apply (Hoff (m, cdim)), list_elem_of_lookup. by exists i. }
    apply (emits_weaken (λ init add,
             va_slot add = vi_slot init ∧ vi_i init = i ∧ va_dim add = cdim
             ∧ vm_offset m !! vi_idx init = Some (va_offset add))).
    { intros init add (Hslot & Hi & Hdim & Hoffset). split; [done|].
      exists m. by rewrite Hi, Hdim. }
    unfold len. cbn [fst snd]. destruct flatten.
    - eapply emits_ext; [done|done| |
        apply emits_for_each
          with (len := λ _, vm_arity m * (if is_facet then 2 else 1))].
      + by rewrite sum_list_const, length_seq.
      + intros k _. by apply emits_block.
    - eapply emits_ext; [| | |
        apply (emits_for_each _
                 (λ st _, init_block m i 0 (is_top && vm_extruded m) is_facet st)
                 (λ st _, add_block m cdim is_facet st)
                 (λ _, vm_arity m * (if is_facet then 2 else 1)) (seq 0 1))].
      + intros st. cbn. apply result_bind_ret.
      + done.
      + cbn. lia.
      + intros k _. by apply emits_block. }
  destruct (Hloops [] [] 0) as (inits & adds & Hinits & Hadds & Hlen & Hslots & Hagree).
  exists inits, adds. split_and!; try done.
  - exact (f_equal (λ r : result (list VecInit * nat), '(val, _) ← r; Ok val) Hinits).
  - exact (f_equal (λ r : result (list VecAdd * nat), '(val, _) ← r; Ok val) Hadds).
  - by rewrite Hlen.
  - intros m cdim ->. rewrite Hlen. unfold len, c_vec_dec_size. cbn.
    destruct flatten, is_facet; lia.
Qed.

(** A flattened argument with two components through a map of arity 3, on
    interior facets: twelve slots. *)
Lemma vec_slots_witness :
  ∃ inits adds,
    c_vec_init true [(mkVecMap 3 [1; 1; 1]%Z true, 2)] false true = Ok inits
    ∧ c_add_offset true true [(mkVecMap 3 [1; 1; 1]%Z true, 2)] true = Ok adds
    ∧ vi_slot <$> inits = seq 0 (length inits)
    ∧ Forall2 (agree [(mkVecMap 3 [1; 1; 1]%Z true, 2)]) inits adds
    ∧ (∀ m cdim, [(mkVecMap 3 [1; 1; 1]%Z true, 2)] = [(m, cdim)] →
         length inits = c_vec_dec_size true (vm_arity m) cdim true).
Proof.
  apply (vec_slots true false true [(mkVecMap 3 [1; 1; 1]%Z true, 2)]).
  repeat constructor.
Defined.

(** ** Layers of an extruded set *)





(** ** The copies of the maps for an extruded set *)

Lemma mapM_Ok_fmap {A B : Type} (f : A → result B) (g : A → B) (l : list A) :
  (∀ x, x ∈ l → f x = Ok (g x)) → mapM f l = Ok (g <$> l).
Proof.
  induction l as [|x l IH]; intros Hall; [done|]. cbn [mapM].
  rewrite (Hall x) by (apply elem_of_cons; by left). cbn [mbind result_bind].
  rewrite IH; [done|]. intros y Hy. apply Hall, elem_of_cons. by right.
Qed.

Lemma elem_of_nested {B : Type} (f : nat → nat → B) (a c idx k : nat) :
  idx < a → k < c →
  f idx k ∈ concat ((λ idx, (λ k, f idx k) <$> seq 0 c) <$> seq 0 a).
Proof.
  intros Hidx Hk. apply elem_of_concat. exists ((λ k, f idx k) <$> seq 0 c). split.
  - apply (list_elem_of_fmap_2 (λ idx, (λ k, f idx k) <$> seq 0 c)), elem_of_seq. lia.
  - apply (list_elem_of_fmap_2 (λ k, f idx k)), elem_of_seq. lia.
Qed.

Lemma elem_of_singles {B : Type} (f : nat → B) (a idx : nat) :
  idx < a → f idx ∈ concat ((λ idx, [f idx]) <$> seq 0 a).
Proof.
  intros Hidx. apply elem_of_concat. exists [f idx]. split.
  - apply (list_elem_of_fmap_2 (λ idx, [f idx])), elem_of_seq. lia.
  - by apply list_elem_of_singleton.
Qed.

Lemma length_nested {B : Type} (f : nat → nat → B) (a c : nat) :
  length (concat ((λ idx, (λ k, f idx k) <$> seq 0 c) <$> seq 0 a)) = a * c.
Proof.
  rewrite (length_concat_const _ c).
  - by rewrite length_fmap, length_seq.
  - apply Forall_fmap, Forall_forall. intros idx _. cbn.
    by rewrite length_fmap, length_seq.
Qed.

Lemma length_singles {B : Type} (f : nat → B) (a : nat) :
  length (concat ((λ idx, [f idx]) <$> seq 0 a)) = a.
Proof.
  rewrite (length_concat_const _ 1).
  - rewrite length_fmap, length_seq. lia.
  - apply Forall_fmap, Forall_forall. by intros idx _.
Qed.

Lemma Forall_nested {B : Type} (P : B → Prop) (f : nat → nat → B) (a c : nat) :
  (∀ idx k, P (f idx k)) →
  Forall P (concat ((λ idx, (λ k, f idx k) <$> seq 0 c) <$> seq 0 a)).
Proof.
  intros HP. apply Forall_forall. intros x (l & Hl & Hx)%elem_of_concat.
  apply list_elem_of_fmap in Hl as (idx & -> & _).
  apply list_elem_of_fmap in Hx as (k & -> & _). apply HP.
Qed.

Lemma Forall_singles {B : Type} (P : B → Prop) (f : nat → B) (a : nat) :
  (∀ idx, P (f idx)) → Forall P (concat ((λ idx, [f idx]) <$> seq 0 a)).
Proof.
  intros HP. apply Forall_forall. intros x (l & Hl & Hx)%elem_of_concat.
  apply list_elem_of_fmap in Hl as (idx & -> & _).
  apply list_elem_of_singleton in Hx as ->. apply HP.
Qed.

Lemma cover_Permutation (l : list nat) (n : nat) :
  length l = n → (∀ x, x < n → x ∈ l) → l ≡ₚ seq 0 n.
Proof.
  intros Hlen Hcover. symmetry. apply submseteq_length_Permutation.
  - apply NoDup_submseteq; [apply NoDup_seq|].
    intros x Hx%elem_of_seq. apply Hcover. lia.
  - rewrite length_seq. lia.
Qed.

Lemma split_index (x a c : nat) :
  x < a * c → x / a < c ∧ x `mod` a < a ∧ a * (x / a) + x `mod` a = x.
Proof.
  intros Hx. assert (a ≠ 0) as Ha by (intros ->; lia).
  split_and!.
  - apply Nat.Div0.div_lt_upper_bound. lia.
  - by apply Nat.mod_upper_bound.
  - symmetry. apply Nat.div_mod_eq.
Qed.

(** The statements for one map fill the array declared for it. *)
Lemma map_init_array_fills (is_dat flatten is_top is_facet : bool) (i j : nat)
    (m : VecMap) (cdim : nat) :
  length (vm_offset m) = vm_arity m → 1 ≤ cdim →
  ∃ block,
    map_init_array is_dat flatten is_top is_facet i j m cdim = Ok block
    ∧ Forall (λ e, (mi_i e, mi_j e) = (i, j)) block
    ∧ mi_ind <$> block ≡ₚ seq 0 (map_dim is_dat flatten is_facet m cdim).
Proof.
  intros Hoff Hcdim. unfold map_init_array.
  set (o := λ idx, default 0%Z (vm_offset m !! idx)).
  assert (∀ idx, idx ∈ seq 0 (vm_arity m) → index (vm_offset m) idx = Ok (o idx)) as Hidx.
  { intros idx [_ H]%elem_of_seq. unfold index, o.
    destruct (vm_offset m !! idx) eqn:E; [done|]. apply lookup_ge_None in E. lia. }
  set (top := λ idx, if is_top then TopScaled (o idx) else NoTop).
  assert (map_dim is_dat flatten is_facet m cdim
          = (if is_dat && flatten && bool_decide (1 < cdim)
             then vm_arity m * cdim else vm_arity m)
            * (if is_facet then 2 else 1)) as ->.
  { unfold map_dim. destruct (is_dat && flatten); cbn [andb].
    - destruct (bool_decide (1 < cdim)) eqn:Hc; destruct is_facet; try lia.
      + apply bool_decide_eq_false_1 in Hc. replace cdim with 1 by lia. lia.
      + apply bool_decide_eq_false_1 in Hc. replace cdim with 1 by lia. lia.
    - destruct is_facet; lia. }
  destruct (is_dat && flatten && bool_decide (1 < cdim)); destruct is_facet.
  - rewrite (mapM_Ok_fmap _
               (λ idx, (λ k, mkMapInit i j (vm_arity m * (k * 2 + 1) + idx)
                               idx (Some cdim) k NoTop (Some (o idx))) <$> seq 0 cdim)).
    2:{ intros idx Hin. apply mapM_Ok_fmap. intros k _. by rewrite (Hidx idx Hin). }
    rewrite (mapM_Ok_fmap _
               (λ idx, (λ k, mkMapInit i j (2 * vm_arity m * k + idx)
                               idx (Some cdim) k (top idx) None) <$> seq 0 cdim)).
    2:{ intros idx Hin. apply mapM_Ok_fmap. intros k _.
        unfold top. destruct is_top; [|done]. by rewrite (Hidx idx Hin). }
    cbn [mbind result_bind]. eexists. split; [reflexivity|]. split.
    + apply Forall_app. split; by apply Forall_nested.
    + apply cover_Permutation.
      { rewrite length_fmap, length_app, !length_nested. lia. }
      intros x Hx.
      destruct (split_index x (2 * vm_arity m) cdim ltac:(lia)) as (Hk & Hr & Hsplit).
      apply list_elem_of_fmap.
      destruct (decide (x `mod` (2 * vm_arity m) < vm_arity m)) as [Hlow|Hhigh].
      * exists (mkMapInit i j (2 * vm_arity m * (x / (2 * vm_arity m))
                                + x `mod` (2 * vm_arity m))
                  (x `mod` (2 * vm_arity m)) (Some cdim) (x / (2 * vm_arity m))
                  (top (x `mod` (2 * vm_arity m))) None).
        split; [cbn [mi_ind]; lia|]. apply elem_of_app. left.
        by apply (elem_of_nested
                    (λ idx k, mkMapInit i j (2 * vm_arity m * k + idx) idx (Some cdim) k
                                (top idx) None)).
      * exists (mkMapInit i j (vm_arity m * (x / (2 * vm_arity m) * 2 + 1)
                                + (x `mod` (2 * vm_arity m) - vm_arity m))
                  (x `mod` (2 * vm_arity m) - vm_arity m) (Some cdim)
                  (x / (2 * vm_arity m)) NoTop
                  (Some (o (x `mod` (2 * vm_arity m) - vm_arity m)))).
        split; [cbn [mi_ind]; lia|]. apply elem_of_app. right.
        apply (elem_of_nested
                 (λ idx k, mkMapInit i j (vm_arity m * (k * 2 + 1) + idx) idx (Some cdim) k
                             NoTop (Some (o idx)))); lia.
  - rewrite (mapM_Ok_fmap _
               (λ idx, (λ k, mkMapInit i j (1 * vm_arity m * k + idx)
                               idx (Some cdim) k (top idx) None) <$> seq 0 cdim)).
    2:{ intros idx Hin. apply mapM_Ok_fmap. intros k _.
        unfold top. destruct is_top; [|done]. by rewrite (Hidx idx Hin). }
    cbn [mbind result_bind concat]. rewrite app_nil_r.
    eexists. split; [reflexivity|]. split.
    + by apply Forall_nested.
    + apply cover_Permutation.
      { rewrite length_fmap, length_nested. lia. }
      intros x Hx.
      destruct (split_index x (vm_arity m) cdim ltac:(lia)) as (Hk & Hr & Hsplit).
      apply list_elem_of_fmap.
      exists (mkMapInit i j (1 * vm_arity m * (x / vm_arity m) + x `mod` vm_arity m)
                (x `mod` vm_arity m) (Some cdim) (x / vm_arity m)
                (top (x `mod` vm_arity m)) None).
      split; [cbn [mi_ind]; lia|].
      by apply (elem_of_nested
                  (λ idx k, mkMapInit i j (1 * vm_arity m * k + idx) idx (Some cdim) k
                              (top idx) None)).
  - rewrite (mapM_Ok_fmap _
               (λ idx, [mkMapInit i j (idx + vm_arity m) idx None 0
                          (if is_top then TopPlain else NoTop) (Some (o idx))])).
    2:{ intros idx Hin. by rewrite (Hidx idx Hin). }
    rewrite (mapM_Ok_fmap _ (λ idx, [mkMapInit i j idx idx None 0 (top idx) None])).
    2:{ intros idx Hin. unfold top. destruct is_top; [|done]. by rewrite (Hidx idx Hin). }
    cbn [mbind result_bind]. eexists. split; [reflexivity|]. split.
    + apply Forall_app. split; by apply Forall_singles.
    + apply cover_Permutation.
      { rewrite length_fmap, length_app, !length_singles. lia. }
      intros x Hx. apply list_elem_of_fmap.
      destruct (decide (x < vm_arity m)) as [Hlow|Hhigh].
      * exists (mkMapInit i j x x None 0 (top x) None). split; [done|].
        apply elem_of_app. left.
        by apply (elem_of_singles (λ idx, mkMapInit i j idx idx None 0 (top idx) None)).
      * exists (mkMapInit i j (x - vm_arity m + vm_arity m) (x - vm_arity m) None 0
                  (if is_top then TopPlain else NoTop) (Some (o (x - vm_arity m)))).
        split; [cbn [mi_ind]; lia|]. apply elem_of_app. right.
        apply (elem_of_singles
                 (λ idx, mkMapInit i j (idx + vm_arity m) idx None 0
                           (if is_top then TopPlain else NoTop) (Some (o idx)))).
        lia.
  - rewrite (mapM_Ok_fmap _ (λ idx, [mkMapInit i j idx idx None 0 (top idx) None])).
    2:{ intros idx Hin. unfold top. destruct is_top; [|done]. by rewrite (Hidx idx Hin). }
    cbn [mbind result_bind concat]. rewrite app_nil_r.
    eexists. split; [reflexivity|]. split.
    + by apply Forall_singles.
    + apply cover_Permutation.
      { rewrite length_fmap, length_singles. lia. }
      intros x Hx. apply list_elem_of_fmap.
      exists (mkMapInit i j x x None 0 (top x) None). split; [done|].
      apply (elem_of_singles (λ idx, mkMapInit i j idx idx None 0 (top idx) None)). lia.
Qed.

Lemma mapM_blocks {X D B : Type} (F : X → result B) (G : X → D) (R : D → B → Prop)
    (l : list X) :
  (∀ x, x ∈ l → ∃ b, F x = Ok b ∧ R (G x) b) →
  ∃ bs, mapM F l = Ok bs ∧ Forall2 R (G <$> l) bs.
Proof.
  induction l as [|x l IH]; intros Hall.
  - exists []. split; [done|constructor].
  - destruct (Hall x) as (b & Hb & HR); [apply elem_of_cons; by left|].
    destruct IH as (bs & Hbs & HRs).
    { intros y Hy. apply Hall, elem_of_cons. by right. }
    exists (b :: bs). cbn [mapM]. rewrite Hb. cbn [mbind result_bind]. rewrite Hbs.
    split; [done|]. by constructor.
Qed.

Lemma mapM_rows {X D B : Type} (F : X → result (list B)) (G : X → list D)
    (R : D → list B → Prop) (l : list X) :
  (∀ x, x ∈ l → ∃ bs, F x = Ok (concat bs) ∧ Forall2 R (G x) bs) →
  ∃ rows blocks,
    mapM F l = Ok rows ∧ concat rows = concat blocks
    ∧ Forall2 R (concat (G <$> l)) blocks.
Proof.
  induction l as [|x l IH]; intros Hall.
  - exists [], []. split_and!; done.
  - destruct (Hall x) as (bs & Hbs & HR); [apply elem_of_cons; by left|].
    destruct IH as (rows & blocks & Hrows & Hcat & HRs).
    { intros y Hy. apply Hall, elem_of_cons. by right. }
    exists (concat bs :: rows), (bs ++ blocks). cbn [mapM]. rewrite Hbs.
    cbn [mbind result_bind]. rewrite Hrows. split_and!.
    + done.
    + cbn. by rewrite concat_app, Hcat.
    + cbn. by apply Forall2_app.
Qed.

Lemma elem_of_enumerate_2 {A : Type} (l : list A) (i : nat) (x : A) :
  (i, x) ∈ enumerate l → x ∈ l.
Proof.
  intros Hin. apply list_elem_of_lookup. exists i. by apply elem_of_enumerate.
Qed.

(** X24. When every map has an offset per node and every data set has at
    least one component, [c_map_init] goes through, and its statements come
    in blocks, one per array that [c_map_decl] declares and in the same
    order: the statements of a block all write to that array, and the
    entries they write are the entries [0 .. dim - 1] of the array, each
    exactly once ([dim] being the declared length). *)
Theorem map_arrays_filled (is_dat flatten is_top is_facet : bool)
    (maps : list (list (VecMap * nat))) :
  Forall (Forall (λ md, length (vm_offset md.1) = vm_arity md.1 ∧ 1 ≤ md.2)) maps →
  ∃ blocks,
    c_map_init is_dat flatten is_top is_facet maps = Ok (concat blocks)
    ∧ Forall2 (λ decl block,
                 Forall (λ e, (mi_i e, mi_j e) = decl.1) block
                 ∧ mi_ind <$> block ≡ₚ seq 0 decl.2)
              (c_map_decl is_dat flatten is_facet maps) blocks.
Proof.
  intros Hok. unfold c_map_init, c_map_decl.
  edestruct (mapM_rows
               (λ '(i, row),
                  arrays ← mapM (λ '(j, (m, cdim)),
                                   map_init_array is_dat flatten is_top is_facet i j m cdim)
                                (enumerate row);
                  Ok (concat arrays))
               (λ '(i, row),
                  (λ '(j, (m, cdim)), (i, j, map_dim is_dat flatten is_facet m cdim))
                    <$> enumerate row)
               (λ (decl : nat * nat * nat) (block : list MapInit),
                  Forall (λ e, (mi_i e, mi_j e) = decl.1) block
                  ∧ mi_ind <$> block ≡ₚ seq 0 decl.2)
               (enumerate maps)) as (rows & blocks & Hrows & Hcat & HR).
  - intros [i row] Hrow%elem_of_enumerate_2.
    rewrite Forall_forall in Hok. specialize (Hok row Hrow).
    destruct (mapM_blocks
                (λ '(j, (m, cdim)),
                   map_init_array is_dat flatten is_top is_facet i j m cdim)
                (λ '(j, (m, cdim)), (i, j, map_dim is_dat flatten is_facet m cdim))
                (λ (decl : nat * nat * nat) (block : list MapInit),
                   Forall (λ e, (mi_i e, mi_j e) = decl.1) block
                   ∧ mi_ind <$> block ≡ₚ seq 0 decl.2)
                (enumerate row)) as (bs & Hbs & HRs).
    + intros [j [m cdim]] Hmd%elem_of_enumerate_2.
      rewrite Forall_forall in Hok. destruct (Hok (m, cdim) Hmd) as [Hoff Hcdim].
      destruct (map_init_array_fills is_dat flatten is_top is_facet i j m cdim Hoff Hcdim)
        as (block & Hblock & Hall & Hperm).
      exists block. by split_and!.
    + exists bs. rewrite Hbs. by split.
  - exists blocks. rewrite Hrows. cbn [mbind result_bind]. by rewrite Hcat.
Qed.

(** A flattened argument with two components through a map of arity 3, on
    interior facets: an array of twelve entries. *)
Lemma map_arrays_filled_witness :
  ∃ blocks,
    c_map_init true true false true [[(mkVecMap 3 [1; 1; 1]%Z true, 2)]]
    = Ok (concat blocks)
    ∧ Forall2 (λ decl block,
                 Forall (λ e, (mi_i e, mi_j e) = decl.1) block
                 ∧ mi_ind <$> block ≡ₚ seq 0 decl.2)
              [(0, 0, 12)] blocks.
Proof.
  apply (map_arrays_filled true true false true [[(mkVecMap 3 [1; 1; 1]%Z true, 2)]]).
  repeat constructor.
Defined.
